(** * CoreMark list kernel: a shallow embedding and its properties

    The C sources (core_list_join.c, core_main.c, core_matrix.c,
    core_state.c, core_util.c, concatenated in [all.c]) are embedded as
    executable Rocq functions over an explicit memory.  Pointers are
    addresses ([Z]) into typed field maps, [NULL] is [None]; a read of a
    field that was never written, or an access through [NULL], is a
    [Fault]; loops whose trip count the code does not bound take fuel
    and report [Timeout] when it runs out. *)

From Stdlib Require Import ZArith Lia.
From stdpp Require Import gmap list sorting.

Local Open Scope Z_scope.

(** ** Fixed-width integers (ee_u8, ee_u16, ee_s16, ee_u32, ee_s32) *)

Definition u8 (z : Z) : Z := z mod 256.
Definition u16 (z : Z) : Z := z mod 65536.
Definition u32 (z : Z) : Z := z mod 4294967296.
Definition s16 (z : Z) : Z := (z + 32768) mod 65536 - 32768.
Definition s32 (z : Z) : Z := (z + 2147483648) mod 4294967296 - 2147483648.

(** ** CRC utilities (core_util.c) *)

(** One round of the bit loop of [crcu8]: returns the shifted data and
    the new crc. *)
Definition crcu8_round (st : Z * Z) : Z * Z :=
  let '(data, crc) := st in
  let x16 := u8 (Z.lxor (Z.land data 1) (Z.land (u8 crc) 1)) in
  let data := Z.shiftr data 1 in
  let '(crc, carry) :=
    if x16 =? 1 then (Z.lxor crc 16386, 1) else (crc, 0) in
  let crc := Z.shiftr crc 1 in
  let crc := if carry =? 0 then Z.land crc 32767 else Z.lor crc 32768 in
  (data, crc).

Definition crcu8 (data crc : Z) : Z :=
  snd (Nat.iter 8 crcu8_round (data, crc)).

Definition crcu16 (newval crc : Z) : Z :=
  let crc := crcu8 (u8 newval) crc in
  crcu8 (u8 (Z.shiftr newval 8)) crc.

Definition crc16 (newval crc : Z) : Z := crcu16 (u16 newval) crc.

Definition crcu32 (newval crc : Z) : Z :=
  let crc := crc16 (s16 newval) crc in
  crc16 (s16 (Z.shiftr newval 16)) crc.

(** ** Data model *)

(** [struct list_data_s]: the payload record. *)
Record list_data : Type := mk_data { d_data16 : Z; d_idx : Z }.

Abbreviation ptr := (option Z).

(** [mat_params] and the fields of [core_results] that the list kernel
    and its comparators touch. *)
Record core_results : Type := mk_results {
  seed1 : Z; seed2 : Z; seed3 : Z;
  size : Z;
  crc : Z; crclist : Z; crcmatrix : Z; crcstate : Z;
  mat_N : Z;
  mat_A : gmap Z Z; mat_B : gmap Z Z; mat_C : gmap Z Z;
  memblock3 : gmap Z Z;
  res_list : ptr
}.

(** The memory: one map per struct field ([list_head.next],
    [list_head.info], [list_data.data16], [list_data.idx]) and the
    benchmark context. *)
Record mem : Type := mk_mem {
  m_next : gmap Z ptr;
  m_info : gmap Z Z;
  m_data16 : gmap Z Z;
  m_idx : gmap Z Z;
  m_res : core_results
}.

Definition with_next (nx : gmap Z ptr) (m : mem) : mem :=
  mk_mem nx (m_info m) (m_data16 m) (m_idx m) (m_res m).
Definition with_info (f : gmap Z Z) (m : mem) : mem :=
  mk_mem (m_next m) f (m_data16 m) (m_idx m) (m_res m).
Definition with_data16 (f : gmap Z Z) (m : mem) : mem :=
  mk_mem (m_next m) (m_info m) f (m_idx m) (m_res m).
Definition with_idx (f : gmap Z Z) (m : mem) : mem :=
  mk_mem (m_next m) (m_info m) (m_data16 m) f (m_res m).
Definition with_res (r : core_results) (m : mem) : mem :=
  mk_mem (m_next m) (m_info m) (m_data16 m) (m_idx m) r.

(** ** The execution monad: state plus faults plus fuel exhaustion *)

Inductive result (A : Type) : Type :=
| Ok (a : A)
| Fault
| Timeout.
Arguments Ok {A} a.
Arguments Fault {A}.
Arguments Timeout {A}.

Definition M (A : Type) : Type := mem -> result (A * mem).

Definition ret {A} (a : A) : M A := fun m => Ok (a, m).
Definition bind {A B} (c : M A) (k : A -> M B) : M B :=
  fun m => match c m with
           | Ok (a, m') => k a m'
           | Fault => Fault
           | Timeout => Timeout
           end.
Definition fault {A} : M A := fun _ => Fault.
Definition timeout {A} : M A := fun _ => Timeout.

Notation "x <- c ;; k" := (bind c (fun x => k))
  (at level 62, c at next level, right associativity).
Notation "c ;;; k" := (bind c (fun _ => k))
  (at level 62, right associativity).

(** Field accesses. *)
Definition load_next (p : ptr) : M ptr := fun m =>
  match p with
  | Some a => match m_next m !! a with Some n => Ok (n, m) | None => Fault end
  | None => Fault
  end.
Definition load_info (p : ptr) : M Z := fun m =>
  match p with
  | Some a => match m_info m !! a with Some i => Ok (i, m) | None => Fault end
  | None => Fault
  end.
Definition store_next (p : ptr) (v : ptr) : M unit := fun m =>
  match p with
  | Some a => Ok (tt, with_next (<[a := v]> (m_next m)) m)
  | None => Fault
  end.
Definition store_info (p : ptr) (v : Z) : M unit := fun m =>
  match p with
  | Some a => Ok (tt, with_info (<[a := v]> (m_info m)) m)
  | None => Fault
  end.
Definition load_data16 (a : Z) : M Z := fun m =>
  match m_data16 m !! a with Some v => Ok (v, m) | None => Fault end.
Definition load_idx (a : Z) : M Z := fun m =>
  match m_idx m !! a with Some v => Ok (v, m) | None => Fault end.
Definition store_data16 (a : Z) (v : Z) : M unit := fun m =>
  Ok (tt, with_data16 (<[a := v]> (m_data16 m)) m).
Definition store_idx (a : Z) (v : Z) : M unit := fun m =>
  Ok (tt, with_idx (<[a := v]> (m_idx m)) m).
Definition get_res : M core_results := fun m => Ok (m_res m, m).
Definition put_res (r : core_results) : M unit := fun m => Ok (tt, with_res r m).

(** [copy_info(to, from)] with [from] a local record. *)
Definition copy_info (to : Z) (from : list_data) : M unit :=
  store_data16 to (d_data16 from) ;;;
  store_idx to (d_idx from).

(** ** Mutators (core_list_join.c) *)

(** [core_list_insert_new]: the two cursors are in/out arguments, so the
    new cursor values are returned next to the new item. *)
Definition core_list_insert_new (insert_point : ptr) (info : list_data)
    (memblock datablock memblock_end datablock_end : Z) : M (ptr * Z * Z) :=
  if memblock_end <=? memblock + 1 then ret (None, memblock, datablock)
  else if datablock_end <=? datablock + 1 then ret (None, memblock, datablock)
  else
    let newitem := Some memblock in
    let memblock' := memblock + 1 in
    nx <- load_next insert_point ;;
    store_next newitem nx ;;;
    store_next insert_point newitem ;;;
    store_info newitem datablock ;;;
    let datablock' := datablock + 1 in
    i <- load_info newitem ;;
    copy_info i info ;;;
    ret (newitem, memblock', datablock').

Definition core_list_remove (item : ptr) : M ptr :=
  ret_ <- load_next item ;;
  tmp <- load_info item ;;
  ri <- load_info ret_ ;;
  store_info item ri ;;;
  store_info ret_ tmp ;;;
  nx <- load_next item ;;
  nnx <- load_next nx ;;
  store_next item nnx ;;;
  store_next ret_ None ;;;
  ret ret_.

Definition core_list_undo_remove (item_removed item_modified : ptr) : M ptr :=
  tmp <- load_info item_removed ;;
  mi <- load_info item_modified ;;
  store_info item_removed mi ;;;
  store_info item_modified tmp ;;;
  mn <- load_next item_modified ;;
  store_next item_removed mn ;;;
  store_next item_modified item_removed ;;;
  ret item_removed.

(** [core_list_find]: the loop also reports the nodes it visited (a ghost
    trace, in visiting order). *)
Fixpoint find_idx_loop (fuel : nat) (lst : ptr) (key : Z) (seen : list Z)
    : M (ptr * list Z) :=
  match fuel with
  | O => timeout
  | S f =>
    match lst with
    | None => ret (None, seen)
    | Some a =>
      i <- load_info lst ;;
      v <- load_idx i ;;
      if v =? key then ret (lst, seen ++ [a])
      else nx <- load_next lst ;; find_idx_loop f nx key (seen ++ [a])
    end
  end.

Fixpoint find_data_loop (fuel : nat) (lst : ptr) (key : Z) (seen : list Z)
    : M (ptr * list Z) :=
  match fuel with
  | O => timeout
  | S f =>
    match lst with
    | None => ret (None, seen)
    | Some a =>
      i <- load_info lst ;;
      v <- load_data16 i ;;
      if Z.land v 255 =? key then ret (lst, seen ++ [a])
      else nx <- load_next lst ;; find_data_loop f nx key (seen ++ [a])
    end
  end.

Definition core_list_find_trace (fuel : nat) (lst : ptr) (info : list_data)
    : M (ptr * list Z) :=
  if 0 <=? d_idx info then find_idx_loop fuel lst (d_idx info) []
  else find_data_loop fuel lst (d_data16 info) [].

Definition core_list_find (fuel : nat) (lst : ptr) (info : list_data) : M ptr :=
  r <- core_list_find_trace fuel lst info ;; ret (fst r).

Fixpoint reverse_loop (fuel : nat) (lst next : ptr) : M ptr :=
  match fuel with
  | O => timeout
  | S f =>
    match lst with
    | None => ret next
    | Some _ =>
      tmp <- load_next lst ;;
      store_next lst next ;;;
      reverse_loop f tmp lst
    end
  end.

Definition core_list_reverse (fuel : nat) (lst : ptr) : M ptr :=
  reverse_loop fuel lst None.

(** ** Comparators *)

(** The [core_results *] argument: either [NULL] or the one context of
    the memory. *)
Inductive res_ptr : Type := RES_NULL | RES_CTX.

(** [list_cmp]: a comparator receives two record addresses and the
    context pointer; it may write to memory. *)
Definition list_cmp : Type := Z -> Z -> res_ptr -> M Z.

(** The byte restore of [cmp_idx]:
    [(d & 0xff00) | (0x00ff & (d >> 8))], stored back into an ee_s16. *)
Definition regen_data (d : Z) : Z :=
  s16 (Z.lor (Z.land d 65280) (Z.land 255 (Z.shiftr d 8))).

Definition cmp_idx : list_cmp := fun a b res =>
  match res with
  | RES_NULL =>
      da <- load_data16 a ;;
      store_data16 a (regen_data da) ;;;
      db <- load_data16 b ;;
      store_data16 b (regen_data db)
  | RES_CTX => ret tt
  end ;;;
  ia <- load_idx a ;;
  ib <- load_idx b ;;
  ret (s32 (ia - ib)).

(** A comparator that only reads the two records: the shape of every
    side-effect free [list_cmp]. *)
Definition cmp_of (c : list_data -> list_data -> Z) : list_cmp := fun a b _ =>
  da <- load_data16 a ;;
  ia <- load_idx a ;;
  db <- load_data16 b ;;
  ib <- load_idx b ;;
  ret (c (mk_data da ia) (mk_data db ib)).

(** ** Iterative merge sort (core_list_mergesort) *)

(** [for (i = 0; i < insize; i++) { psize++; q = q->next; if (!q) break; }]
    with [n] the number of iterations left. *)
Fixpoint step_q (n : nat) (q : ptr) (psize : Z) : M (ptr * Z) :=
  match n with
  | O => ret (q, psize)
  | S n' =>
    let psize := s32 (psize + 1) in
    q <- load_next q ;;
    match q with
    | None => ret (q, psize)
    | Some _ => step_q n' q psize
    end
  end.

(** State of the merge loop: [p], [q], [psize], [qsize], [list], [tail]. *)
Record merge_st : Type := mk_merge_st {
  ms_p : ptr; ms_q : ptr; ms_psize : Z; ms_qsize : Z;
  ms_list : ptr; ms_tail : ptr
}.

(** [while (psize > 0 || (qsize > 0 && q)) { ... }] *)
Fixpoint merge_loop (fuel : nat) (cmp : list_cmp) (res : res_ptr)
    (s : merge_st) : M merge_st :=
  match fuel with
  | O => timeout
  | S f =>
    let '(mk_merge_st p q psize qsize lst tail) := s in
    if (0 <? psize) || ((0 <? qsize) && bool_decide (is_Some q)) then
      (* decide whether next element of merge comes from p or q *)
      s1 <-
        (if psize =? 0 then
           qn <- load_next q ;;
           ret (q, mk_merge_st p qn psize (s32 (qsize - 1)) lst tail)
         else if (qsize =? 0) || bool_decide (q = None) then
           pn <- load_next p ;;
           ret (p, mk_merge_st pn q (s32 (psize - 1)) qsize lst tail)
         else
           pi <- load_info p ;;
           qi <- load_info q ;;
           c <- cmp pi qi res ;;
           if c <=? 0 then
             pn <- load_next p ;;
             ret (p, mk_merge_st pn q (s32 (psize - 1)) qsize lst tail)
           else
             qn <- load_next q ;;
             ret (q, mk_merge_st p qn psize (s32 (qsize - 1)) lst tail)) ;;
      let '(e, mk_merge_st p q psize qsize lst tail) := s1 in
      (* add the next element to the merged list *)
      lst <-
        match tail with
        | Some _ => store_next tail e ;;; ret lst
        | None => ret e
        end ;;
      merge_loop f cmp res (mk_merge_st p q psize qsize lst e)
    else ret s
  end.

(** [while (p) { nmerges++; ...; p = q; }]: returns [list], [tail] and
    [nmerges]. *)
Fixpoint pass_loop (fuel n : nat) (cmp : list_cmp) (res : res_ptr)
    (insize : Z) (p lst tail : ptr) (nmerges : Z) : M (ptr * ptr * Z) :=
  match fuel with
  | O => timeout
  | S f =>
    match p with
    | None => ret (lst, tail, nmerges)
    | Some _ =>
      let nmerges := s32 (nmerges + 1) in
      qp <- step_q (Z.to_nat insize) p 0 ;;
      let '(q, psize) := qp in
      let qsize := insize in
      s <- merge_loop n cmp res (mk_merge_st p q psize qsize lst tail) ;;
      pass_loop f n cmp res insize (ms_q s) (ms_list s) (ms_tail s) nmerges
    end
  end.

(** One execution of the body of [while (1)], up to and including
    [tail->next = NULL]: returns the new [list] and [nmerges]. *)
Definition mergesort_pass (n : nat) (cmp : list_cmp) (res : res_ptr)
    (insize : Z) (lst : ptr) : M (ptr * Z) :=
  r <- pass_loop n n cmp res insize lst None None 0 ;;
  let '(lst, tail, nmerges) := r in
  store_next tail None ;;;
  ret (lst, nmerges).

Fixpoint mergesort_loop (fuel n : nat) (cmp : list_cmp) (res : res_ptr)
    (insize : Z) (lst : ptr) : M ptr :=
  match fuel with
  | O => timeout
  | S f =>
    r <- mergesort_pass n cmp res insize lst ;;
    let '(lst, nmerges) := r in
    if nmerges <=? 1 then ret lst
    else mergesort_loop f n cmp res (s32 (insize * 2)) lst
  end.

Definition core_list_mergesort (fuel : nat) (lst : ptr) (cmp : list_cmp)
    (res : res_ptr) : M ptr :=
  mergesort_loop fuel fuel cmp res 1 lst.

(** ** List builder (core_list_init) *)

(** [for (i = 0; i < size; i++)]: the insertion loop, [n] iterations left. *)
Fixpoint init_insert_loop (n : nat) (i : Z) (seed : Z) (lst : ptr)
    (idx0 : Z) (memblock datablock memblock_end datablock_end : Z)
    : M (Z * Z) :=
  match n with
  | O => ret (memblock, datablock)
  | S n' =>
    let datpat := Z.land (u16 (Z.lxor seed i)) 15 in
    let dat := u16 (Z.lor (Z.shiftl datpat 3) (Z.land i 7)) in
    let info := mk_data (s16 (Z.lor (Z.shiftl dat 8) dat)) idx0 in
    r <- core_list_insert_new lst info memblock datablock
           memblock_end datablock_end ;;
    let '(_, memblock, datablock) := r in
    init_insert_loop n' (u32 (i + 1)) seed lst idx0
      memblock datablock memblock_end datablock_end
  end.

(** [while (finder->next != NULL) { ...; finder = finder->next; }] *)
Fixpoint init_index_loop (fuel : nat) (size seed : Z) (finder : ptr) (i : Z)
    : M unit :=
  match fuel with
  | O => timeout
  | S f =>
    nx <- load_next finder ;;
    match nx with
    | None => ret tt
    | Some _ =>
      fi <- load_info finder ;;
      i' <-
        (if i <? size / 5 then
           store_idx fi (s16 i) ;;; ret (u32 (i + 1))
         else
           let pat := u16 (Z.lxor i seed) in
           let i := u32 (i + 1) in
           store_idx fi
             (s16 (Z.land 16383 (Z.lor (Z.shiftl (Z.land i 7) 8) pat))) ;;;
           ret i) ;;
      nx <- load_next finder ;;
      init_index_loop f size seed nx i'
    end
  end.

(** The part of [core_list_init] before the final sort; returns the
    list head together with [size]. *)
Definition core_list_init_fill (fuel : nat) (sizeof_list_data : Z)
    (blksize : Z) (memblock : Z) (seed : Z) : M (ptr * Z) :=
  let per_item := u32 (16 + sizeof_list_data) in
  let size := u32 (blksize / per_item - 2) in
  let memblock_end := memblock + size in
  let datablock := memblock_end in
  let datablock_end := datablock + size in
  let lst := Some memblock in
  store_next lst None ;;;
  store_info lst datablock ;;;
  li <- load_info lst ;;
  store_idx li 0 ;;;
  li <- load_info lst ;;
  store_data16 li (s16 32896) ;;;
  let memblock := memblock + 1 in
  let datablock := datablock + 1 in
  r <- core_list_insert_new lst (mk_data (s16 65535) 32767)
         memblock datablock memblock_end datablock_end ;;
  let '(_, memblock, datablock) := r in
  init_insert_loop (Z.to_nat size) 0 seed lst 32767
    memblock datablock memblock_end datablock_end ;;;
  finder <- load_next lst ;;
  init_index_loop fuel size seed finder 1 ;;;
  ret (lst, size).

Definition core_list_init (fuel : nat) (sizeof_list_data : Z)
    (blksize : Z) (memblock : Z) (seed : Z) : M ptr :=
  r <- core_list_init_fill fuel sizeof_list_data blksize memblock seed ;;
  core_list_mergesort fuel (fst r) cmp_idx RES_NULL.

(** ** Observing a list *)

(** The addresses of the nodes reachable from [p], in chain order. *)
Fixpoint chain_nodes (fuel : nat) (p : ptr) : M (list Z) :=
  match fuel with
  | O => timeout
  | S f =>
    match p with
    | None => ret []
    | Some a =>
      nx <- load_next p ;;
      rest <- chain_nodes f nx ;;
      ret (a :: rest)
    end
  end.

(** The record a node owns. *)
Definition node_data (m : mem) (a : Z) : option list_data :=
  match m_info m !! a with
  | Some i =>
    match m_data16 m !! i, m_idx m !! i with
    | Some d, Some x => Some (mk_data d x)
    | _, _ => None
    end
  | None => None
  end.

Definition empty_results : core_results :=
  mk_results 0 0 0 0 0 0 0 0 0 ∅ ∅ ∅ ∅ None.
Definition empty_mem : mem := mk_mem ∅ ∅ ∅ ∅ empty_results.

(** Field updates of [core_results]. *)
Definition res_with_mat (A C : gmap Z Z) (r : core_results) : core_results :=
  mk_results (seed1 r) (seed2 r) (seed3 r) (size r) (crc r) (crclist r)
    (crcmatrix r) (crcstate r) (mat_N r) A (mat_B r) C (memblock3 r)
    (res_list r).
Definition res_with_memblock3 (b : gmap Z Z) (r : core_results)
    : core_results :=
  mk_results (seed1 r) (seed2 r) (seed3 r) (size r) (crc r) (crclist r)
    (crcmatrix r) (crcstate r) (mat_N r) (mat_A r) (mat_B r) (mat_C r) b
    (res_list r).
Definition res_with_crc (v : Z) (r : core_results) : core_results :=
  mk_results (seed1 r) (seed2 r) (seed3 r) (size r) v (crclist r)
    (crcmatrix r) (crcstate r) (mat_N r) (mat_A r) (mat_B r) (mat_C r)
    (memblock3 r) (res_list r).
Definition res_with_crclist (v : Z) (r : core_results) : core_results :=
  mk_results (seed1 r) (seed2 r) (seed3 r) (size r) (crc r) v
    (crcmatrix r) (crcstate r) (mat_N r) (mat_A r) (mat_B r) (mat_C r)
    (memblock3 r) (res_list r).
Definition res_with_crcmatrix (v : Z) (r : core_results) : core_results :=
  mk_results (seed1 r) (seed2 r) (seed3 r) (size r) (crc r) (crclist r)
    v (crcstate r) (mat_N r) (mat_A r) (mat_B r) (mat_C r)
    (memblock3 r) (res_list r).
Definition res_with_crcstate (v : Z) (r : core_results) : core_results :=
  mk_results (seed1 r) (seed2 r) (seed3 r) (size r) (crc r) (crclist r)
    (crcmatrix r) v (mat_N r) (mat_A r) (mat_B r) (mat_C r)
    (memblock3 r) (res_list r).

(** ** Matrix benchmark (core_matrix.c); MATDAT is ee_s16, MATRES is ee_s32 *)

(** [for (i = lo; i < lo + n; i++) body], threading a state. *)
Fixpoint for_range {S : Type} (n : nat) (i : Z) (body : Z -> S -> S) (s : S)
    : S :=
  match n with
  | O => s
  | S n' => for_range n' (i + 1) body (body i s)
  end.

Section Matrix.
(** The macros [matrix_clip] and [matrix_big] of core_matrix.c, whose
    text depends on [HAS_FLOAT]. *)
Variable matrix_clip : Z -> Z -> Z.
Variable matrix_big : Z -> Z.

Definition matrix_add_const (N : Z) (A : gmap Z Z) (val : Z) : gmap Z Z :=
  for_range (Z.to_nat N) 0 (fun i A =>
    for_range (Z.to_nat N) 0 (fun j A =>
      <[i * N + j := s16 (A !!! (i * N + j) + val)]> A) A) A.

Definition matrix_mul_const (N : Z) (C A : gmap Z Z) (val : Z) : gmap Z Z :=
  for_range (Z.to_nat N) 0 (fun i C =>
    for_range (Z.to_nat N) 0 (fun j C =>
      <[i * N + j := s32 (A !!! (i * N + j) * val)]> C) C) C.

Definition matrix_mul_vect (N : Z) (C A B : gmap Z Z) : gmap Z Z :=
  for_range (Z.to_nat N) 0 (fun i C =>
    let C := <[i := 0]> C in
    for_range (Z.to_nat N) 0 (fun j C =>
      <[i := s32 (C !!! i + s32 (A !!! (i * N + j) * B !!! j))]> C) C) C.

Definition matrix_mul_matrix (N : Z) (C A B : gmap Z Z) : gmap Z Z :=
  for_range (Z.to_nat N) 0 (fun i C =>
    for_range (Z.to_nat N) 0 (fun j C =>
      let C := <[i * N + j := 0]> C in
      for_range (Z.to_nat N) 0 (fun k C =>
        <[i * N + j :=
            s32 (C !!! (i * N + j)
                 + s32 (A !!! (i * N + k) * B !!! (k * N + j)))]> C) C) C) C.

(** The accumulation into [C[i * N + j]] is commented out in the
    source: the inner loop computes [tmp] and drops it. *)
Definition matrix_mul_matrix_bitextract (N : Z) (C A B : gmap Z Z)
    : gmap Z Z :=
  for_range (Z.to_nat N) 0 (fun i C =>
    for_range (Z.to_nat N) 0 (fun j C =>
      let C := <[i * N + j := 0]> C in
      for_range (Z.to_nat N) 0 (fun k C =>
        let tmp := s32 (A !!! (i * N + k) * B !!! (k * N + j)) in
        C) C) C) C.

Definition matrix_sum (N : Z) (C : gmap Z Z) (clipval : Z) : Z :=
  let '(_, _, r) :=
    for_range (Z.to_nat N) 0 (fun i st =>
      for_range (Z.to_nat N) 0 (fun j st =>
        let '(tmp, prev, r) := st in
        let cur := C !!! (i * N + j) in
        let tmp := s32 (tmp + cur) in
        if clipval <? tmp then (0, cur, s16 (r + 10))
        else (tmp, cur, s16 (r + (if prev <? cur then 1 else 0)))) st)
      (0, 0, 0) in
  r.

(** [matrix_test]: returns the crc and the arrays [C] and [A]. *)
Definition matrix_test (N : Z) (C A B : gmap Z Z) (val : Z)
    : Z * gmap Z Z * gmap Z Z :=
  let crc := 0 in
  let clipval := s16 (matrix_big val) in
  let A := matrix_add_const N A val in
  let C := matrix_mul_const N C A val in
  let crc := crc16 (matrix_sum N C clipval) crc in
  let C := matrix_mul_vect N C A B in
  let crc := crc16 (matrix_sum N C clipval) crc in
  let C := matrix_mul_matrix N C A B in
  let crc := crc16 (matrix_sum N C clipval) crc in
  let C := matrix_mul_matrix_bitextract N C A B in
  let crc := crc16 (matrix_sum N C clipval) crc in
  let A := matrix_add_const N A (s16 (- val)) in
  (s16 crc, C, A).

Definition core_bench_matrix (seed crc : Z) : M Z :=
  r <- get_res ;;
  let '(t, C, A) := matrix_test (mat_N r) (mat_C r) (mat_A r) (mat_B r) seed in
  put_res (res_with_mat A C r) ;;;
  ret (crc16 t crc).

(** [while (j < blksize) { i++; j = i * i * 2 * 4; }] *)
Fixpoint matrix_dim_loop (fuel : nat) (blksize i j : Z) : Z :=
  match fuel with
  | O => i
  | S f =>
    if j <? blksize then
      let i := u32 (i + 1) in
      matrix_dim_loop f blksize i (u32 (i * i * 2 * 4))
    else i
  end.

(** [core_init_matrix]: returns [N], [A] and [B]. *)
Definition core_init_matrix (fuel : nat) (blksize : Z) (seed : Z)
    : Z * gmap Z Z * gmap Z Z :=
  let seed := if seed =? 0 then 1 else seed in
  let i := matrix_dim_loop fuel blksize 0 0 in
  let N := u32 (i - 1) in
  let '(_, _, A, B) :=
    for_range (Z.to_nat N) 0 (fun i st =>
      for_range (Z.to_nat N) 0 (fun j st =>
        let '(seed, order, A, B) := st in
        let seed := Z.rem (s32 (order * seed)) 65536 in
        let val := s16 (seed + order) in
        let val := s16 (matrix_clip val 0) in
        let B := <[i * N + j := val]> B in
        let val := s16 (val + order) in
        let val := s16 (matrix_clip val 1) in
        let A := <[i * N + j := val]> A in
        (seed, s32 (order + 1), A, B)) st)
      (seed, 1, (∅ : gmap Z Z), (∅ : gmap Z Z)) in
  (N, A, B).
End Matrix.

(** ** State machine benchmark (core_state.c) *)

Inductive CORE_STATE : Type :=
| CORE_START | CORE_INVALID | CORE_S1 | CORE_S2 | CORE_INT | CORE_FLOAT
| CORE_EXPONENT | CORE_SCIENTIFIC.

Definition state_index (s : CORE_STATE) : nat :=
  match s with
  | CORE_START => 0 | CORE_INVALID => 1 | CORE_S1 => 2 | CORE_S2 => 3
  | CORE_INT => 4 | CORE_FLOAT => 5 | CORE_EXPONENT => 6
  | CORE_SCIENTIFIC => 7
  end%nat.

Definition NUM_CORE_STATES : nat := 8.

(** [counts[s]++] on an array of ee_u32. *)
Definition count_incr (counts : list Z) (s : CORE_STATE) : list Z :=
  <[state_index s := u32 (counts !!! state_index s + 1)]> counts.

Definition ee_isdigit (c : Z) : bool := (48 <=? c) && (c <=? 57).

(** One iteration of the [switch] of [core_state_transition] on a symbol
    that is not the separator. *)
Definition transition_step (state : CORE_STATE) (c : Z) (tc : list Z)
    : CORE_STATE * list Z :=
  match state with
  | CORE_START =>
    let '(state, tc) :=
      if ee_isdigit c then (CORE_INT, tc)
      else if (c =? 43) || (c =? 45) then (CORE_S1, tc)
      else if c =? 46 then (CORE_FLOAT, tc)
      else (CORE_INVALID, count_incr tc CORE_INVALID) in
    (state, count_incr tc CORE_START)
  | CORE_S1 =>
    if ee_isdigit c then (CORE_INT, count_incr tc CORE_S1)
    else if c =? 46 then (CORE_FLOAT, count_incr tc CORE_S1)
    else (CORE_INVALID, count_incr tc CORE_S1)
  | CORE_INT =>
    if c =? 46 then (CORE_FLOAT, count_incr tc CORE_INT)
    else if negb (ee_isdigit c) then (CORE_INVALID, count_incr tc CORE_INT)
    else (state, tc)
  | CORE_FLOAT =>
    if (c =? 69) || (c =? 101) then (CORE_S2, count_incr tc CORE_FLOAT)
    else if negb (ee_isdigit c) then (CORE_INVALID, count_incr tc CORE_FLOAT)
    else (state, tc)
  | CORE_S2 =>
    if (c =? 43) || (c =? 45) then (CORE_EXPONENT, count_incr tc CORE_S2)
    else (CORE_INVALID, count_incr tc CORE_S2)
  | CORE_EXPONENT =>
    if ee_isdigit c then (CORE_SCIENTIFIC, count_incr tc CORE_EXPONENT)
    else (CORE_INVALID, count_incr tc CORE_EXPONENT)
  | CORE_SCIENTIFIC =>
    if negb (ee_isdigit c) then (CORE_INVALID, count_incr tc CORE_INVALID)
    else (state, tc)
  | CORE_INVALID => (state, tc)
  end.

Definition is_invalid (s : CORE_STATE) : bool :=
  match s with CORE_INVALID => true | _ => false end.

(** [for (; *str && state != CORE_INVALID; str++)]: returns the end
    state, the new [*instr] and the transition counts; [None] when the
    fuel runs out. *)
Fixpoint core_state_transition_loop (fuel : nat) (buf : gmap Z Z) (str : Z)
    (state : CORE_STATE) (tc : list Z) : option (CORE_STATE * Z * list Z) :=
  match fuel with
  | O => None
  | S f =>
    let c := buf !!! str in
    if (c =? 0) || is_invalid state then Some (state, str, tc)
    else if c =? 44 then Some (state, str + 1, tc)
    else
      let '(state, tc) := transition_step state c tc in
      core_state_transition_loop f buf (str + 1) state tc
  end.

Definition core_state_transition (fuel : nat) (buf : gmap Z Z) (instr : Z)
    (tc : list Z) : option (CORE_STATE * Z * list Z) :=
  core_state_transition_loop fuel buf instr CORE_START tc.

(** [while ( *p != 0) { fstate = core_state_transition(&p, track_counts);
    final_counts[fstate]++; }] *)
Fixpoint state_scan_loop (fuel : nat) (buf : gmap Z Z) (p : Z)
    (final_counts track_counts : list Z) : option (list Z * list Z) :=
  match fuel with
  | O => None
  | S f =>
    if buf !!! p =? 0 then Some (final_counts, track_counts)
    else
      match core_state_transition fuel buf p track_counts with
      | Some (fstate, p, track_counts) =>
        state_scan_loop f buf p (count_incr final_counts fstate) track_counts
      | None => None
      end
  end.

(** [while (p < memblock + blksize) { if ( *p != 44) *p ^= (ee_u8)seed;
    p += step; }] *)
Fixpoint state_corrupt_loop (fuel : nat) (buf : gmap Z Z) (p blksize : Z)
    (seed step : Z) : option (gmap Z Z) :=
  match fuel with
  | O => None
  | S f =>
    if p <? blksize then
      let buf :=
        if buf !!! p =? 44 then buf
        else <[p := Z.lxor (buf !!! p) (u8 seed)]> buf in
      state_corrupt_loop f buf (p + step) blksize seed step
    else Some buf
  end.

Definition lift_option {A} (o : option A) : M A :=
  match o with Some a => ret a | None => timeout end.

Definition core_bench_state (fuel : nat) (blksize : Z) (seed1 seed2 step : Z)
    (crc : Z) : M Z :=
  r <- get_res ;;
  let buf := memblock3 r in
  let final_counts := replicate NUM_CORE_STATES 0 in
  let track_counts := replicate NUM_CORE_STATES 0 in
  c <- lift_option (state_scan_loop fuel buf 0 final_counts track_counts) ;;
  let '(final_counts, track_counts) := c in
  buf <- lift_option (state_corrupt_loop fuel buf 0 blksize seed1 step) ;;
  c <- lift_option (state_scan_loop fuel buf 0 final_counts track_counts) ;;
  let '(final_counts, track_counts) := c in
  buf <- lift_option (state_corrupt_loop fuel buf 0 blksize seed2 step) ;;
  put_res (res_with_memblock3 buf r) ;;;
  ret (fold_left (fun crc i =>
         let crc := crcu32 (final_counts !!! i) crc in
         crcu32 (track_counts !!! i) crc) (seq 0 NUM_CORE_STATES) crc).

(** The initialization patterns, as byte strings. *)
Definition intpat : list (list Z) :=
  [[53; 48; 49; 50]; [49; 50; 51; 52]; [45; 56; 55; 52]; [43; 49; 50; 50]].
Definition floatpat : list (list Z) :=
  [[51; 53; 46; 53; 52; 52; 48; 48]; [46; 49; 50; 51; 52; 53; 48; 48];
   [45; 49; 49; 48; 46; 55; 48; 48]; [43; 48; 46; 54; 52; 52; 48; 48]].
Definition scipat : list (list Z) :=
  [[53; 46; 53; 48; 48; 101; 43; 51]; [45; 46; 49; 50; 51; 101; 45; 50];
   [45; 56; 55; 101; 43; 56; 51; 50]; [43; 48; 46; 54; 101; 45; 49; 50]].
Definition errpat : list (list Z) :=
  [[84; 48; 46; 51; 101; 45; 49; 70]; [45; 84; 46; 84; 43; 43; 84; 113];
   [49; 84; 51; 46; 52; 101; 52; 122]; [51; 52; 46; 48; 101; 45; 84; 94]].

(** [while ((total + next + 1) < size) { ... }] of [core_init_state]. *)
Fixpoint init_state_loop (fuel : nat) (size : Z) (seed : Z) (p : gmap Z Z)
    (total next : Z) (buf : list Z) : option (gmap Z Z * Z) :=
  match fuel with
  | O => None
  | S f =>
    if u32 (total + next + 1) <? size then
      let '(p, total) :=
        if 0 <? next then
          let p := for_range (Z.to_nat next) 0
                     (fun i p => <[total + i := buf !!! Z.to_nat i]> p) p in
          let p := <[total + next := 44]> p in
          (p, u32 (total + next + 1))
        else (p, total) in
      let seed := s16 (seed + 1) in
      let k := Z.to_nat (Z.land (Z.shiftr seed 3) 3) in
      let sel := Z.land seed 7 in
      let '(buf, next) :=
        if sel <=? 2 then (intpat !!! k, 4)
        else if sel <=? 4 then (floatpat !!! k, 8)
        else if sel <=? 6 then (scipat !!! k, 8)
        else (errpat !!! k, 8) in
      init_state_loop f size seed p total next buf
    else Some (p, total)
  end.

Definition core_init_state (fuel : nat) (size : Z) (seed : Z)
    : option (gmap Z Z) :=
  let size := u32 (size - 1) in
  match init_state_loop fuel size seed ∅ 0 0 [] with
  | Some (p, total) =>
    let size := u32 (size + 1) in
    Some (for_range (Z.to_nat (size - total)) total (fun i p => <[i := 0]> p) p)
  | None => None
  end.

(** ** Content comparator (calc_func, cmp_complex) *)

Definition deref_res (res : res_ptr) : M core_results :=
  match res with RES_CTX => get_res | RES_NULL => fault end.

Section Bench.
Variable matrix_clip : Z -> Z -> Z.
Variable matrix_big : Z -> Z.
Variable fuel : nat.

Definition calc_func (pdata : Z) (res : res_ptr) : M Z :=
  data <- load_data16 pdata ;;
  let optype := u8 (Z.land (Z.shiftr data 7) 1) in
  if negb (optype =? 0) then ret (Z.land data 127)
  else
    let flag := Z.land data 7 in
    let dtype := Z.land (Z.shiftr data 3) 15 in
    let dtype := s16 (Z.lor dtype (Z.shiftl dtype 4)) in
    retval <-
      (if flag =? 0 then
         let dtype := if dtype <? 34 then 34 else dtype in
         r <- deref_res res ;;
         v <- core_bench_state fuel (size r) (seed1 r) (seed2 r) dtype
                (crc r) ;;
         let retval := s16 v in
         r <- deref_res res ;;
         (if crcstate r =? 0 then put_res (res_with_crcstate (u16 retval) r)
          else ret tt) ;;;
         ret retval
       else if flag =? 1 then
         r <- deref_res res ;;
         v <- core_bench_matrix matrix_big dtype (crc r) ;;
         let retval := s16 v in
         r <- deref_res res ;;
         (if crcmatrix r =? 0 then
            put_res (res_with_crcmatrix (u16 retval) r)
          else ret tt) ;;;
         ret retval
       else ret data) ;;
    r <- deref_res res ;;
    put_res (res_with_crc (crcu16 (u16 retval) (crc r)) r) ;;;
    let retval := Z.land retval 127 in
    store_data16 pdata
      (s16 (Z.lor (Z.lor (Z.land data 65280) 128) retval)) ;;;
    ret retval.

Definition cmp_complex : list_cmp := fun a b res =>
  val1 <- calc_func a res ;;
  val2 <- calc_func b res ;;
  ret (s32 (val1 - val2)).

(** ** List benchmark orchestrator (core_bench_list) *)

(** [node->info->data16] *)
Definition node_data16 (p : ptr) : M Z :=
  i <- load_info p ;; load_data16 i.

(** The search loop [for (i = 0; i < find_num; i++)], [n] iterations
    left; carries [list], [info.idx], [retval], [found], [missed]. *)
Fixpoint bench_find_loop (n : nat) (i : Z) (lst : ptr) (info_idx : Z)
    (retval found missed : Z) : M (ptr * Z * Z * Z * Z) :=
  match n with
  | O => ret (lst, info_idx, retval, found, missed)
  | S n' =>
    let info := mk_data (Z.land i 255) info_idx in
    this_find <- core_list_find fuel lst info ;;
    lst <- core_list_reverse fuel lst ;;
    st <-
      match this_find with
      | None =>
        nx <- load_next lst ;;
        d <- node_data16 nx ;;
        ret (u16 (retval + Z.land (Z.shiftr d 8) 1), found, u16 (missed + 1))
      | Some _ =>
        d <- node_data16 this_find ;;
        retval <-
          (if negb (Z.land d 1 =? 0) then
             d <- node_data16 this_find ;;
             ret (u16 (retval + Z.land (Z.shiftr d 9) 1))
           else ret retval) ;;
        tn <- load_next this_find ;;
        match tn with
        | Some _ =>
          let finder := tn in
          fn <- load_next finder ;;
          store_next this_find fn ;;;
          ln <- load_next lst ;;
          store_next finder ln ;;;
          store_next lst finder
        | None => ret tt
        end ;;;
        ret (retval, u16 (found + 1), missed)
      end ;;
    let '(retval, found, missed) := st in
    let info_idx := if 0 <=? info_idx then s16 (info_idx + 1) else info_idx in
    bench_find_loop n' (s16 (i + 1)) lst info_idx retval found missed
  end.

(** [while (finder) { retval = crc16(list->info->data16, retval);
    finder = finder->next; }] *)
Fixpoint crc_scan (fuel : nat) (lst finder : ptr) (retval : Z) : M Z :=
  match fuel with
  | O => timeout
  | S f =>
    match finder with
    | None => ret retval
    | Some _ =>
      d <- node_data16 lst ;;
      let retval := crc16 d retval in
      finder <- load_next finder ;;
      crc_scan f lst finder retval
    end
  end.

Definition core_bench_list (res : res_ptr) (finder_idx : Z) : M Z :=
  r <- deref_res res ;;
  let lst := res_list r in
  let find_num := seed3 r in
  st <- bench_find_loop (Z.to_nat find_num) 0 lst finder_idx 0 0 0 ;;
  let '(lst, info_idx, retval, found, missed) := st in
  let info := mk_data (Z.land (find_num - 1) 255) info_idx in
  let retval := u16 (retval + (found * 4 - missed)) in
  lst <-
    (if 0 <? finder_idx then core_list_mergesort fuel lst cmp_complex res
     else ret lst) ;;
  ln <- load_next lst ;;
  remover <- core_list_remove ln ;;
  finder <- core_list_find fuel lst info ;;
  finder <-
    match finder with
    | None => load_next lst
    | Some _ => ret finder
    end ;;
  retval <- crc_scan fuel lst finder retval ;;
  ln <- load_next lst ;;
  remover <- core_list_undo_remove remover ln ;;
  lst <- core_list_mergesort fuel lst cmp_idx RES_NULL ;;
  finder <- load_next lst ;;
  retval <- crc_scan fuel lst finder retval ;;
  ret retval.

(** ** Driver (core_main.c): initialisation and [iterate] *)

Fixpoint iterate_loop (n : nat) (i : Z) : M unit :=
  match n with
  | O => ret tt
  | S n' =>
    c <- core_bench_list RES_CTX 1 ;;
    r <- get_res ;;
    put_res (res_with_crc (crcu16 c (crc r)) r) ;;;
    c <- core_bench_list RES_CTX (-1) ;;
    r <- get_res ;;
    put_res (res_with_crc (crcu16 c (crc r)) r) ;;;
    (if i =? 0 then
       r <- get_res ;; put_res (res_with_crclist (crc r) r)
     else ret tt) ;;;
    iterate_loop n' (u32 (i + 1))
  end.

Definition iterate (iterations : Z) : M unit :=
  r <- get_res ;;
  put_res (res_with_crcstate 0 (res_with_crcmatrix 0
            (res_with_crclist 0 (res_with_crc 0 r)))) ;;;
  iterate_loop (Z.to_nat iterations) 0.

(** The "call inits" part of [main] for one context running all three
    algorithms, [size] bytes each. *)
Definition main_init (sizeof_list_data : Z) (s1 s2 s3 : Z) (sz : Z)
    : M unit :=
  lst <- core_list_init fuel sizeof_list_data sz 0 s1 ;;
  let '(N, A, B) :=
    core_init_matrix matrix_clip fuel sz
      (Z.lor (s32 s1) (s32 (Z.shiftl s2 16))) in
  buf <- lift_option (core_init_state fuel sz s1) ;;
  put_res (mk_results s1 s2 s3 sz 0 0 0 0 N A B ∅ buf lst).
End Bench.

(** ** The configurations of core_matrix.c and a whole run *)

(** The [#else] branch of [#ifndef HAS_FLOAT]: both macros are the
    identity. *)
Definition matrix_clip_float (x y : Z) : Z := x.
Definition matrix_big_float (x : Z) : Z := x.

(** The [#ifndef HAS_FLOAT] branch,
    [((y) ? (x)&0x0ff : (x)&0x0ffff)] and [(0xf000 | (x))]; the source
    has the ill-formed [(()x)] for the first [(x)]. *)
Definition matrix_clip_int (x y : Z) : Z :=
  if y =? 0 then Z.land x 65535 else Z.land x 255.
Definition matrix_big_int (x : Z) : Z := Z.lor 61440 x.

(** The value a computation returns, when it returns. *)
Definition run_value {A} (c : M A) (m : mem) : option A :=
  match c m with Ok (a, _) => Some a | _ => None end.

(** [main] for one context, all three algorithms, [size] bytes each and
    records of [sizeof_list_data] bytes, followed by [iterate] for one
    iteration: the resulting [crclist], [crcmatrix] and [crcstate]. *)
Definition first_iteration_crcs (matrix_clip : Z -> Z -> Z)
    (matrix_big : Z -> Z) (sizeof_list_data s1 s2 s3 sz : Z)
    : option (Z * Z * Z) :=
  run_value (main_init matrix_clip 3000 sizeof_list_data s1 s2 s3 sz ;;;
             iterate matrix_big 3000 1 ;;;
             r <- get_res ;;
             ret (crclist r, crcmatrix r, crcstate r)) empty_mem.

(** The checksums [main] expects for its five standard configurations
    ([known_id] 0 to 4): 2000 bytes per algorithm with the performance
    and the validation seeds, the profile run, and 666 bytes per
    algorithm with the performance and the validation seeds. *)
Definition list_known_crc : list Z :=
  [0xd4b0; 0x3340; 0x6a79; 0xe714; 0xe3c1].


(** ** Reading a list back *)

(** The record a node owns, as a total function. *)
Definition node_rec (m : mem) (x : Z) : list_data :=
  default (mk_data 0 0) (node_data m x).



(** ** Seed arguments (core_util.c, [SEED_METHOD == SEED_ARG]) *)

(** A C string is the list of its characters before the terminating
    NUL; [valstring++] drops the head and [*valstring] past the end is
    the NUL. *)
Definition deref (valstring : list Z) : Z := hd 0 valstring.

(** [while ('0' <= *valstring <= '9') { retval = retval * 10 + digit; }],
    on ee_s32. *)
Fixpoint parseval_dec (valstring : list Z) (retval : Z) : Z * list Z :=
  match valstring with
  | c :: rest =>
    if (48 <=? c) && (c <=? 57) then
      let digit := c - 48 in
      parseval_dec rest (s32 (s32 (retval * 10) + digit))
    else (retval, valstring)
  | [] => (retval, valstring)
  end.

(** The hexadecimal loop: digits and the lower-case letters a to f. *)
Fixpoint parseval_hex (valstring : list Z) (retval : Z) : Z * list Z :=
  match valstring with
  | c :: rest =>
    if ((48 <=? c) && (c <=? 57)) || ((97 <=? c) && (c <=? 102)) then
      let digit := c - 48 in
      let digit := if 9 <? digit then 10 + c - 97 else digit in
      parseval_hex rest (s32 (s32 (retval * 16) + digit))
    else (retval, valstring)
  | [] => (retval, valstring)
  end.

Definition parseval (valstring : list Z) : Z :=
  let '(neg, valstring) :=
    if deref valstring =? 45 then (-1, tl valstring) else (1, valstring) in
  let '(hexmode, valstring) :=
    if (deref valstring =? 48) && (deref (tl valstring) =? 120)
    then (true, tl (tl valstring)) else (false, valstring) in
  let '(retval, valstring) :=
    if hexmode then parseval_hex valstring 0 else parseval_dec valstring 0 in
  let retval := if deref valstring =? 75 then s32 (retval * 1024) else retval in
  let retval :=
    if deref valstring =? 77 then s32 (retval * (1024 * 1024)) else retval in
  s32 (retval * neg).

(** [get_seed_args]: the [i]-th argument parsed, 0 when there is none. *)
Definition get_seed_args (i argc : Z) (argv : list (list Z)) : Z :=
  if i <? argc then parseval (argv !!! Z.to_nat i) else 0.

(** * Specification vocabulary *)

(** ** Chains: the list segment a pointer denotes *)

(** [lseg nx p l q]: following [next] from [p] visits exactly the nodes
    [l] and then reaches [q]. *)
Fixpoint lseg (nx : gmap Z ptr) (p : ptr) (l : list Z) (q : ptr) : Prop :=
  match l with
  | [] => p = q
  | x :: l' => p = Some x /\ exists n, nx !! x = Some n /\ lseg nx n l' q
  end.

(** A NULL-terminated list. *)
Definition chain (nx : gmap Z ptr) (p : ptr) (l : list Z) : Prop :=
  lseg nx p l None.

(** ** Searching *)

(** The predicate [core_list_find] tests on a node: by rank when the
    criteria's [idx] is non-negative, else by the low byte of [data16]
    against the criteria's [data16]. *)
Definition find_pred (m : mem) (info : list_data) (x : Z) : bool :=
  match node_data m x with
  | Some d =>
    if 0 <=? d_idx info then d_idx d =? d_idx info
    else Z.land (d_data16 d) 255 =? d_data16 info
  | None => false
  end.

(** The nodes a forward scan for [P] looks at: up to and including the
    first match. *)
Fixpoint visited (P : Z -> bool) (l : list Z) : list Z :=
  match l with
  | [] => []
  | x :: l' => x :: (if P x then [] else visited P l')
  end.

(** ** Runs and their bottom-up merging *)

Section Runs.
Context (R : relation Z) `{!forall x y, Decision (R x y)}.

(** What one pass computes: consecutive runs merged two by two. *)
Fixpoint merge_pairs (rs : list (list Z)) : list (list Z) :=
  match rs with
  | [] => []
  | r1 :: rest =>
    match rest with
    | [] => [r1]
    | r2 :: rest' => list_merge R r1 r2 :: merge_pairs rest'
    end
  end.

(** The list is cut into runs of length [s], the last one possibly
    shorter but not empty. *)
Fixpoint runs_ok (s : nat) (rs : list (list Z)) : Prop :=
  match rs with
  | [] => True
  | r :: rest =>
    match rest with
    | [] => (1 <= length r <= s)%nat
    | _ :: _ => length r = s /\ runs_ok s rest
    end
  end.

(** Elements equivalent to [x] for the preorder. *)
Definition eqv (x y : Z) : Prop := R x y /\ R y x.

(** What the whole sort computes from the runs at the start of a
    pass. *)
Fixpoint sort_runs (fuel : nat) (rs : list (list Z)) : list Z :=
  match fuel with
  | O => concat rs
  | S f =>
    let rs' := merge_pairs rs in
    if bool_decide (length rs' <= 1)%nat then concat rs'
    else sort_runs f rs'
  end.

End Runs.

(** The list being appended to: [tail] is its last node, whose [next] is
    not linked yet; the nodes before it are linked from [lst]. *)
Definition out_inv (nx : gmap Z ptr) (lst tail : ptr) (O : list Z) : Prop :=
  match tail with
  | None => O = []
  | Some t => exists O', O = O' ++ [t] /\ lseg nx lst O' (Some t)
  end.

(** "Not greater" for a three-way comparison of nodes. *)
Definition cmp_le (cn : Z -> Z -> Z) (x y : Z) : Prop := cn x y <= 0.
#[global] Instance cmp_le_dec cn x y : Decision (cmp_le cn x y).
Proof. unfold cmp_le. apply _. Defined.

(** A three-way comparator of a total (pre)order: swapping the arguments
    flips the sign, and "not greater" is transitive. *)
Record total_order_cmp (c : list_data -> list_data -> Z) : Prop := {
  cmp_antisym : forall a b, Z.sgn (c b a) = - Z.sgn (c a b);
  cmp_trans : forall a b d, c a b <= 0 -> c b d <= 0 -> c a d <= 0
}.

(** ** The memory the list builder leaves *)

(** The data pattern of the [i]-th inserted node. *)
Definition init_data16 (seed i : Z) : Z :=
  let datpat := Z.land (u16 (Z.lxor seed i)) 15 in
  let dat := u16 (Z.lor (Z.shiftl datpat 3) (Z.land i 7)) in
  s16 (Z.lor (Z.shiftl dat 8) dat).

(** The rank the index walk gives to the node at position [i] (counted
    from 1 after the head). *)
Definition init_rank (size seed i : Z) : Z :=
  if i <? size / 5 then s16 i
  else Z.land 16383
         (Z.lor (Z.shiftl (Z.land (i + 1) 7) 8) (u16 (Z.lxor i seed))).

Section BuilderState.
Variable b : Z.        (* memblock *)
Variable n : Z.        (* size *)
Variable seed : Z.

(** The memory once [k] interior nodes are inserted: nodes [b] (head),
    [b+1] (tail) and [b+2 .. b+k+1], node [b+j] owning record
    [b+n+j]. *)
Record filled (k : Z) (idxf : Z -> Z) (m : mem) : Prop := {
  f_head : m_next m !! b = Some (Some (b + k + 1));
  f_tail : m_next m !! (b + 1) = Some None;
  f_next : forall j, 2 <= j <= k + 1 ->
           m_next m !! (b + j) = Some (Some (b + j - 1));
  f_info : forall j, 0 <= j <= k + 1 -> m_info m !! (b + j) = Some (b + n + j);
  f_d0 : m_data16 m !! (b + n) = Some (-32640);
  f_d1 : m_data16 m !! (b + n + 1) = Some (-1);
  f_data : forall j, 2 <= j <= k + 1 ->
           m_data16 m !! (b + n + j) = Some (init_data16 seed (j - 2));
  f_i0 : m_idx m !! (b + n) = Some 0;
  f_i1 : m_idx m !! (b + n + 1) = Some 32767;
  f_idx : forall j, 2 <= j <= k + 1 -> m_idx m !! (b + n + j) = Some (idxf j)
}.

(** The interior nodes in chain order: [b+k+1], ..., [b+2]. *)
Definition interior (k : nat) : list Z :=
  map (fun j => b + 2 + Z.of_nat j) (reverse (seq 0 k)).

(** Ranks once the walk has passed the nodes above [b+j]. *)
Definition walked (k j : Z) (j' : Z) : Z :=
  if j <? j' then init_rank n seed (k + 2 - j') else 32767.

End BuilderState.

(** ** Sorting by rank *)

(** The comparison [cmp_idx] makes of two nodes. *)
Definition idx_cmp (m : mem) (x y : Z) : Z :=
  d_idx (node_rec m x) - d_idx (node_rec m y).

(** Every node of [L] owns a record whose data is already in
    regenerated form (low byte equal to the backup byte) and whose rank
    is an ee_s16. *)
Definition normalized (m : mem) (L : list Z) : Prop :=
  forall x, x ∈ L ->
    exists r, node_data m x = Some r
              /\ regen_data (d_data16 r) = d_data16 r
              /\ -32768 <= d_idx r < 32768.

(** ** The CRC as a polynomial division *)

(** One bit of the reflected CRC-16 with polynomial 0xA001 (CRC-16/ARC):
    shift right, and subtract the polynomial when a one fell out. *)
Definition crc16_arc_step (c : Z) : Z :=
  Z.lxor (Z.shiftr c 1) (if Z.odd c then 0xA001 else 0).

(** [f] holds of the [n] integers from [i] on. *)
Fixpoint all_from (n : nat) (i : Z) (f : Z -> bool) : bool :=
  match n with
  | O => true
  | S n' => f i && all_from n' (i + 1) f
  end.

(** ** Numbers on the command line *)

Definition is_dec_digit (c : Z) : bool := (48 <=? c) && (c <=? 57).
Definition is_hex_digit (c : Z) : bool :=
  ((48 <=? c) && (c <=? 57)) || ((97 <=? c) && (c <=? 102)).

(** The number a string of digits denotes in base [base]. *)
Definition digits_value (base : Z) (val : Z -> Z) (ds : list Z) : Z :=
  fold_left (fun a c => base * a + val c) ds 0.
Definition dec_val (c : Z) : Z := c - 48.
Definition hex_val (c : Z) : Z := if c <=? 57 then c - 48 else c - 87.

(** The multiplier a character after the digits stands for. *)
Definition qualifier (c : Z) : Z :=
  if c =? 75 then 1024 else if c =? 77 then 1048576 else 1.

(** ** The content comparator *)

(** A computation that writes nothing but the benchmark context. *)
Definition res_only {A} (c : M A) : Prop :=
  forall m a m', c m = Ok (a, m') -> exists r, m' = with_res r m.

(** Bit 7 of a [data16]: the "already computed" flag of [calc_func]. *)
Definition cached (d : Z) : bool := negb (u8 (Z.land (Z.shiftr d 7) 1) =? 0).

(** ** Matrix products *)

(** [f 0 + f 1 + ... + f (n - 1)] *)
Fixpoint sum_to (n : nat) (f : Z -> Z) : Z :=
  match n with
  | O => 0
  | S n' => sum_to n' f + f (Z.of_nat n')
  end.

(** ** Strings in the state machine's buffer *)

(** The bytes from [p] up to [z] are not NUL and the byte at [z] is:
    a C string of [z - p] characters starts at [p]. *)
Definition nul_at (buf : gmap Z Z) (p z : Z) : Prop :=
  p <= z /\ buf !!! z = 0 /\ forall k, p <= k < z -> buf !!! k <> 0.

(** The characters [w] lie in [buf] from address [p] on. *)
Definition holds (buf : gmap Z Z) (p : Z) (w : list Z) : Prop :=
  forall (i : nat) c, w !! i = Some c -> buf !!! (p + Z.of_nat i) = c.

(** [reaches buf n a b]: from configuration [a] the loop gets to
    configuration [b] in [n] iterations. *)
Definition reaches (buf : gmap Z Z) (n : nat)
    (a b : Z * CORE_STATE * list Z) : Prop :=
  forall fuel,
    core_state_transition_loop (n + fuel) buf (a.1.1) (a.1.2) (a.2)
    = core_state_transition_loop fuel buf (b.1.1) (b.1.2) (b.2).

(** ** Corruption passes of core_bench_state *)

(** The addresses the corruption loop visits: [p], [p + step], ...
    below [blksize]. *)
Definition visited_by (p step blksize k : Z) : Prop :=
  exists n, 0 <= n /\ k = p + n * step /\ k < blksize.

(** What one pass does to a visited byte. *)
Definition corrupt (seed b : Z) : Z :=
  if b =? 44 then b else Z.lxor b (u8 seed).

(** ** What a run leaves alone *)

(** The parameters of a run: what [main] sets up before [iterate] and
    the kernels are meant to only read. *)
Definition run_params (r : core_results)
    : Z * Z * Z * Z * Z * gmap Z Z * ptr :=
  (seed1 r, seed2 r, seed3 r, size r, mat_N r, mat_B r, res_list r).

(** A computation that, when it returns, has left the run parameters
    [p] and the ranks [ix] of the records as they were. *)
Definition keeps {A} (p : Z * Z * Z * Z * Z * gmap Z Z * ptr)
    (ix : gmap Z Z) (c : M A) : Prop :=
  forall m a m',
    run_params (m_res m) = p -> m_idx m = ix -> c m = Ok (a, m') ->
    run_params (m_res m') = p /\ m_idx m' = ix.

(** ** Concrete memories *)

(** A three-node list [10 -> 11 -> 12] with records at 20, 21, 22. *)
Definition mem3 : mem :=
  mk_mem {[ 10 := Some 11; 11 := Some 12; 12 := None ]}
         {[ 10 := 20; 11 := 21; 12 := 22 ]}
         {[ 20 := 257; 21 := 514; 22 := 771 ]}
         {[ 20 := 4; 21 := 5; 22 := 6 ]}
         empty_results.

(** Descending rank, as a comparison of records. *)
Definition by_idx_desc (a b : list_data) : Z := d_idx b - d_idx a.

(** A one-node list: node 5 with its record at 9. *)
Definition mem1 : mem :=
  mk_mem {[ 5 := None ]} {[ 5 := 9 ]} {[ 9 := 3 ]} {[ 9 := 1 ]}
         empty_results.

(** The memory [main] hands to [iterate]: 200 bytes per algorithm,
    4-byte records, seeds (0, 0, 1). *)
Definition mem_run : mem :=
  match main_init matrix_clip_int 300 4 0 0 1 200 empty_mem with
  | Ok (_, m) => m
  | _ => empty_mem
  end.

(** The bytes of ["12,-3.5e+7,9x"] and its terminating NUL. *)
Definition tokens : gmap Z Z :=
  list_to_map (zip (seqZ 0 14)
    [49; 50; 44; 45; 51; 46; 53; 101; 43; 55; 44; 57; 120; 0]).

(** A context with 2 x 2 matrices. *)
Definition mem_mat : mem :=
  with_res (mk_results 0 0 0 0 0 0 0 0 2
              {[ 0 := 1; 1 := 2; 2 := 3; 3 := 4 ]}
              {[ 0 := 5; 1 := 6; 2 := 7; 3 := 8 ]} ∅ ∅ None) mem3.

(** A 50-byte block as [core_init_state] fills it for seed 0. *)
Definition state_block : gmap Z Z := default ∅ (core_init_state 60 50 0).
Definition mem_state : mem :=
  with_res (res_with_memblock3 state_block empty_results) empty_mem.

(** * Properties *)

(** ** Reasoning about the monad and the memory *)

Lemma bind_ok {A B} (c : M A) (k : A -> M B) m a m' :
  c m = Ok (a, m') -> bind c k m = k a m'.
Proof. unfold bind. intros ->. reflexivity. Qed.

Lemma load_next_ok m a n :
  m_next m !! a = Some n -> load_next (Some a) m = Ok (n, m).
Proof. unfold load_next. intros ->. reflexivity. Qed.

Lemma load_info_ok m a i :
  m_info m !! a = Some i -> load_info (Some a) m = Ok (i, m).
Proof. unfold load_info. intros ->. reflexivity. Qed.

Lemma load_data16_ok m a v :
  m_data16 m !! a = Some v -> load_data16 a m = Ok (v, m).
Proof. unfold load_data16. intros ->. reflexivity. Qed.

Lemma load_idx_ok m a v :
  m_idx m !! a = Some v -> load_idx a m = Ok (v, m).
Proof. unfold load_idx. intros ->. reflexivity. Qed.

Lemma with_next_id m : with_next (m_next m) m = m.
Proof. destruct m; reflexivity. Qed.
Lemma with_info_id m : with_info (m_info m) m = m.
Proof. destruct m; reflexivity. Qed.
Lemma with_data16_id m : with_data16 (m_data16 m) m = m.
Proof. destruct m; reflexivity. Qed.
Lemma with_idx_id m : with_idx (m_idx m) m = m.
Proof. destruct m; reflexivity. Qed.

Lemma bind_assoc {A B C} (c : M A) (k : A -> M B) (k' : B -> M C) m :
  bind (bind c k) k' m = bind c (fun a => bind (k a) k') m.
Proof. unfold bind. destruct (c m) as [[a m']| |]; reflexivity. Qed.

Lemma bind_ret {A B} (a : A) (k : A -> M B) m : bind (ret a) k m = k a m.
Proof. reflexivity. Qed.

Ltac msimpl :=
  unfold with_next, with_info, with_data16, with_idx, with_res;
  cbn [m_next m_info m_data16 m_idx m_res].

(** Solve a lookup in a map after some inserts. *)
Ltac mlookup :=
  msimpl;
  first [ eassumption | simplify_map_eq; first [ reflexivity | eassumption ] ].

(** Run the next memory access of a monadic computation. *)
Ltac mstep :=
  first
    [ rewrite bind_assoc
    | erewrite (bind_ok (load_next _)) by (apply load_next_ok; mlookup)
    | erewrite (bind_ok (load_info _)) by (apply load_info_ok; mlookup)
    | erewrite (bind_ok (load_data16 _)) by (apply load_data16_ok; mlookup)
    | erewrite (bind_ok (load_idx _)) by (apply load_idx_ok; mlookup)
    | erewrite (bind_ok (store_next (Some _) _)) by reflexivity
    | erewrite (bind_ok (store_info (Some _) _)) by reflexivity
    | erewrite (bind_ok (store_data16 _ _)) by reflexivity
    | erewrite (bind_ok (store_idx _ _)) by reflexivity
    | rewrite bind_ret ];
  msimpl.

(** ** C10: allocation failure is atomic *)

(** The two capacity tests come first: when one of them fires nothing
    has been written yet. *)
Lemma insert_new_no_room insert_point info memblock datablock
    memblock_end datablock_end m :
  (memblock_end <=? memblock + 1) || (datablock_end <=? datablock + 1) = true ->
  core_list_insert_new insert_point info memblock datablock
    memblock_end datablock_end m
  = Ok ((None, memblock, datablock), m).
Proof.
  unfold core_list_insert_new.
  destruct (memblock_end <=? memblock + 1); [reflexivity |].
  destruct (datablock_end <=? datablock + 1); [reflexivity | discriminate].
Qed.

(** C10. When either cursor's next slot would reach the end of its
    region, [core_list_insert_new] returns NULL and leaves the memory
    (links, records) and both cursors exactly as they were. *)
Theorem insert_new_failure_atomic insert_point info memblock datablock
    memblock_end datablock_end m :
  memblock_end <= memblock + 1 \/ datablock_end <= datablock + 1 ->
  core_list_insert_new insert_point info memblock datablock
    memblock_end datablock_end m
  = Ok ((None, memblock, datablock), m).
Proof.
  intros Hcap. apply insert_new_no_room.
  apply orb_true_iff. rewrite !Z.leb_le. exact Hcap.
Qed.

Lemma insert_new_failure_atomic_witness :
  core_list_insert_new (Some 0) (mk_data 7 8) 4 9 5 10 empty_mem
  = Ok ((None, 4, 9), empty_mem).
Proof. apply insert_new_failure_atomic. left. lia. Defined.

(** ** C2: remove followed by undo *)

Lemma remove_undo_restores_mem m n s sn i j :
  m_next m !! n = Some (Some s) ->
  m_next m !! s = Some sn ->
  m_info m !! n = Some i ->
  m_info m !! s = Some j ->
  n <> s ->
  (removed <- core_list_remove (Some n) ;;
   core_list_undo_remove removed (Some n)) m = Ok (Some s, m).
Proof.
  destruct m as [nx inf d16 ix rs]; cbn.
  intros Hn Hs Hi Hj Hne.
  unfold core_list_remove, core_list_undo_remove.
  repeat mstep. unfold ret. do 2 f_equal.
  f_equal; apply map_eq; intros k;
    repeat (rewrite lookup_insert; case_decide); by subst.
Qed.

(** ** Chains *)

Lemma lseg_app nx p l1 l2 q :
  lseg nx p (l1 ++ l2) q <-> exists r, lseg nx p l1 r /\ lseg nx r l2 q.
Proof.
  revert p. induction l1 as [|x l1 IH]; intros p; cbn.
  - split; [intros H; exists p; auto | intros (r & -> & H); exact H].
  - split.
    + intros (-> & n & Hn & H). apply IH in H as (r & H1 & H2).
      exists r. split; [|exact H2]. split; [reflexivity|]. eauto.
    + intros (r & (-> & n & Hn & H1) & H2). split; [reflexivity|].
      exists n. split; [exact Hn|]. apply IH. eauto.
Qed.

Lemma lseg_snoc nx p l x q :
  lseg nx p (l ++ [x]) q <-> lseg nx p l (Some x) /\ nx !! x = Some q.
Proof.
  rewrite lseg_app. cbn. split.
  - intros (r & H1 & -> & n & Hn & ->). auto.
  - intros (H1 & Hx). exists (Some x). eauto.
Qed.

Lemma lseg_insert_ne nx p l q x v :
  x ∉ l -> lseg nx p l q -> lseg (<[x := v]> nx) p l q.
Proof.
  revert p. induction l as [|y l IH]; intros p Hx; cbn; [auto|].
  intros (-> & n & Hn & H). split; [reflexivity|]. exists n.
  apply not_elem_of_cons in Hx as [Hxy Hx].
  split; [by rewrite lookup_insert_ne | by apply IH].
Qed.

Lemma chain_functional nx p l1 l2 :
  chain nx p l1 -> chain nx p l2 -> l1 = l2.
Proof.
  unfold chain. revert p l2. induction l1 as [|x l1 IH]; intros p [|y l2]; cbn.
  - reflexivity.
  - intros -> (? & _); discriminate.
  - intros (-> & _) ?; discriminate.
  - intros (-> & n & Hn & H1) (Hy & n' & Hn' & H2).
    injection Hy as <-. rewrite Hn in Hn'. injection Hn' as <-.
    f_equal. eapply IH; eassumption.
Qed.

Lemma chain_NoDup nx p l : chain nx p l -> NoDup l.
Proof.
  revert p. induction l as [|x l IH]; intros p; [constructor|].
  intros Hc. pose proof Hc as (-> & n & Hn & H). constructor; [|by eapply IH].
  intros Hin. apply list_elem_of_split in Hin as (l1 & l2 & ->).
  apply lseg_app in H as (r & _ & H2).
  pose proof H2 as (-> & n' & Hn' & H3).
  assert (Heq : x :: l1 ++ x :: l2 = x :: l2)
    by (eapply chain_functional; [exact Hc | exact H2]).
  apply (f_equal length) in Heq. cbn in Heq. rewrite length_app in Heq.
  cbn in Heq. lia.
Qed.

(** The successor of a chain node is a chain node, different from it. *)
Lemma chain_successor nx p l x s :
  chain nx p l -> x ∈ l -> nx !! x = Some (Some s) ->
  s ∈ l /\ x <> s /\ is_Some (nx !! s).
Proof.
  intros Hc Hin Hx. pose proof (chain_NoDup _ _ _ Hc) as Hnd.
  apply list_elem_of_split in Hin as (l1 & l2 & ->).
  apply lseg_app in Hc as (r & _ & (_ & n & Hn & H2)).
  rewrite Hx in Hn. injection Hn as <-.
  destruct l2 as [|y l2]; cbn in H2; [discriminate|].
  destruct H2 as (Hy & n' & Hn' & _). injection Hy as <-.
  split; [set_solver|]. split; [|eauto].
  apply NoDup_app in Hnd as (_ & _ & Hnd). apply NoDup_cons in Hnd as [Hnd _].
  intros ->. apply Hnd. left.
Qed.


(** C2. For a list [l] from [head] and a node [n] of it that has a
    successor [s], [core_list_undo_remove(core_list_remove(n), n)]
    returns [s] and leaves the memory as it was: the chain from [head]
    is again [l], and the per-node records [(idx, data16)] are the same
    sequence as before the remove. *)
Theorem remove_undo_exact m head l n s :
  chain (m_next m) head l ->
  (forall x, x ∈ l -> is_Some (m_info m !! x)) ->
  n ∈ l ->
  m_next m !! n = Some (Some s) ->
  exists m',
    (removed <- core_list_remove (Some n) ;;
     core_list_undo_remove removed (Some n)) m = Ok (Some s, m')
    /\ chain (m_next m') head l
    /\ map (node_data m') l = map (node_data m) l
    /\ m' = m.
Proof.
  intros Hc Hinfo Hn Hs.
  destruct (chain_successor _ _ _ _ _ Hc Hn Hs) as (Hsl & Hne & [sn Hsn]).
  destruct (Hinfo n Hn) as [i Hi]. destruct (Hinfo s Hsl) as [j Hj].
  exists m. split; [|auto].
  eapply remove_undo_restores_mem; eassumption.
Qed.

(** ** C6: find *)

Lemma visited_prefix P l : visited P l `prefix_of` l.
Proof.
  induction l as [|x l IH]; cbn; [reflexivity|].
  destruct (P x); [|by apply prefix_cons].
  exists l. reflexivity.
Qed.

Lemma node_data_Some m x :
  is_Some (node_data m x) ->
  exists i d v, m_info m !! x = Some i /\ m_data16 m !! i = Some d
                /\ m_idx m !! i = Some v /\ node_data m x = Some (mk_data d v).
Proof.
  unfold node_data. intros [r Hr].
  destruct (m_info m !! x) as [i|] eqn:Hi; [|discriminate].
  destruct (m_data16 m !! i) as [d|] eqn:Hd; [|discriminate].
  destruct (m_idx m !! i) as [v|] eqn:Hv; [|discriminate].
  exists i, d, v. by rewrite Hd, Hv.
Qed.

Lemma find_idx_loop_ok fuel m p l key dk seen :
  chain (m_next m) p l ->
  (forall x, x ∈ l -> is_Some (node_data m x)) ->
  (length l < fuel)%nat ->
  0 <= key ->
  find_idx_loop fuel p key seen m
  = Ok ((find (find_pred m (mk_data dk key)) l,
         seen ++ visited (find_pred m (mk_data dk key)) l), m).
Proof.
  intros Hc Hd Hlen Hkey. revert p l seen Hc Hd Hlen.
  induction fuel as [|f IH]; intros p l seen Hc Hd Hlen; [lia|].
  destruct l as [|x l]; cbn in Hc.
  - subst p. cbn. by rewrite app_nil_r.
  - destruct Hc as (-> & n & Hn & Hc).
    destruct (node_data_Some m x) as (i & d & v & Hi & Hdd & Hv & Hnd);
      [apply Hd; left|].
    cbn [find_idx_loop find visited]. unfold find_pred at 1 3. rewrite Hnd.
    cbn [d_idx d_data16]. replace (0 <=? key) with true by (symmetry; lia).
    do 2 mstep. destruct (v =? key) eqn:E.
    + reflexivity.
    + mstep. rewrite IH with (l := l); [by rewrite <- app_assoc| done | |].
      * intros y Hy. apply Hd. by right.
      * cbn in Hlen. lia.
Qed.

Lemma find_data_loop_ok fuel m p l key ik seen :
  chain (m_next m) p l ->
  (forall x, x ∈ l -> is_Some (node_data m x)) ->
  (length l < fuel)%nat ->
  ik < 0 ->
  find_data_loop fuel p key seen m
  = Ok ((find (find_pred m (mk_data key ik)) l,
         seen ++ visited (find_pred m (mk_data key ik)) l), m).
Proof.
  intros Hc Hd Hlen Hkey. revert p l seen Hc Hd Hlen.
  induction fuel as [|f IH]; intros p l seen Hc Hd Hlen; [lia|].
  destruct l as [|x l]; cbn in Hc.
  - subst p. cbn. by rewrite app_nil_r.
  - destruct Hc as (-> & n & Hn & Hc).
    destruct (node_data_Some m x) as (i & d & v & Hi & Hdd & Hv & Hnd);
      [apply Hd; left|].
    cbn [find_data_loop find visited]. unfold find_pred at 1 3. rewrite Hnd.
    cbn [d_idx d_data16]. replace (0 <=? ik) with false by (symmetry; lia).
    do 2 mstep. destruct (Z.land d 255 =? key) eqn:E.
    + reflexivity.
    + mstep. rewrite IH with (l := l); [by rewrite <- app_assoc| done | |].
      * intros y Hy. apply Hd. by right.
      * cbn in Hlen. lia.
Qed.

(** C6. On a list [l] whose nodes all own a record, [core_list_find]
    returns the first node of [l] satisfying the criteria's predicate
    (rank equality when the criteria's idx is non-negative, low data16
    byte equal to the criteria's data16 otherwise); it returns NULL
    exactly when no node of [l] satisfies it; it leaves the memory
    unchanged; and the nodes it visits form a duplicate-free prefix of
    the chain, so every node is visited at most once. *)
Theorem core_list_find_spec fuel m lst l info :
  chain (m_next m) lst l ->
  (forall x, x ∈ l -> is_Some (node_data m x)) ->
  (length l < fuel)%nat ->
  exists seen,
    core_list_find_trace fuel lst info m
      = Ok ((find (find_pred m info) l, seen), m)
    /\ core_list_find fuel lst info m = Ok (find (find_pred m info) l, m)
    /\ (find (find_pred m info) l = None
        <-> forall x, x ∈ l -> find_pred m info x = false)
    /\ seen `prefix_of` l /\ NoDup seen.
Proof.
  intros Hc Hd Hlen. destruct info as [dk ik].
  exists (visited (find_pred m (mk_data dk ik)) l).
  assert (Hrun : core_list_find_trace fuel lst (mk_data dk ik) m
                 = Ok ((find (find_pred m (mk_data dk ik)) l,
                        visited (find_pred m (mk_data dk ik)) l), m)).
  { unfold core_list_find_trace. cbn [d_idx d_data16].
    destruct (0 <=? ik) eqn:E.
    - erewrite find_idx_loop_ok; eauto. lia.
    - erewrite find_data_loop_ok; eauto. lia. }
  split; [exact Hrun|]. split.
  { unfold core_list_find. erewrite bind_ok by exact Hrun. reflexivity. }
  split.
  { split.
    - intros Hnone x Hx. apply list_elem_of_In in Hx.
      exact (find_none _ _ Hnone x Hx).
    - intros Hall. destruct (find _ l) as [x|] eqn:E; [|reflexivity].
      apply find_some in E as [Hin Hp]. apply list_elem_of_In in Hin.
      rewrite (Hall x Hin) in Hp. discriminate. }
  split; [apply visited_prefix|].
  destruct (visited_prefix (find_pred m (mk_data dk ik)) l) as [k Hk].
  pose proof (chain_NoDup _ _ _ Hc) as Hnd. rewrite Hk in Hnd.
  by apply NoDup_app in Hnd as (? & _).
Qed.

(** ** C9: the CRC scans fold the head's data *)


(** ** Bottom-up merging of runs (pure part) *)

Lemma filter_none {A} (P : A -> Prop) `{!forall x, Decision (P x)} (l : list A) :
  (forall y, y ∈ l -> ~ P y) -> filter P l = [].
Proof.
  induction l as [|a l IH]; intros Hl; [done|].
  rewrite filter_cons_False by (apply Hl; left).
  apply IH. intros y Hy. apply Hl. by right.
Qed.

Section RunsFacts.
Context (R : relation Z) `{!forall x y, Decision (R x y)}.

(** Induction two runs at a time. *)
Lemma pairs_ind (P : list (list Z) -> Prop) :
  P [] -> (forall r, P [r]) ->
  (forall r1 r2 rest, P rest -> P (r1 :: r2 :: rest)) ->
  forall rs, P rs.
Proof.
  intros H0 H1 H2 rs.
  assert (Hboth : P rs /\ forall r, P (r :: rs)).
  { induction rs as [|r rs [IHa IHb]]; [auto|]. split; [apply IHb|].
    intros r'. apply H2, IHa. }
  apply Hboth.
Qed.

Lemma list_merge_length l1 l2 :
  length (list_merge R l1 l2) = (length l1 + length l2)%nat.
Proof. by rewrite merge_Permutation, length_app. Qed.

Lemma merge_pairs_perm rs : concat (merge_pairs R rs) ≡ₚ concat rs.
Proof.
  induction rs as [| r | r1 r2 rest IH] using pairs_ind; [done..|].
  cbn. rewrite merge_Permutation, IH. by rewrite <- app_assoc.
Qed.

Lemma merge_pairs_length rs :
  (length (merge_pairs R rs) <= length rs)%nat
  /\ ((2 <= length rs)%nat -> (length (merge_pairs R rs) < length rs)%nat)
  /\ ((3 <= length rs)%nat -> (2 <= length (merge_pairs R rs))%nat)
  /\ ((length rs <= 2)%nat -> (length (merge_pairs R rs) <= 1)%nat)
  /\ (rs <> [] -> merge_pairs R rs <> []).
Proof.
  induction rs as [| r | r1 r2 rest IH] using pairs_ind; cbn.
  - repeat split; (lia || done).
  - repeat split; (lia || done).
  - destruct IH as (IH1 & IH2 & IH3 & IH4 & IH5).
    repeat split; try (lia || done).
    intros Hlen. destruct rest as [|r3 rest]; [cbn in Hlen; lia|].
    assert (merge_pairs R (r3 :: rest) <> []) by (apply IH5; done).
    destruct (merge_pairs R (r3 :: rest)); [done | cbn; lia].
Qed.

Lemma merge_pairs_cons r1 rest :
  merge_pairs R (r1 :: rest)
  = list_merge R r1 (hd [] rest) :: merge_pairs R (tl rest).
Proof. destruct rest; cbn; [by rewrite list_merge_nil_r | done]. Qed.

Lemma runs_ok_cons s r rest :
  runs_ok s (r :: rest) ->
  (1 <= s)%nat ->
  (1 <= length r <= s)%nat /\ (rest <> [] -> length r = s) /\ runs_ok s rest.
Proof.
  cbn. destruct rest as [|r' rest'].
  - intros Hr _. repeat split; (lia || done).
  - intros [Hr Hok] Hs. repeat split; (lia || done).
Qed.

Lemma runs_ok_hd s rest :
  runs_ok s rest -> (1 <= s)%nat ->
  (length (hd [] rest) <= s)%nat
  /\ (tl rest <> [] -> length (hd [] rest) = s)
  /\ runs_ok s (tl rest)
  /\ concat rest = hd [] rest ++ concat (tl rest).
Proof.
  intros Hok Hs. destruct rest as [|r rest']; cbn [hd tl concat].
  - cbn. repeat split; (lia || done).
  - destruct (runs_ok_cons _ _ _ Hok Hs) as (H1 & H2 & H3).
    repeat split; (lia || done).
Qed.

Lemma runs_ok_take_drop s r rest :
  runs_ok s (r :: rest) -> (1 <= s)%nat ->
  take s (concat (r :: rest)) = r /\ drop s (concat (r :: rest)) = concat rest
  /\ (s `min` length (concat (r :: rest)))%nat = length r.
Proof.
  intros Hok Hs. destruct (runs_ok_cons _ _ _ Hok Hs) as (H1 & H2 & _).
  cbn [concat]. destruct rest as [|r' rest'].
  - cbn [concat]. rewrite app_nil_r.
    rewrite take_ge, drop_ge by lia. repeat split; lia.
  - rewrite <- (H2 ltac:(done)).
    rewrite take_app_length, drop_app_length, length_app.
    repeat split; lia.
Qed.

Lemma runs_ok_singletons l : runs_ok 1 (map (fun x => [x]) l).
Proof.
  induction l as [|x l IH]; [done|]. cbn [map runs_ok].
  destruct l as [|y l]; cbn; [lia | auto].
Qed.

Lemma concat_singletons (l : list Z) : concat (map (fun x => [x]) l) = l.
Proof. induction l as [|x l IH]; [done|]. cbn. by rewrite IH. Qed.

Lemma runs_ok_merge_pairs s rs :
  runs_ok s rs -> runs_ok (2 * s) (merge_pairs R rs).
Proof.
  induction rs as [| r | r1 r2 rest IH] using pairs_ind; cbn; [done|lia|].
  intros [H1 H2]. destruct rest as [|r3 rest].
  - cbn. rewrite list_merge_length. lia.
  - destruct H2 as [H2 H3]. specialize (IH H3).
    assert (Hne : merge_pairs R (r3 :: rest) <> [])
      by (apply merge_pairs_length; done).
    destruct (merge_pairs R (r3 :: rest)) as [|m rest'] eqn:E; [done|].
    split; [rewrite list_merge_length; lia | exact IH].
Qed.

Lemma runs_ok_total_length s rs :
  runs_ok s rs -> (1 <= s)%nat ->
  (length rs <= length (concat rs))%nat
  /\ ((2 <= length rs)%nat ->
      ((length rs - 1) * s < length (concat rs))%nat).
Proof.
  intros Hok Hs. induction rs as [|r rest IH]; cbn; [lia|].
  rewrite length_app. cbn in Hok. destruct rest as [|r2 rest].
  - cbn. lia.
  - destruct Hok as [Hr Hok]. specialize (IH Hok). cbn [length] in *.
    destruct IH as [IH1 IH2]. split; [lia|]. intros _.
    destruct rest as [|r3 rest].
    + cbn in Hok. cbn. rewrite length_app. cbn. lia.
    + cbn [length] in *. nia.
Qed.

Lemma sorted_merge_pairs `{!Total R} rs :
  Forall (Sorted R) rs -> Forall (Sorted R) (merge_pairs R rs).
Proof.
  induction rs as [| r | r1 r2 rest IH] using pairs_ind; cbn; [done..|].
  intros Hall. apply Forall_cons in Hall as [H1 Hall].
  apply Forall_cons in Hall as [H2 Hall].
  constructor; [by apply Sorted_list_merge | by apply IH].
Qed.

Lemma list_merge_stable `{!Transitive R} x l1 l2 :
  StronglySorted R l1 ->
  filter (eqv R x) (list_merge R l1 l2) = filter (eqv R x) (l1 ++ l2).
Proof.
  revert l2. induction l1 as [|x1 l1 IH1]; intros l2 Hs.
  { by rewrite list_merge_nil_l. }
  induction l2 as [|x2 l2 IH2].
  { by rewrite list_merge_nil_r, app_nil_r. }
  rewrite list_merge_cons. apply StronglySorted_inv in Hs as [Hs Hx1].
  destruct (decide (R x1 x2)) as [Hle|Hnle].
  - cbn [app]. rewrite !filter_cons, IH1 by done. reflexivity.
  - rewrite filter_cons, IH2. rewrite !filter_app, (filter_cons _ x2).
    destruct (decide (eqv R x x2)) as [[Hxx2 Hx2x]|]; [|reflexivity].
    assert (Hnil : filter (eqv R x) (x1 :: l1) = []).
    { apply filter_none. intros y Hy [Hxy Hyx].
      apply Hnle. assert (R y x2) by (by transitivity x).
      apply elem_of_cons in Hy as [->|Hy]; [done|].
      transitivity y; [|done]. by eapply Forall_forall in Hx1. }
    rewrite Hnil. reflexivity.
Qed.

Lemma merge_pairs_stable `{!Transitive R} x rs :
  Forall (Sorted R) rs ->
  filter (eqv R x) (concat (merge_pairs R rs)) = filter (eqv R x) (concat rs).
Proof.
  induction rs as [| r | r1 r2 rest IH] using pairs_ind; cbn; [done..|].
  intros Hall. apply Forall_cons in Hall as [H1 Hall].
  apply Forall_cons in Hall as [H2 Hall].
  rewrite !filter_app, list_merge_stable, IH, filter_app
    by (done || by apply Sorted_StronglySorted).
  by rewrite <- app_assoc.
Qed.

Lemma sort_runs_perm fuel rs : sort_runs R fuel rs ≡ₚ concat rs.
Proof.
  revert rs. induction fuel as [|f IH]; intros rs; cbn; [done|].
  case_bool_decide; [|rewrite IH]; apply merge_pairs_perm.
Qed.

Lemma sort_runs_stable `{!Transitive R, !Total R} x fuel rs :
  Forall (Sorted R) rs ->
  filter (eqv R x) (sort_runs R fuel rs) = filter (eqv R x) (concat rs).
Proof.
  revert rs. induction fuel as [|f IH]; intros rs Hs; cbn; [done|].
  case_bool_decide; [|rewrite IH by (by apply sorted_merge_pairs)];
    by apply merge_pairs_stable.
Qed.

Lemma sort_runs_sorted `{!Total R} fuel rs :
  Forall (Sorted R) rs -> (length rs <= fuel)%nat -> rs <> [] ->
  Sorted R (sort_runs R fuel rs).
Proof.
  revert rs. induction fuel as [|f IH]; intros rs Hs Hlen Hne.
  { destruct rs; [done | cbn in Hlen; lia]. }
  cbn. pose proof (merge_pairs_length rs) as (L1 & L2 & L3 & L4 & L5).
  pose proof (sorted_merge_pairs rs Hs) as Hs'.
  case_bool_decide as Hle.
  - destruct (merge_pairs R rs) as [|r [|r' rest]]; cbn in *; [constructor| |lia].
    rewrite app_nil_r. by apply Forall_cons in Hs' as [? _].
  - apply IH; [done| |by apply L5].
    destruct (decide (2 <= length rs)%nat); [lia|].
    specialize (L4 ltac:(lia)). lia.
Qed.
End RunsFacts.

(** ** The merge sort on memory computes [sort_runs] *)

Lemma s32_id z : -2147483648 <= z < 2147483648 -> s32 z = z.
Proof. intros H. unfold s32. rewrite Z.mod_small; lia. Qed.

#[local] Set Warnings "-clear-no-such-hyp".

Section Refinement.
Variable m0 : mem.
Variable cmp : list_cmp.
Variable res : res_ptr.
Variable cn : Z -> Z -> Z.
Variable nodes : list Z.

(** On the nodes of the list the comparator behaves as the pure
    function [cn] of the two nodes, whatever the links are. *)
Hypothesis cmp_pure : forall nx x y,
  x ∈ nodes -> y ∈ nodes ->
  exists a b,
    m_info m0 !! x = Some a /\ m_info m0 !! y = Some b
    /\ cmp a b res (with_next nx m0) = Ok (cn x y, with_next nx m0).

Local Abbreviation cle := (cmp_le cn).

Lemma out_push nx lst tail O e :
  out_inv nx lst tail O -> NoDup (O ++ [e]) ->
  exists nx' lst',
    (match tail with
     | Some _ => store_next tail (Some e) ;;; ret lst
     | None => ret (Some e)
     end) (with_next nx m0) = Ok (lst', with_next nx' m0)
    /\ out_inv nx' lst' (Some e) (O ++ [e])
    /\ (forall l p q, (forall x, x ∈ l -> x ∉ O) ->
          lseg nx p l q -> lseg nx' p l q).
Proof.
  intros Hout Hnd. destruct tail as [t|]; cbn in Hout.
  - destruct Hout as (O' & -> & Hseg).
    exists (<[t := Some e]> nx), lst. split; [|split].
    + mstep. reflexivity.
    + exists (O' ++ [t]). split; [reflexivity|]. apply lseg_snoc.
      split; [|by rewrite lookup_insert_eq].
      apply lseg_insert_ne; [|exact Hseg].
      apply NoDup_app in Hnd as (Hnd & _ & _).
      apply NoDup_app in Hnd as (_ & Hnd & _).
      intros Hin. apply (Hnd t Hin). left.
    + intros l p q Hl Hseg'. apply lseg_insert_ne; [|exact Hseg'].
      intros Hin. apply (Hl t Hin). set_solver.
  - subst O. exists nx, (Some e). split; [reflexivity|]. split; [|auto].
    exists []. split; reflexivity.
Qed.

Lemma merge_loop_ok fuel : forall P Q nx O lst tail R p q pe psize qsize,
  (length P + length Q < fuel)%nat ->
  psize = Z.of_nat (length P) ->
  Z.of_nat (length Q) <= qsize ->
  (R <> [] -> qsize = Z.of_nat (length Q)) ->
  psize < 2147483648 -> qsize < 2147483648 ->
  lseg nx p P pe -> chain nx q (Q ++ R) ->
  out_inv nx lst tail O ->
  NoDup (O ++ P ++ Q ++ R) ->
  (forall x, x ∈ P ++ Q -> x ∈ nodes) ->
  exists nx' s',
    merge_loop fuel cmp res (mk_merge_st p q psize qsize lst tail)
      (with_next nx m0) = Ok (s', with_next nx' m0)
    /\ chain nx' (ms_q s') R
    /\ out_inv nx' (ms_list s') (ms_tail s') (O ++ list_merge cle P Q).
Proof.
  induction fuel as [|f IH];
    intros P Q nx O lst tail R p q pe psize qsize
      Hfuel Hps Hqs HqsR Hpb Hqb Hp Hq Hout Hnd Hnodes; [lia|].
  cbn [merge_loop].
  destruct P as [|x P]; [destruct Q as [|y Q] | destruct Q as [|y Q]].
  - (* both runs exhausted *)
    cbn [length] in *. cbn in Hq.
    replace (0 <? psize) with false by (symmetry; apply Z.ltb_ge; lia).
    assert (Hcond : (0 <? qsize) && bool_decide (is_Some q) = false).
    { destruct R as [|z R].
      - cbn in Hq. subst q. rewrite bool_decide_eq_false_2; [|by intros [? ?]].
        by rewrite andb_false_r.
      - rewrite HqsR by done. reflexivity. }
    cbn [orb]. rewrite Hcond.
    exists nx, (mk_merge_st p q psize qsize lst tail).
    split; [reflexivity|]. cbn. rewrite app_nil_r. auto.
  - (* left run exhausted: take from q *)
    cbn [length app] in *.
    destruct Hq as (-> & n & Hn & Hq).
    replace (0 <? psize) with false by (symmetry; apply Z.ltb_ge; lia).
    replace (0 <? qsize) with true by (symmetry; apply Z.ltb_lt; lia).
    rewrite bool_decide_eq_true_2 by eauto. cbn [orb andb].
    replace (psize =? 0) with true by (symmetry; apply Z.eqb_eq; lia).
    mstep. mstep. rewrite bind_ret.
    destruct (out_push nx lst tail O y Hout) as (nx' & lst' & Hst & Hout' & Hfr).
    { replace (O ++ y :: Q ++ R) with ((O ++ [y]) ++ Q ++ R) in Hnd
        by (by rewrite <- app_assoc).
      by apply NoDup_app in Hnd as (? & _). }
    erewrite bind_ok by exact Hst.
    rewrite s32_id by lia.
    destruct (IH [] Q nx' (O ++ [y]) lst' (Some y) R p n pe psize (qsize - 1))
      as (nx'' & s' & Hrun & Hq' & Hout''); try done.
    + cbn in *. lia.
    + lia.
    + intros HR. rewrite HqsR by done. lia.
    + lia.
    + apply Hfr; [|exact Hq]. intros z Hz HzO.
      apply NoDup_app in Hnd as (_ & Hnd & _). apply (Hnd z HzO). set_solver.
    + rewrite <- app_assoc. exact Hnd.
    + intros z Hz. apply Hnodes. set_solver.
    + exists nx'', s'. split; [exact Hrun|]. split; [exact Hq'|].
      rewrite list_merge_nil_l in *. by rewrite <- app_assoc in Hout''.
  - (* right run exhausted: take from p *)
    cbn [length app] in *. rewrite ?app_nil_l in *.
    destruct Hp as (-> & n & Hn & Hp).
    replace (0 <? psize) with true by (symmetry; apply Z.ltb_lt; lia).
    cbn [orb].
    replace (psize =? 0) with false by (symmetry; apply Z.eqb_neq; lia).
    assert (Hcond : (qsize =? 0) || bool_decide (q = None) = true).
    { destruct R as [|z R].
      - cbn in Hq. subst q. rewrite bool_decide_eq_true_2 by done.
        by rewrite orb_true_r.
      - rewrite HqsR by done. reflexivity. }
    rewrite Hcond.
    set (QQ := @nil Z) in *. set (qq := q) in *.
    mstep. mstep. rewrite bind_ret.
    destruct (out_push nx lst tail O x Hout) as (nx' & lst' & Hst & Hout' & Hfr).
    { apply NoDup_app in Hnd as (HO & Hdisj & Hrest).
      apply NoDup_app. split; [exact HO|]. split; [|apply NoDup_singleton].
      intros z Hz Hzy. apply (Hdisj z Hz). set_solver. }
    erewrite bind_ok by exact Hst.
    rewrite s32_id by lia.
    assert (HndO : forall z, z ∈ O -> z ∉ x :: P ++ QQ ++ R)
      by (by apply NoDup_app in Hnd as (_ & ? & _)).
    destruct (IH P QQ nx' (O ++ [x]) lst' (Some x) R n qq pe (psize - 1) qsize)
      as (nx'' & s' & Hrun & Hq' & Hout'').
    { subst QQ. cbn [length] in *. lia. }
    { lia. }
    { subst QQ. cbn [length] in *. lia. }
    { exact HqsR. }
    { lia. }
    { lia. }
    { apply Hfr; [|exact Hp]. intros z Hz HzO. apply (HndO z HzO). set_solver. }
    { apply Hfr; [|exact Hq]. intros z Hz HzO. apply (HndO z HzO). set_solver. }
    { exact Hout'. }
    { rewrite <- app_assoc. exact Hnd. }
    { intros z Hz. apply Hnodes. set_solver. }
    exists nx'', s'. split; [exact Hrun|]. split; [exact Hq'|].
    subst QQ. rewrite list_merge_nil_r in *. by rewrite <- app_assoc in Hout''.
  - (* both runs non-empty: compare *)
    cbn [length app] in *.
    destruct Hp as (-> & n & Hn & Hp).
    destruct Hq as (-> & ny & Hny & Hq).
    replace (0 <? psize) with true by (symmetry; apply Z.ltb_lt; lia).
    cbn [orb].
    replace (psize =? 0) with false by (symmetry; apply Z.eqb_neq; lia).
    replace (qsize =? 0) with false by (symmetry; apply Z.eqb_neq; lia).
    rewrite bool_decide_eq_false_2 by done. cbn [orb].
    destruct (cmp_pure nx x y) as (a & b & Ha & Hb & Hcmp);
      [apply Hnodes; set_solver..|].
    unfold with_next in Hcmp.
    repeat mstep. erewrite bind_ok by exact Hcmp.
    rewrite list_merge_cons.
    destruct (decide (cle x y)) as [Hle|Hnle].
    + replace (cn x y <=? 0) with true
        by (symmetry; apply Z.leb_le; exact Hle).
      set (QQ := y :: Q) in *. set (qq := Some y) in *.
      assert (Hq0 : chain nx qq (QQ ++ R)).
      { subst qq QQ. split; [reflexivity|]. eauto. }
      clear Hq. rename Hq0 into Hq.
      change (O ++ x :: P ++ y :: Q ++ R) with (O ++ x :: P ++ QQ ++ R) in Hnd.
      change (length QQ) with (S (length Q)) in *.
    mstep. mstep. rewrite bind_ret.
    destruct (out_push nx lst tail O x Hout) as (nx' & lst' & Hst & Hout' & Hfr).
    { apply NoDup_app in Hnd as (HO & Hdisj & Hrest).
      apply NoDup_app. split; [exact HO|]. split; [|apply NoDup_singleton].
      intros z Hz Hzy. apply (Hdisj z Hz). set_solver. }
    erewrite bind_ok by exact Hst.
    rewrite s32_id by lia.
    assert (HndO : forall z, z ∈ O -> z ∉ x :: P ++ QQ ++ R)
      by (by apply NoDup_app in Hnd as (_ & ? & _)).
    destruct (IH P QQ nx' (O ++ [x]) lst' (Some x) R n qq pe (psize - 1) qsize)
      as (nx'' & s' & Hrun & Hq' & Hout'').
    { subst QQ. cbn [length] in *. lia. }
    { lia. }
    { subst QQ. cbn [length] in *. lia. }
    { exact HqsR. }
    { lia. }
    { lia. }
    { apply Hfr; [|exact Hp]. intros z Hz HzO. apply (HndO z HzO). set_solver. }
    { apply Hfr; [|exact Hq]. intros z Hz HzO. apply (HndO z HzO). set_solver. }
    { exact Hout'. }
    { rewrite <- app_assoc. exact Hnd. }
    { intros z Hz. apply Hnodes. set_solver. }
      exists nx'', s'. split; [exact Hrun|]. split; [exact Hq'|].
      by rewrite <- app_assoc in Hout''.
    + replace (cn x y <=? 0) with false
        by (symmetry; apply Z.leb_gt; unfold cmp_le in Hnle; lia).
      set (PP := x :: P) in *. set (pp := Some x) in *.
      assert (Hp0 : lseg nx pp PP pe).
      { subst pp PP. split; [reflexivity|]. eauto. }
      clear Hp. rename Hp0 into Hp.
      change (O ++ x :: P ++ y :: Q ++ R) with (O ++ PP ++ y :: Q ++ R) in Hnd.
    mstep. mstep. rewrite bind_ret.
    destruct (out_push nx lst tail O y Hout) as (nx' & lst' & Hst & Hout' & Hfr).
    { apply NoDup_app in Hnd as (HO & Hdisj & Hrest).
      apply NoDup_app. split; [exact HO|]. split; [|apply NoDup_singleton].
      intros z Hz Hzy. apply (Hdisj z Hz). set_solver. }
    erewrite bind_ok by exact Hst.
    rewrite s32_id by lia.
    assert (HndO : forall z, z ∈ O -> z ∉ PP ++ y :: Q ++ R)
      by (by apply NoDup_app in Hnd as (_ & ? & _)).
    destruct (IH PP Q nx' (O ++ [y]) lst' (Some y) R pp ny pe psize (qsize - 1))
      as (nx'' & s' & Hrun & Hq' & Hout'').
    { subst PP. cbn [length] in *. lia. }
    { exact Hps. }
    { lia. }
    { intros HR. rewrite HqsR by done. lia. }
    { lia. }
    { lia. }
    { apply Hfr; [|exact Hp]. intros z Hz HzO. apply (HndO z HzO). set_solver. }
    { apply Hfr; [|exact Hq]. intros z Hz HzO. apply (HndO z HzO). set_solver. }
    { exact Hout'. }
    { rewrite <- app_assoc. cbn [app].
      rewrite (Permutation_middle PP (Q ++ R) y). exact Hnd. }
    { intros z Hz. apply Hnodes. set_solver. }
      exists nx'', s'. split; [exact Hrun|]. split; [exact Hq'|].
      by rewrite <- app_assoc in Hout''.
Qed.

Lemma step_q_ok n : forall nx L p psize,
  chain nx p L -> (n = O \/ L <> []) ->
  0 <= psize -> psize + Z.of_nat n < 2147483648 ->
  exists q,
    step_q n p psize (with_next nx m0)
    = Ok ((q, psize + Z.of_nat (n `min` length L)), with_next nx m0)
    /\ lseg nx p (take n L) q /\ chain nx q (drop n L).
Proof.
  induction n as [|n IH]; intros nx L p psize Hc Hn Hps Hb.
  { exists p. cbn [Nat.min Z.of_nat]. rewrite Z.add_0_r, take_0, drop_0.
    split; [reflexivity|]. split; [reflexivity | exact Hc]. }
  destruct Hn as [Hn|Hn]; [discriminate|].
  destruct L as [|x L]; [done|]. destruct Hc as (-> & nxt & Hx & Hc).
  cbn [step_q]. mstep. rewrite s32_id by lia.
  destruct nxt as [z|].
  - destruct (IH nx L (Some z) (psize + 1)) as (q & Hrun & Hseg & Hc');
      [exact Hc | | lia | lia |].
    { right. intros ->. cbn in Hc. done. }
    exists q. fold (with_next nx m0). rewrite Hrun. split; [|split].
    + do 3 f_equal. cbn [length]. lia.
    + cbn. split; [done|]. eauto.
    + exact Hc'.
  - destruct L as [|z L]; [|cbn in Hc; destruct Hc; done].
    exists None. split; [|split].
    + unfold ret. do 3 f_equal. cbn. lia.
    + cbn. rewrite take_nil. cbn. eauto.
    + cbn. by rewrite drop_nil.
Qed.

Lemma pass_loop_ok (s : nat) fuel : forall rs n nx O lst tail p nmerges,
  (1 <= s)%nat -> Z.of_nat s < 2147483648 ->
  runs_ok s rs ->
  (length rs < fuel)%nat -> (length (concat rs) < n)%nat ->
  chain nx p (concat rs) -> out_inv nx lst tail O ->
  NoDup (O ++ concat rs) ->
  (forall x, x ∈ concat rs -> x ∈ nodes) ->
  0 <= nmerges -> nmerges + Z.of_nat (length rs) < 2147483648 ->
  exists nx' lst' tail',
    pass_loop fuel n cmp res (Z.of_nat s) p lst tail nmerges
      (with_next nx m0)
    = Ok ((lst', tail',
           nmerges + Z.of_nat (length (merge_pairs cle rs))),
          with_next nx' m0)
    /\ out_inv nx' lst' tail' (O ++ concat (merge_pairs cle rs)).
Proof.
  induction fuel as [|f IH];
    intros rs n nx O lst tail p nmerges Hs Hsb Hok Hfuel Hn Hc Hout Hnd
      Hnodes Hnm Hnmb; [lia|].
  destruct rs as [|r1 rest].
  { cbn in Hc. subst p. exists nx, lst, tail. cbn.
    rewrite Z.add_0_r, app_nil_r. auto. }
  destruct (runs_ok_cons s r1 rest Hok Hs) as ((Hr1 & Hr1s) & _ & Hok').
  destruct (runs_ok_take_drop s r1 rest Hok Hs) as (Htake & Hdrop & Hmin).
  destruct (runs_ok_hd s rest Hok' Hs) as (HQ & HQs & Hok'' & Hrest).
  set (Q := hd [] rest) in *. set (rest' := tl rest) in *.
  assert (Hp : exists x, p = Some x).
  { cbn [concat] in Hc. destruct r1 as [|x r1]; [cbn in Hr1; lia|].
    destruct Hc as (-> & _). eauto. }
  destruct Hp as [x ->]. cbn [pass_loop]. rewrite Nat2Z.id.
  destruct (step_q_ok s nx (concat (r1 :: rest)) (Some x) 0 Hc)
    as (q & Hstep & Hseg & Hcq); [| lia | lia |].
  { right. cbn [concat]. destruct r1; [cbn in Hr1; lia | done]. }
  rewrite Htake in Hseg. rewrite Hdrop, Hrest in Hcq.
  rewrite Hmin, Z.add_0_l in Hstep.
  erewrite bind_ok by exact Hstep.
  rewrite s32_id by (cbn [length] in Hnmb; lia).
  cbn [concat] in Hnd, Hnodes, Hn. rewrite Hrest in Hnd, Hnodes, Hn.
  rewrite !length_app in Hn.
  destruct (merge_loop_ok n r1 Q nx O lst tail (concat rest') (Some x) q q
              (Z.of_nat (length r1)) (Z.of_nat s))
    as (nx1 & s1 & Hmerge & Hq1 & Hout1);
    [lia | done | lia | | lia | lia | done | done | done | done | |].
  { intros HR. rewrite HQs; [done|]. intros E. rewrite E in HR. done. }
  { intros z Hz. apply Hnodes. rewrite (assoc app), elem_of_app. auto. }
  erewrite bind_ok by exact Hmerge.
  destruct (IH rest' n nx1 (O ++ list_merge cle r1 Q) (ms_list s1)
              (ms_tail s1) (ms_q s1) (nmerges + 1))
    as (nx2 & lst2 & tail2 & Hrec & Hout2).
  { exact Hs. }
  { exact Hsb. }
  { exact Hok''. }
  { subst rest'. destruct rest; cbn [length tl] in *; lia. }
  { lia. }
  { exact Hq1. }
  { exact Hout1. }
  { rewrite <- app_assoc. rewrite merge_Permutation, <- app_assoc. exact Hnd. }
  { intros z Hz. apply Hnodes. rewrite !elem_of_app. auto. }
  { lia. }
  { clear -Hnmb. subst rest'. destruct rest; cbn [length tl] in *; lia. }
  exists nx2, lst2, tail2. rewrite Hrec. split.
  - rewrite merge_pairs_cons. cbn [length]. subst rest'. do 3 f_equal. lia.
  - rewrite merge_pairs_cons. cbn [concat].
    by rewrite <- app_assoc in Hout2.
Qed.

Lemma mergesort_pass_ok (s : nat) n rs nx lst :
  (1 <= s)%nat -> Z.of_nat s < 2147483648 ->
  runs_ok s rs -> rs <> [] ->
  (length (concat rs) < n)%nat ->
  Z.of_nat (length (concat rs)) < 2147483648 ->
  chain nx lst (concat rs) ->
  (forall x, x ∈ concat rs -> x ∈ nodes) ->
  exists nx' lst',
    mergesort_pass n cmp res (Z.of_nat s) lst (with_next nx m0)
    = Ok ((lst', Z.of_nat (length (merge_pairs cle rs))), with_next nx' m0)
    /\ chain nx' lst' (concat (merge_pairs cle rs)).
Proof.
  intros Hs Hsb Hok Hne Hn Hb Hc Hnodes.
  pose proof (runs_ok_total_length s rs Hok Hs) as [Hlen _].
  pose proof (chain_NoDup _ _ _ Hc) as Hnd.
  destruct (pass_loop_ok s n rs n nx [] None None lst 0)
    as (nx1 & lst1 & tail1 & Hrun & Hout);
    [done | done | done | lia | done | done | done | done | done | lia | lia |].
  unfold mergesort_pass. erewrite bind_ok by exact Hrun.
  rewrite Z.add_0_l, app_nil_l in *.
  assert (Hperm := merge_pairs_perm cle rs).
  destruct tail1 as [t|]; cbn in Hout.
  - destruct Hout as (O' & HO & Hseg). mstep.
    exists (<[t := None]> nx1), lst1. split; [reflexivity|].
    rewrite HO. apply lseg_snoc. split; [|by rewrite lookup_insert_eq].
    apply lseg_insert_ne; [|exact Hseg].
    rewrite <- Hperm, HO in Hnd. apply NoDup_app in Hnd as (_ & Hnd & _).
    intros Hin. apply (Hnd t Hin). left.
  - exfalso. rewrite Hout in Hperm. symmetry in Hperm.
    apply Permutation_nil_r in Hperm.
    destruct rs as [|r rest]; [done|]. cbn [concat length] in *.
    destruct (runs_ok_cons s r rest Hok Hs) as ((Hr & _) & _).
    destruct r; [cbn in Hr; lia | done].
Qed.

Lemma mergesort_loop_ok fuel : forall (s : nat) n rs nx lst,
  (1 <= s)%nat -> Z.of_nat s < 2147483648 ->
  runs_ok s rs -> rs <> [] ->
  (length rs <= fuel)%nat ->
  (length (concat rs) < n)%nat ->
  Z.of_nat (length (concat rs)) < 2147483648 ->
  chain nx lst (concat rs) ->
  (forall x, x ∈ concat rs -> x ∈ nodes) ->
  exists nx' lst',
    mergesort_loop fuel n cmp res (Z.of_nat s) lst (with_next nx m0)
    = Ok (lst', with_next nx' m0)
    /\ chain nx' lst' (sort_runs cle fuel rs).
Proof.
  induction fuel as [|f IH];
    intros s n rs nx lst Hs Hsb Hok Hne Hfuel Hn Hb Hc Hnodes.
  { destruct rs; [done | cbn in Hfuel; lia]. }
  destruct (mergesort_pass_ok s n rs nx lst) as (nx1 & lst1 & Hpass & Hc1);
    [done..|].
  cbn [mergesort_loop sort_runs]. erewrite bind_ok by exact Hpass.
  pose proof (merge_pairs_length cle rs) as (L1 & L2 & L3 & L4 & L5).
  assert (Hperm := merge_pairs_perm cle rs).
  case_bool_decide as Hle.
  - replace (_ <=? 1) with true by (symmetry; apply Z.leb_le; lia).
    exists nx1, lst1. split; [reflexivity | exact Hc1].
  - replace (_ <=? 1) with false by (symmetry; apply Z.leb_gt; lia).
    assert (Hlen3 : (3 <= length rs)%nat).
    { destruct (decide (length rs <= 2)%nat) as [H2|]; [|lia].
      specialize (L4 H2). lia. }
    pose proof (runs_ok_total_length s rs Hok Hs) as [_ Htot].
    specialize (Htot ltac:(lia)).
    assert (H2s : (2 * s < length (concat rs))%nat) by nia.
    rewrite s32_id by lia.
    replace (Z.of_nat s * 2) with (Z.of_nat (2 * s)) by lia.
    apply IH.
    + lia.
    + lia.
    + by apply runs_ok_merge_pairs.
    + by apply L5.
    + lia.
    + by rewrite Hperm.
    + by rewrite Hperm.
    + exact Hc1.
    + intros x Hx. apply Hnodes. by rewrite <- Hperm.
Qed.

(** On a non-empty list the sort returns, with enough fuel, the list
    that [sort_runs] computes from the singleton runs; only [next]
    fields change. *)
Lemma mergesort_refines fuel nx lst L :
  L <> [] -> chain nx lst L ->
  (length L < fuel)%nat -> Z.of_nat (length L) < 2147483648 ->
  (forall x, x ∈ L -> x ∈ nodes) ->
  exists nx' lst',
    core_list_mergesort fuel lst cmp res (with_next nx m0)
    = Ok (lst', with_next nx' m0)
    /\ chain nx' lst' (sort_runs cle fuel (map (fun x => [x]) L)).
Proof.
  intros Hne Hc Hfuel Hb Hnodes. unfold core_list_mergesort.
  apply (mergesort_loop_ok fuel 1 fuel (map (fun x => [x]) L)).
  - lia.
  - lia.
  - apply runs_ok_singletons.
  - destruct L; done.
  - rewrite length_map. lia.
  - by rewrite concat_singletons.
  - by rewrite concat_singletons.
  - by rewrite concat_singletons.
  - by rewrite concat_singletons.
Qed.
End Refinement.

(** ** C1 and C7: what the sort returns *)

(** C1, the empty list. [core_list_mergesort] on the NULL list does not
    return a list: the first pass leaves [tail] NULL and then executes
    [tail->next = NULL], whatever the comparator and the memory. *)
Theorem mergesort_empty_list_faults fuel cmp res m :
  core_list_mergesort (S fuel) None cmp res m = Fault.
Proof. reflexivity. Qed.

Lemma cmp_of_pure c m res nx x y :
  is_Some (node_data m x) -> is_Some (node_data m y) ->
  exists a b,
    m_info m !! x = Some a /\ m_info m !! y = Some b
    /\ cmp_of c a b res (with_next nx m)
       = Ok (c (node_rec m x) (node_rec m y), with_next nx m).
Proof.
  intros Hx Hy.
  destruct (node_data_Some m x Hx) as (a & da & ia & Ha & Hda & Hia & Hrx).
  destruct (node_data_Some m y Hy) as (b & db & ib & Hb & Hdb & Hib & Hry).
  exists a, b. split; [done|]. split; [done|].
  unfold node_rec. rewrite Hrx, Hry. cbn [default].
  unfold cmp_of. repeat mstep. reflexivity.
Qed.

(** The sort on non-empty lists for any comparator that acts on the
    nodes of the list as a pure three-way comparison [cn] inducing a
    total preorder: with enough fuel it returns a permutation of the
    nodes, sorted, equivalent nodes kept in their input order, and only
    [next] fields change. *)
Lemma mergesort_sorts_pure fuel m lst L (cmp : list_cmp) res cn :
  (forall nx x y, x ∈ L -> y ∈ L ->
     exists a b,
       m_info m !! x = Some a /\ m_info m !! y = Some b
       /\ cmp a b res (with_next nx m) = Ok (cn x y, with_next nx m)) ->
  Total (cmp_le cn) -> Transitive (cmp_le cn) ->
  chain (m_next m) lst L -> L <> [] ->
  (length L < fuel)%nat -> Z.of_nat (length L) < 2147483648 ->
  exists nx' lst' L',
    core_list_mergesort fuel lst cmp res m = Ok (lst', with_next nx' m)
    /\ chain nx' lst' L'
    /\ L' ≡ₚ L
    /\ StronglySorted (cmp_le cn) L'
    /\ forall x,
         filter (eqv (cmp_le cn) x) L' = filter (eqv (cmp_le cn) x) L.
Proof.
  intros Hpure Htot Htr Hc Hne Hfuel Hb.
  destruct (mergesort_refines m cmp res cn L Hpure fuel (m_next m) lst L)
    as (nx' & lst' & Hrun & Hc'); [done..|].
  rewrite with_next_id in Hrun.
  set (rs := map (fun x => [x]) L) in *.
  assert (Hsorted : Forall (Sorted (cmp_le cn)) rs).
  { subst rs. apply Forall_forall. intros r Hr.
    apply list_elem_of_fmap in Hr as (x & -> & _). repeat constructor. }
  exists nx', lst', (sort_runs (cmp_le cn) fuel rs).
  split; [exact Hrun|]. split; [exact Hc'|]. split; [|split].
  - rewrite sort_runs_perm. subst rs. by rewrite concat_singletons.
  - apply Sorted_StronglySorted; [exact Htr|].
    apply sort_runs_sorted; [done..| |].
    + subst rs. rewrite length_map. lia.
    + subst rs. destruct L; done.
  - intros x. rewrite sort_runs_stable by done.
    subst rs. by rewrite concat_singletons.
Qed.

(** X1. The sort on non-empty lists, for a side-effect free total-order
    comparator [c] on records: with enough fuel it returns a list of
    the same nodes (a permutation), sorted ascending, equal-comparing
    nodes in their input order; it changes [next] fields only. *)
Theorem core_list_mergesort_sorts fuel m lst L c res :
  total_order_cmp c ->
  chain (m_next m) lst L -> L <> [] ->
  (forall x, x ∈ L -> is_Some (node_data m x)) ->
  (length L < fuel)%nat -> Z.of_nat (length L) < 2147483648 ->
  exists nx' lst' L',
    core_list_mergesort fuel lst (cmp_of c) res m = Ok (lst', with_next nx' m)
    /\ chain nx' lst' L'
    /\ L' ≡ₚ L
    /\ StronglySorted (fun x y => c (node_rec m x) (node_rec m y) <= 0) L'
    /\ forall x,
         filter (fun y => c (node_rec m x) (node_rec m y) = 0) L'
         = filter (fun y => c (node_rec m x) (node_rec m y) = 0) L.
Proof.
  intros [Hanti Htrans] Hc Hne Hdata Hfuel Hb.
  set (cn := fun x y => c (node_rec m x) (node_rec m y)).
  destruct (mergesort_sorts_pure fuel m lst L (cmp_of c) res cn)
    as (nx' & lst' & L' & Hrun & Hc' & Hperm & Hsort & Hstable); try done.
  { intros nx x y Hx Hy. apply cmp_of_pure; by apply Hdata. }
  { intros x y. unfold cmp_le, cn.
    pose proof (Hanti (node_rec m x) (node_rec m y)). lia. }
  { intros x y z. unfold cmp_le, cn. apply Htrans. }
  exists nx', lst', L'. repeat split; try done.
  intros x.
  assert (Hiff : forall y,
    c (node_rec m x) (node_rec m y) = 0 <-> eqv (cmp_le cn) x y).
  { intros y. unfold eqv, cmp_le, cn.
    pose proof (Hanti (node_rec m x) (node_rec m y)). lia. }
  rewrite !(list_filter_iff _ _ _ Hiff). apply Hstable.
Qed.

(** C7 (as amended). On a single-element list the first pass counts one
    merge ([nmerges = 1], which ends the sort), never calls the
    comparator (the result is the same for every comparator), and the
    list is returned unchanged: same head, same memory. *)
Theorem mergesort_single_element fuel m lst x cmp res :
  chain (m_next m) lst [x] ->
  mergesort_pass (S (S fuel)) cmp res 1 lst m = Ok ((lst, 1), m)
  /\ core_list_mergesort (S (S fuel)) lst cmp res m = Ok (lst, m).
Proof.
  intros (-> & n & Hx & ->).
  assert (Hstep : step_q 1 (Some x) 0 m = Ok ((None, 1), m)).
  { cbn [step_q]. mstep. reflexivity. }
  assert (Hmerge : merge_loop (S (S fuel)) cmp res
                     (mk_merge_st (Some x) None 1 1 None None) m
                   = Ok (mk_merge_st None None 0 1 (Some x) (Some x), m)).
  { cbn [merge_loop]. change (0 <? 1) with true. cbn [orb].
    change (1 =? 0) with false. cbn iota.
    rewrite bool_decide_eq_true_2 by done. rewrite orb_true_r.
    repeat mstep. change (s32 (1 - 1)) with 0.
    change (0 <? 0) with false. rewrite bool_decide_eq_false_2 by (by intros [? ?]).
    rewrite andb_false_r. reflexivity. }
  assert (Hpass : mergesort_pass (S (S fuel)) cmp res 1 (Some x) m
                  = Ok ((Some x, 1), m)).
  { unfold mergesort_pass. cbn [pass_loop]. change (Z.to_nat 1) with 1%nat.
    rewrite ?bind_assoc. erewrite bind_ok by exact Hstep.
    cbv beta iota. rewrite ?bind_assoc. erewrite bind_ok by exact Hmerge.
    cbn [ms_q ms_list ms_tail]. rewrite bind_ret. mstep.
    rewrite insert_id by exact Hx. by destruct m. }
  split; [exact Hpass|].
  unfold core_list_mergesort. cbn [mergesort_loop].
  erewrite bind_ok by exact Hpass. reflexivity.
Qed.

(** The first pass over a one-node list counts one merge, not zero, and
    the sort of the empty list does not return. *)
Lemma mergesort_single_counts_one_merge :
  mergesort_pass 4 cmp_idx RES_NULL 1 (Some 5) mem1 = Ok ((Some 5, 1), mem1)
  /\ core_list_mergesort 4 None cmp_idx RES_NULL mem1 = Fault.
Proof. split; reflexivity. Qed.

(** ** The list builder, symbolically *)

Lemma land_16383_range x : 0 <= Z.land 16383 x < 16384.
Proof.
  rewrite Z.land_comm. change 16383 with (Z.ones 14).
  rewrite Z.land_ones by lia. apply Z.mod_pos_bound. lia.
Qed.

Lemma s16_id z : -32768 <= z < 32768 -> s16 z = z.
Proof. intros H. unfold s16. rewrite Z.mod_small; lia. Qed.

Section Builder.
Variable b : Z.        (* memblock *)
Variable n : Z.        (* size *)
Variable seed : Z.
Hypothesis n_range : 3 <= n < 4294967296.

Lemma insert_new_fills k m :
  0 <= k < n - 3 ->
  filled b n seed k (fun _ => 32767) m ->
  exists m',
    core_list_insert_new (Some b) (mk_data (init_data16 seed k) 32767)
      (b + 2 + k) (b + n + 2 + k) (b + n) (b + n + n) m
    = Ok ((Some (b + 2 + k), b + 2 + k + 1, b + n + 2 + k + 1), m')
    /\ filled b n seed (k + 1) (fun _ => 32767) m'.
Proof.
  intros Hk [Hh Ht Hn Hi Hd0 Hd1 Hd Hi0 Hi1 Hix].
  unfold core_list_insert_new.
  replace (b + n <=? b + 2 + k + 1) with false by (symmetry; lia).
  replace (b + n + n <=? b + n + 2 + k + 1) with false by (symmetry; lia).
  destruct m as [nx inf d16 ix rs]; cbn in *.
  unfold copy_info. repeat mstep. eexists. split; [reflexivity|].
  split; cbn.
  - rewrite lookup_insert_eq. do 2 f_equal. lia.
  - rewrite !lookup_insert_ne by lia. exact Ht.
  - intros j Hj. destruct (decide (j = k + 2)) as [->|Hne].
    + rewrite lookup_insert_ne by lia.
      replace (b + (k + 2)) with (b + 2 + k) by lia.
      rewrite lookup_insert_eq. do 2 f_equal. lia.
    + rewrite !lookup_insert_ne by lia. apply Hn. lia.
  - intros j Hj. destruct (decide (j = k + 2)) as [->|Hne].
    + replace (b + (k + 2)) with (b + 2 + k) by lia.
      rewrite lookup_insert_eq. f_equal. lia.
    + rewrite !lookup_insert_ne by lia. apply Hi. lia.
  - rewrite lookup_insert_ne by lia. exact Hd0.
  - rewrite lookup_insert_ne by lia. exact Hd1.
  - intros j Hj. destruct (decide (j = k + 2)) as [->|Hne].
    + replace (b + n + (k + 2)) with (b + n + 2 + k) by lia.
      rewrite lookup_insert_eq. do 2 f_equal. lia.
    + rewrite !lookup_insert_ne by lia. apply Hd. lia.
  - rewrite lookup_insert_ne by lia. exact Hi0.
  - rewrite lookup_insert_ne by lia. exact Hi1.
  - intros j Hj. destruct (decide (j = k + 2)) as [->|Hne].
    + replace (b + n + (k + 2)) with (b + n + 2 + k) by lia.
      by rewrite lookup_insert_eq.
    + rewrite !lookup_insert_ne by lia. apply Hix. lia.
Qed.

Lemma insert_loop_full cnt : forall i m,
  init_insert_loop cnt i seed (Some b) 32767
    (b + n - 1) (b + n + n - 1) (b + n) (b + n + n) m
  = Ok ((b + n - 1, b + n + n - 1), m).
Proof.
  induction cnt as [|cnt IH]; intros i m; [reflexivity|].
  cbn [init_insert_loop].
  erewrite bind_ok
    by (apply insert_new_no_room, orb_true_iff; left; apply Z.leb_le; lia).
  apply IH.
Qed.

Lemma insert_loop_fills cnt : forall k m,
  0 <= k <= n - 3 -> n - 3 - k <= Z.of_nat cnt ->
  filled b n seed k (fun _ => 32767) m ->
  exists m',
    init_insert_loop cnt k seed (Some b) 32767
      (b + 2 + k) (b + n + 2 + k) (b + n) (b + n + n) m
    = Ok ((b + n - 1, b + n + n - 1), m')
    /\ filled b n seed (n - 3) (fun _ => 32767) m'.
Proof.
  induction cnt as [|cnt IH]; intros k m Hk Hcnt Hf.
  { assert (k = n - 3) as -> by lia. exists m. split; [|exact Hf].
    cbn. unfold ret. do 3 f_equal; lia. }
  destruct (decide (k = n - 3)) as [->|Hne].
  - exists m. split; [|exact Hf].
    replace (b + 2 + (n - 3)) with (b + n - 1) by lia.
    replace (b + n + 2 + (n - 3)) with (b + n + n - 1) by lia.
    apply insert_loop_full.
  - cbn [init_insert_loop]. fold (init_data16 seed k).
    destruct (insert_new_fills k m) as (m1 & Hins & Hf1); [lia|exact Hf|].
    erewrite bind_ok by exact Hins. cbv beta iota.
    unfold u32. rewrite Z.mod_small by lia.
    destruct (IH (k + 1) m1) as (m' & Hrun & Hf'); [lia|lia|exact Hf1|].
    exists m'. split; [|exact Hf'].
    rewrite <- Hrun. f_equal; lia.
Qed.

Lemma interior_S k : interior b (S k) = (b + 2 + Z.of_nat k) :: interior b k.
Proof.
  unfold interior. rewrite seq_S, reverse_app. reflexivity.
Qed.

Lemma interior_lseg nx k :
  (forall j, 2 <= j <= Z.of_nat k + 1 ->
     nx !! (b + j) = Some (Some (b + j - 1))) ->
  lseg nx (Some (b + Z.of_nat k + 1)) (interior b k) (Some (b + 1)).
Proof.
  intros Hn. induction k as [|k IH].
  - cbn. f_equal. lia.
  - rewrite interior_S. cbn [lseg]. split; [f_equal; lia|].
    exists (Some (b + Z.of_nat k + 1)). split.
    + replace (b + 2 + Z.of_nat k) with (b + (Z.of_nat k + 2)) by lia.
      rewrite Hn by lia. f_equal. f_equal. lia.
    + apply IH. intros j Hj. apply Hn. lia.
Qed.

Lemma elem_of_interior k x :
  x ∈ interior b k <-> b + 2 <= x < b + 2 + Z.of_nat k.
Proof.
  unfold interior. rewrite list_elem_of_fmap. split.
  - intros (j & -> & Hj). apply elem_of_reverse, elem_of_seq in Hj. lia.
  - intros Hx. exists (Z.to_nat (x - b - 2)). split; [lia|].
    apply elem_of_reverse, elem_of_seq. lia.
Qed.


Lemma length_interior k : length (interior b k) = k.
Proof. unfold interior. by rewrite length_map, length_reverse, length_seq. Qed.

(** The whole chain of a filled memory. *)
Lemma filled_chain k idxf m :
  0 <= k -> filled b n seed k idxf m ->
  chain (m_next m) (Some b) (b :: interior b (Z.to_nat k) ++ [b + 1]).
Proof.
  intros Hk Hf. split; [reflexivity|]. exists (Some (b + k + 1)).
  split; [apply Hf|]. apply lseg_snoc. split; [|apply Hf].
  replace (b + k + 1) with (b + Z.of_nat (Z.to_nat k) + 1) by lia.
  apply interior_lseg. intros j Hj. apply Hf. lia.
Qed.

Lemma filled_ext k f g m :
  (forall j, 2 <= j <= k + 1 -> f j = g j) -> filled b n seed k f m -> filled b n seed k g m.
Proof.
  intros Hfg [? ? ? ? ? ? ? ? ? Hix]. split; try done.
  intros j Hj. rewrite <- Hfg by done. by apply Hix.
Qed.

Lemma index_loop_ok (k : Z) (d : nat) : forall fuel m,
  (d < fuel)%nat -> Z.of_nat d <= k -> k + 2 < 4294967296 ->
  filled b n seed k (walked n seed k (Z.of_nat d + 1)) m ->
  exists m',
    init_index_loop fuel n seed (Some (b + Z.of_nat d + 1))
      (k + 1 - Z.of_nat d) m = Ok (tt, m')
    /\ filled b n seed k (walked n seed k 1) m'.
Proof.
  induction d as [|d IH]; intros fuel m Hfuel Hd Hk Hf.
  - destruct fuel as [|fuel]; [lia|]. cbn [init_index_loop].
    replace (b + Z.of_nat 0 + 1) with (b + 1) by lia.
    pose proof (f_tail _ _ _ _ _ _ Hf) as Ht. mstep.
    exists m. split; [reflexivity | exact Hf].
  - destruct fuel as [|fuel]; [lia|]. cbn [init_index_loop].
    set (j := Z.of_nat (S d) + 1). set (i := k + 1 - Z.of_nat (S d)).
    replace (b + Z.of_nat (S d) + 1) with (b + j) by lia.
    pose proof (f_next _ _ _ _ _ _ Hf j ltac:(lia)) as Hnx.
    pose proof (f_info _ _ _ _ _ _ Hf j ltac:(lia)) as Hinf.
    mstep. mstep.
    set (m1 := with_idx (<[b + n + j := init_rank n seed i]> (m_idx m)) m).
    assert (Hstore :
      (if i <? n / 5 then store_idx (b + n + j) (s16 i) ;;; ret (u32 (i + 1))
       else
         store_idx (b + n + j)
           (s16 (Z.land 16383
              (Z.lor (Z.shiftl (Z.land (u32 (i + 1)) 7) 8)
                     (u16 (Z.lxor i seed))))) ;;;
         ret (u32 (i + 1))) m = Ok (i + 1, m1)).
    { unfold init_rank in m1. subst m1.
      assert (Hu : u32 (i + 1) = i + 1)
        by (unfold u32; apply Z.mod_small; lia).
      rewrite Hu. destruct (i <? n / 5).
      - reflexivity.
      - rewrite s16_id; [reflexivity|].
        pose proof (land_16383_range
          (Z.lor (Z.shiftl (Z.land (i + 1) 7) 8) (u16 (Z.lxor i seed)))).
        lia. }
    erewrite bind_ok by exact Hstore.
    assert (Hf1 : filled b n seed k (walked n seed k (Z.of_nat d + 1)) m1).
    { destruct Hf as [Hh Ht Hn Hi Hd0 Hd1 Hdd Hi0 Hi1 Hix].
      subst m1. split; try done; msimpl.
      - rewrite lookup_insert_ne by lia. exact Hi0.
      - rewrite lookup_insert_ne by lia. exact Hi1.
      - intros j' Hj'. destruct (decide (j' = j)) as [->|Hne].
        + rewrite lookup_insert_eq. unfold walked.
          replace (Z.of_nat d + 1 <? j) with true by (symmetry; lia).
          do 2 f_equal. lia.
        + rewrite lookup_insert_ne by lia. rewrite Hix by done.
          unfold walked. f_equal.
          destruct (Z.ltb_spec (Z.of_nat (S d) + 1) j'),
                   (Z.ltb_spec (Z.of_nat d + 1) j'); try reflexivity; lia. }
    assert (Hnx1 : m_next m1 !! (b + j) = Some (Some (b + j - 1))) by exact Hnx.
    mstep.
    destruct (IH fuel m1) as (m' & Hrun & Hf'); [lia|lia|lia|exact Hf1|].
    exists m'. split; [|exact Hf'].
    rewrite <- Hrun. f_equal; [do 2 f_equal|]; lia.
Qed.
End Builder.

(** [core_list_init] up to the sort: the memory it builds. *)
Lemma core_list_init_fill_ok sz blksize b seed fuel m :
  let n := blksize / (16 + sz) - 2 in
  0 <= sz -> 16 + sz < 4294967296 -> 0 <= blksize < 4294967296 ->
  3 <= n -> (Z.to_nat n <= fuel)%nat ->
  exists m',
    core_list_init_fill fuel sz blksize b seed m = Ok ((Some b, n), m')
    /\ filled b n seed (n - 3) (walked n seed (n - 3) 1) m'.
Proof.
  intros n Hsz Hsz2 Hblk Hn Hfuel.
  assert (Hn2 : n < 4294967296).
  { subst n. assert (blksize / (16 + sz) <= blksize); [|lia].
    apply Z.div_le_upper_bound; nia. }
  unfold core_list_init_fill.
  assert (Hper : u32 (16 + sz) = 16 + sz) by (apply Z.mod_small; lia).
  rewrite Hper. fold n. clearbody n.
  assert (Hsize : u32 n = n) by (apply Z.mod_small; lia).
  rewrite Hsize. change (s16 32896) with (-32640).
  change (s16 65535) with (-1).
  destruct m as [nx inf d16 ix rs]. repeat mstep.
  set (m0 := mk_mem _ _ _ _ _).
  assert (Hf0 : exists m1,
    core_list_insert_new (Some b) (mk_data (-1) 32767)
      (b + 1) (b + n + 1) (b + n) (b + n + n) m0
    = Ok ((Some (b + 1), b + 1 + 1, b + n + 1 + 1), m1)
    /\ filled b n seed 0 (fun _ => 32767) m1).
  { unfold core_list_insert_new.
    replace (b + n <=? b + 1 + 1) with false by (symmetry; lia).
    replace (b + n + n <=? b + n + 1 + 1) with false by (symmetry; lia).
    subst m0. unfold copy_info. repeat mstep. eexists.
    split; [reflexivity|]. split; msimpl.
    - rewrite lookup_insert_eq. do 2 f_equal. lia.
    - rewrite lookup_insert_ne by lia. by rewrite lookup_insert_eq.
    - intros j Hj. lia.
    - intros j Hj. destruct (decide (j = 0)) as [->|Hne].
      + rewrite Z.add_0_r, lookup_insert_ne by lia.
        rewrite lookup_insert_eq. f_equal. lia.
      + assert (j = 1) as -> by lia. by rewrite lookup_insert_eq.
    - rewrite lookup_insert_ne by lia. by rewrite lookup_insert_eq.
    - by rewrite lookup_insert_eq.
    - intros j Hj. lia.
    - rewrite lookup_insert_ne by lia. by rewrite lookup_insert_eq.
    - by rewrite lookup_insert_eq.
    - intros j Hj. lia. }
  destruct Hf0 as (m1 & Hins & Hf1).
  erewrite bind_ok by exact Hins. cbv beta iota.
  destruct (insert_loop_fills b n seed ltac:(lia) (Z.to_nat n) 0 m1)
    as (m2 & Hloop & Hf2); [lia|lia|exact Hf1|].
  replace (b + 1 + 1) with (b + 2 + 0) by lia.
  replace (b + n + 1 + 1) with (b + n + 2 + 0) by lia.
  erewrite bind_ok by exact Hloop.
  pose proof (f_head _ _ _ _ _ _ Hf2) as Hh. mstep.
  destruct (index_loop_ok b n seed (n - 3) (Z.to_nat (n - 3)) fuel m2)
    as (m3 & Hwalk & Hf3); [lia|lia|lia| |].
  { eapply filled_ext; [|exact Hf2]. intros j Hj. unfold walked.
    destruct (Z.ltb_spec (Z.of_nat (Z.to_nat (n - 3)) + 1) j); [lia|done]. }
  replace (b + Z.of_nat (Z.to_nat (n - 3)) + 1) with (b + (n - 3) + 1)
    in Hwalk by lia.
  replace (n - 3 + 1 - Z.of_nat (Z.to_nat (n - 3))) with 1 in Hwalk by lia.
  erewrite bind_ok by exact Hwalk.
  exists m3. split; [reflexivity | exact Hf3].
Qed.

(** ** Sorting by rank *)

(** On such a list [cmp_idx] with a NULL context writes back what it
    read: it is a pure comparison of ranks. *)
Lemma cmp_idx_pure m L nx x y :
  normalized m L -> x ∈ L -> y ∈ L ->
  exists a b,
    m_info m !! x = Some a /\ m_info m !! y = Some b
    /\ cmp_idx a b RES_NULL (with_next nx m)
       = Ok (idx_cmp m x y, with_next nx m).
Proof.
  intros Hnorm Hx Hy.
  destruct (Hnorm x Hx) as (rx & Hrx & Hgx & Hix).
  destruct (Hnorm y Hy) as (ry & Hry & Hgy & Hiy).
  destruct (node_data_Some m x) as (a & da & ia & Ha & Hda & Hia & Hrx');
    [by rewrite Hrx|].
  destruct (node_data_Some m y) as (b & db & ib & Hb & Hdb & Hib & Hry');
    [by rewrite Hry|].
  rewrite Hrx in Hrx'. injection Hrx' as ->.
  rewrite Hry in Hry'. injection Hry' as ->.
  cbn [d_data16 d_idx] in *.
  exists a, b. split; [done|]. split; [done|].
  unfold idx_cmp, node_rec. rewrite Hrx, Hry. cbn [default d_idx].
  unfold cmp_idx. destruct m as [nx0 inf d16 ix rs]; cbn in *.
  repeat (mstep; rewrite ?Hgx, ?Hgy;
          rewrite ?(insert_id d16 a da), ?(insert_id d16 b db) by done).
  rewrite s32_id by lia. reflexivity.
Qed.

Lemma idx_cmp_total m : Total (cmp_le (idx_cmp m)).
Proof. intros x y. unfold cmp_le, idx_cmp. lia. Qed.

Lemma idx_cmp_trans m : Transitive (cmp_le (idx_cmp m)).
Proof. intros x y z. unfold cmp_le, idx_cmp. lia. Qed.

(** Sorting a non-empty normalized list by rank. *)
Lemma mergesort_by_idx fuel m lst L :
  normalized m L ->
  chain (m_next m) lst L -> L <> [] ->
  (length L < fuel)%nat -> Z.of_nat (length L) < 2147483648 ->
  exists nx' lst' L',
    core_list_mergesort fuel lst cmp_idx RES_NULL m
    = Ok (lst', with_next nx' m)
    /\ chain nx' lst' L'
    /\ L' ≡ₚ L
    /\ StronglySorted (cmp_le (idx_cmp m)) L'
    /\ forall x,
         filter (eqv (cmp_le (idx_cmp m)) x) L'
         = filter (eqv (cmp_le (idx_cmp m)) x) L.
Proof.
  intros Hnorm Hc Hne Hfuel Hb.
  apply mergesort_sorts_pure; try done.
  - intros nx x y Hx Hy. by eapply cmp_idx_pure.
  - apply idx_cmp_total.
  - apply idx_cmp_trans.
Qed.

(** The records the builder writes are in regenerated form. *)
Lemma regen_init_data16 seed i :
  regen_data (init_data16 seed i) = init_data16 seed i.
Proof.
  unfold init_data16.
  set (a := Z.land (u16 (Z.lxor seed i)) 15). set (c := Z.land i 7).
  assert (Ha : 0 <= a < 16).
  { subst a. change 15 with (Z.ones 4). rewrite Z.land_ones by lia.
    apply Z.mod_pos_bound. lia. }
  assert (Hc : 0 <= c < 8).
  { subst c. change 7 with (Z.ones 3). rewrite Z.land_ones by lia.
    apply Z.mod_pos_bound. lia. }
  clearbody a c.
  assert (Ha' : a = 0 \/ a = 1 \/ a = 2 \/ a = 3 \/ a = 4 \/ a = 5 \/ a = 6
                \/ a = 7 \/ a = 8 \/ a = 9 \/ a = 10 \/ a = 11 \/ a = 12
                \/ a = 13 \/ a = 14 \/ a = 15) by lia.
  assert (Hc' : c = 0 \/ c = 1 \/ c = 2 \/ c = 3 \/ c = 4 \/ c = 5 \/ c = 6
                \/ c = 7) by lia.
  clear Ha Hc.
  repeat (destruct Ha' as [->|Ha']); try subst a;
    repeat (destruct Hc' as [->|Hc']); try subst c; reflexivity.
Qed.

Lemma init_rank_range size seed i : -32768 <= init_rank size seed i < 32768.
Proof.
  unfold init_rank. destruct (i <? size / 5).
  - unfold s16. pose proof (Z.mod_pos_bound (i + 32768) 65536). lia.
  - pose proof (land_16383_range
      (Z.lor (Z.shiftl (Z.land (i + 1) 7) 8) (u16 (Z.lxor i seed)))). lia.
Qed.

(** The record of every node of a filled memory. *)
Lemma filled_node_data b n seed k idxf m j :
  filled b n seed k idxf m -> 0 <= j <= k + 1 ->
  node_data m (b + j)
  = Some (mk_data
            (if j =? 0 then -32640 else if j =? 1 then -1
             else init_data16 seed (j - 2))
            (if j =? 0 then 0 else if j =? 1 then 32767 else idxf j)).
Proof.
  intros [Hh Ht Hn Hi Hd0 Hd1 Hd Hi0 Hi1 Hix] Hj. unfold node_data.
  rewrite Hi by lia.
  destruct (Z.eqb_spec j 0) as [->|H0].
  { rewrite Z.add_0_r. by rewrite Hd0, Hi0. }
  destruct (Z.eqb_spec j 1) as [->|H1].
  { by rewrite Hd1, Hi1. }
  by rewrite Hd, Hix by lia.
Qed.

Lemma elem_of_filled_chain b k x :
  0 <= k ->
  x ∈ b :: interior b (Z.to_nat k) ++ [b + 1] <-> b <= x <= b + k + 1.
Proof.
  intros Hk. rewrite elem_of_cons, elem_of_app, elem_of_interior,
    list_elem_of_singleton. lia.
Qed.

Lemma filled_normalized b n seed k m :
  0 <= k ->
  filled b n seed k (walked n seed k 1) m ->
  normalized m (b :: interior b (Z.to_nat k) ++ [b + 1]).
Proof.
  intros Hk Hf x Hx. apply elem_of_filled_chain in Hx; [|done].
  replace x with (b + (x - b)) by lia.
  erewrite filled_node_data by (done || lia). eexists. split; [done|].
  cbn [d_data16 d_idx].
  destruct (Z.eqb_spec (x - b) 0); [split; [done | lia]|].
  destruct (Z.eqb_spec (x - b) 1); [split; [done | lia]|].
  split; [apply regen_init_data16|].
  unfold walked. destruct (1 <? x - b); [apply init_rank_range | lia].
Qed.

(** ** C4: the index-assignment walk *)



(** ** C5: capacity of the builder *)

(** A 2000-byte block with 4-byte records gives [size = 98] but a list
    of 97 nodes: 95 interior nodes between the two sentinels. *)
Lemma core_list_init_capacity_counterexample :
  2000 / (16 + 4) - 2 = 98
  /\ run_value (lst <- core_list_init 200 4 2000 0 0 ;;
                l <- chain_nodes 200 lst ;;
                ret (length l)) empty_mem = Some 97%nat.
Proof. vm_compute. auto. Qed.

(** C5 (as amended). With [size = blksize / (16 + sizeof(list_data)) - 2]
    at least 3, [core_list_init] returns a list made of the head, the
    tail and exactly [size - 3] interior nodes (the guard refuses the
    slot whose successor would be the end of the region).  So a block of
    [(k + 5) * (16 + sizeof(list_data))] bytes gives exactly [k]
    interior nodes, and one byte less gives [k - 1]. *)
Theorem core_list_init_capacity sz blksize b seed fuel m :
  let size := blksize / (16 + sz) - 2 in
  0 <= sz -> 16 + sz < 4294967296 -> 0 <= blksize < 4294967296 ->
  3 <= size -> (Z.to_nat size <= fuel)%nat ->
  exists lst m' L,
    core_list_init fuel sz blksize b seed m = Ok (lst, m')
    /\ chain (m_next m') lst L
    /\ L ≡ₚ b :: interior b (Z.to_nat (size - 3)) ++ [b + 1]
    /\ Z.of_nat (length L) - 2 = size - 3
    /\ (forall k, blksize = (k + 5) * (16 + sz) ->
          Z.of_nat (length L) - 2 = k)
    /\ (forall k, blksize = (k + 5) * (16 + sz) - 1 ->
          Z.of_nat (length L) - 2 = k - 1).
Proof.
  intros n Hsz Hsz2 Hblk Hn Hfuel.
  destruct (core_list_init_fill_ok sz blksize b seed fuel m)
    as (m1 & Hrun & Hf); [done..|].
  fold n in Hrun, Hf.
  assert (Hn2 : n < 268435456).
  { subst n. pose proof (Z.mul_div_le blksize (16 + sz) ltac:(lia)).
    assert (0 <= blksize / (16 + sz)) by (apply Z.div_pos; lia). nia. }
  assert (F1 : forall k, blksize = (k + 5) * (16 + sz) -> n = k + 3).
  { intros k ->. subst n. rewrite Z.div_mul by lia. lia. }
  assert (F2 : forall k, blksize = (k + 5) * (16 + sz) - 1 -> n = k + 2).
  { intros k ->. subst n.
    replace ((k + 5) * (16 + sz) - 1)
      with ((k + 4) * (16 + sz) + (16 + sz - 1)) by lia.
    rewrite Z.div_add_l by lia. rewrite Z.div_small by lia. lia. }
  clearbody n.
  set (L0 := b :: interior b (Z.to_nat (n - 3)) ++ [b + 1]).
  assert (HlenL0 : Z.of_nat (length L0) = n - 1).
  { subst L0. cbn. rewrite length_app, length_interior. cbn. lia. }
  destruct (mergesort_by_idx fuel m1 (Some b) L0)
    as (nx' & lst' & L' & Hsort & Hc' & Hperm & _).
  { eapply filled_normalized; [lia | exact Hf]. }
  { eapply filled_chain; [lia | exact Hf]. }
  { done. }
  { lia. }
  { lia. }
  exists lst', (with_next nx' m1), L'.
  assert (HlenL' : Z.of_nat (length L') - 2 = n - 3) by (rewrite Hperm; lia).
  split.
  { unfold core_list_init. erewrite bind_ok by exact Hrun. exact Hsort. }
  split; [exact Hc'|]. split; [exact Hperm|]. split; [exact HlenL'|].
  split.
  - intros k Hk. rewrite HlenL', (F1 k Hk). lia.
  - intros k Hk. rewrite HlenL', (F2 k Hk). lia.
Qed.


(** ** Reversal *)

Lemma reverse_loop_ok m fuel : forall R A nx p nxt,
  chain nx p R -> chain nx nxt A -> NoDup (R ++ A) ->
  (length R < fuel)%nat ->
  exists nx' q,
    reverse_loop fuel p nxt (with_next nx m) = Ok (q, with_next nx' m)
    /\ chain nx' q (reverse R ++ A).
Proof.
  induction fuel as [|f IH]; intros R A nx p nxt Hp Hn Hnd Hfuel; [lia|].
  destruct R as [|x R]; cbn in Hp.
  - subst p. exists nx, nxt. split; [reflexivity | exact Hn].
  - destruct Hp as (-> & tmp & Hx & Hp). cbn [reverse_loop].
    mstep. mstep. fold (with_next (<[x := nxt]> nx) m).
    apply NoDup_cons in Hnd as [Hx_notin Hnd].
    rewrite not_elem_of_app in Hx_notin. destruct Hx_notin as [HxR HxA].
    destruct (IH R (x :: A) (<[x := nxt]> nx) tmp (Some x))
      as (nx' & q & Hrun & Hc).
    + by apply lseg_insert_ne.
    + split; [reflexivity|]. exists nxt. split; [by rewrite lookup_insert_eq|].
      by apply lseg_insert_ne.
    + rewrite <- Permutation_middle. by constructor; [rewrite not_elem_of_app|].
    + cbn in Hfuel. lia.
    + exists nx', q. split; [exact Hrun|].
      by rewrite reverse_cons, <- app_assoc.
Qed.

(** [core_list_reverse] reverses the chain and touches [next] fields
    only. *)
Lemma core_list_reverse_ok m fuel lst L :
  chain (m_next m) lst L -> (length L < fuel)%nat ->
  exists nx' q,
    core_list_reverse fuel lst m = Ok (q, with_next nx' m)
    /\ chain nx' q (reverse L).
Proof.
  intros Hc Hfuel.
  destruct (reverse_loop_ok m fuel L [] (m_next m) lst None)
    as (nx' & q & Hrun & Hc'); [done | done | | done |].
  { rewrite app_nil_r. by eapply chain_NoDup. }
  rewrite with_next_id, app_nil_r in *. eauto.
Qed.



(** ** C8: sort after reversal *)



(** ** C3: the list checksum of the performance run *)

(** C3. With [HAS_FLOAT] defined (the branch in which core_matrix.c is
    well-formed), 4-byte records, seeds (0, 0, 0x66) and 2000 bytes per
    algorithm, the list checksum after the first iteration is 0xc9bf,
    while [main] expects [list_known_crc[0] = 0xd4b0]. *)
Theorem list_crc_with_has_float :
  fst <$> (fst <$> first_iteration_crcs matrix_clip_float matrix_big_float
                     4 0 0 0x66 2000)
  = Some 0xc9bf
  /\ list_known_crc !! 0%nat = Some 0xd4b0.
Proof. split; [vm_compute; reflexivity | reflexivity]. Qed.



(** ** Concrete instances *)

Ltac solve_chain :=
  repeat (split; [reflexivity|]; eexists; split; [reflexivity|]); reflexivity.

Lemma mem3_chain : chain (m_next mem3) (Some 10) [10; 11; 12].
Proof. solve_chain. Defined.

Lemma mem3_data x : x ∈ [10; 11; 12] -> is_Some (node_data mem3 x).
Proof.
  rewrite !elem_of_cons, elem_of_nil. intros [->|[->|[->|[]]]]; eexists; reflexivity.
Defined.

Lemma by_idx_desc_total_order : total_order_cmp by_idx_desc.
Proof.
  split; unfold by_idx_desc.
  - intros a b. rewrite <- Z.sgn_opp. f_equal. lia.
  - intros a b d. lia.
Defined.

Lemma core_list_mergesort_sorts_witness :
  exists nx' lst' L',
    core_list_mergesort 5 (Some 10) (cmp_of by_idx_desc) RES_NULL mem3
    = Ok (lst', with_next nx' mem3)
    /\ chain nx' lst' L'
    /\ L' ≡ₚ [10; 11; 12]
    /\ StronglySorted
         (fun x y => by_idx_desc (node_rec mem3 x) (node_rec mem3 y) <= 0) L'
    /\ forall x,
         filter (fun y => by_idx_desc (node_rec mem3 x) (node_rec mem3 y) = 0) L'
         = filter (fun y => by_idx_desc (node_rec mem3 x) (node_rec mem3 y) = 0)
             [10; 11; 12].
Proof.
  apply (core_list_mergesort_sorts 5 mem3 (Some 10) [10; 11; 12]
           by_idx_desc RES_NULL).
  - exact by_idx_desc_total_order.
  - exact mem3_chain.
  - discriminate.
  - exact mem3_data.
  - cbn. lia.
  - cbn. lia.
Defined.

Lemma remove_undo_exact_witness :
  exists m',
    (removed <- core_list_remove (Some 10) ;;
     core_list_undo_remove removed (Some 10)) mem3 = Ok (Some 11, m')
    /\ chain (m_next m') (Some 10) [10; 11; 12]
    /\ map (node_data m') [10; 11; 12] = map (node_data mem3) [10; 11; 12]
    /\ m' = mem3.
Proof.
  apply (remove_undo_exact mem3 (Some 10) [10; 11; 12] 10 11).
  - exact mem3_chain.
  - intros x Hx. destruct (mem3_data x Hx) as [r Hr].
    unfold node_data in Hr. destruct (m_info mem3 !! x); [eauto | discriminate].
  - left.
  - reflexivity.
Defined.

Lemma core_list_find_spec_witness :
  exists seen,
    core_list_find_trace 5 (Some 10) (mk_data 0 5) mem3
      = Ok ((find (find_pred mem3 (mk_data 0 5)) [10; 11; 12], seen), mem3)
    /\ core_list_find 5 (Some 10) (mk_data 0 5) mem3
       = Ok (find (find_pred mem3 (mk_data 0 5)) [10; 11; 12], mem3)
    /\ (find (find_pred mem3 (mk_data 0 5)) [10; 11; 12] = None
        <-> forall x, x ∈ [10; 11; 12] -> find_pred mem3 (mk_data 0 5) x = false)
    /\ seen `prefix_of` [10; 11; 12] /\ NoDup seen.
Proof.
  apply (core_list_find_spec 5 mem3 (Some 10) [10; 11; 12] (mk_data 0 5)).
  - exact mem3_chain.
  - exact mem3_data.
  - cbn. lia.
Defined.


Lemma mergesort_single_element_witness :
  mergesort_pass 2 cmp_idx RES_NULL 1 (Some 5) mem1 = Ok ((Some 5, 1), mem1)
  /\ core_list_mergesort 2 (Some 5) cmp_idx RES_NULL mem1 = Ok (Some 5, mem1).
Proof.
  apply (mergesort_single_element 0 mem1 (Some 5) 5 cmp_idx RES_NULL).
  solve_chain.
Defined.


Lemma core_list_init_capacity_witness :
  exists lst m' L,
    core_list_init 200 4 2000 0 0 empty_mem = Ok (lst, m')
    /\ chain (m_next m') lst L
    /\ Z.of_nat (length L) - 2 = 95.
Proof.
  destruct (core_list_init_capacity 4 2000 0 0 200 empty_mem)
    as (lst & m' & L & Hrun & Hc & _ & Hlen & _).
  - lia.
  - lia.
  - lia.
  - vm_compute. discriminate.
  - vm_compute. lia.
  - exists lst, m', L. auto.
Defined.


(** ** crcu8 is CRC-16/ARC *)

Lemma all_from_spec (f : Z -> bool) : forall (n : nat) i,
  all_from n i f = true -> forall k, i <= k < i + Z.of_nat n -> f k = true.
Proof.
  induction n as [|n IH]; intros i H k Hk; [lia|].
  cbn [all_from] in H. apply andb_true_iff in H as [H1 H2].
  destruct (decide (k = i)) as [->|]; [exact H1|].
  apply (IH (i + 1)); [exact H2 | lia].
Qed.

Lemma crcu8_round_table :
  all_from (Z.to_nat 65536) 0 (fun c =>
    forallb (fun b =>
      let c' := snd (crcu8_round (Z.b2z b, c)) in
      (c' =? Z.lxor (Z.shiftr c 1) (if xorb b (Z.odd c) then 0xA001 else 0))
      && (0 <=? c') && (c' <? 65536)) [false; true]) = true.
Proof. vm_compute. reflexivity. Qed.

Lemma land_1_b2z d : Z.land d 1 = Z.b2z (Z.odd d).
Proof.
  change 1 with (Z.ones 1). rewrite Z.land_ones by lia.
  rewrite <- Z.bit0_odd. symmetry. apply Z.bit0_mod.
Qed.

Lemma crcu8_round_spec d c :
  0 <= c < 65536 ->
  exists c',
    crcu8_round (d, c) = (Z.shiftr d 1, c')
    /\ 0 <= c' < 65536
    /\ Z.lxor c' (Z.shiftr d 1) = crc16_arc_step (Z.lxor c d).
Proof.
  intros Hc.
  pose proof (all_from_spec _ _ _ crcu8_round_table c) as T.
  rewrite Z2Nat.id in T by lia. specialize (T ltac:(lia)).
  rewrite forallb_forall in T.
  specialize (T (Z.odd d)).
  assert (Hb : In (Z.odd d) [false; true]) by (destruct (Z.odd d); cbn; auto).
  specialize (T Hb). cbv zeta in T.
  apply andb_true_iff in T as [T T3]. apply andb_true_iff in T as [T1 T2].
  apply Z.eqb_eq in T1. apply Z.leb_le in T2. apply Z.ltb_lt in T3.
  assert (E : crcu8_round (d, c)
              = (Z.shiftr d 1, snd (crcu8_round (Z.b2z (Z.odd d), c)))).
  { unfold crcu8_round. rewrite !land_1_b2z.
    replace (Z.odd (Z.b2z (Z.odd d))) with (Z.odd d) by (by destruct (Z.odd d)).
    destruct (u8 (Z.lxor (Z.b2z (Z.odd d)) (Z.b2z (Z.odd (u8 c)))) =? 1);
      cbn [snd]; reflexivity. }
  eexists. split; [exact E|]. split; [lia|].
  rewrite T1. unfold crc16_arc_step.
  rewrite Z.shiftr_lxor.
  replace (Z.odd (Z.lxor c d)) with (xorb (Z.odd d) (Z.odd c)).
  2:{ rewrite <- !Z.bit0_odd, Z.lxor_spec. apply xorb_comm. }
  rewrite !Z.lxor_assoc. f_equal. apply Z.lxor_comm.
Qed.

Lemma crcu8_rounds d c (n : nat) :
  0 <= c < 65536 ->
  exists c',
    Nat.iter n crcu8_round (d, c) = (Z.shiftr d (Z.of_nat n), c')
    /\ 0 <= c' < 65536
    /\ Z.lxor c' (Z.shiftr d (Z.of_nat n))
       = Nat.iter n crc16_arc_step (Z.lxor c d).
Proof.
  intros Hc. induction n as [|n (c1 & E & Hc1 & IH)].
  - exists c. rewrite Z.shiftr_0_r. auto.
  - destruct (crcu8_round_spec (Z.shiftr d (Z.of_nat n)) c1 Hc1)
      as (c2 & E2 & Hc2 & H2).
    exists c2. rewrite !Nat.iter_succ, E, E2, Z.shiftr_shiftr by lia.
    replace (Z.of_nat n + 1) with (Z.of_nat (S n)) by lia.
    split; [reflexivity|]. split; [exact Hc2|].
    rewrite Z.shiftr_shiftr in H2 by lia.
    replace (Z.of_nat n + 1) with (Z.of_nat (S n)) in H2 by lia.
    rewrite H2, IH. reflexivity.
Qed.

(** X4. [crcu8] is the bitwise CRC-16/ARC update: xor the byte into the low
    bits of the crc, then eight steps of the reflected polynomial
    0xA001; the result is again an ee_u16. *)
Theorem crcu8_is_crc16_arc data crc :
  0 <= data < 256 -> 0 <= crc < 65536 ->
  crcu8 data crc = Nat.iter 8 crc16_arc_step (Z.lxor crc data)
  /\ 0 <= crcu8 data crc < 65536.
Proof.
  intros Hd Hc. destruct (crcu8_rounds data crc 8 Hc) as (c' & E & Hc' & H).
  unfold crcu8. rewrite E. cbn [snd]. split; [|exact Hc'].
  rewrite <- H. replace (Z.shiftr data (Z.of_nat 8)) with 0.
  - by rewrite Z.lxor_0_r.
  - symmetry. rewrite Z.shiftr_div_pow2 by lia. apply Z.div_small.
    change (2 ^ Z.of_nat 8) with 256. lia.
Qed.

Lemma crcu8_is_crc16_arc_witness :
  crcu8 0x31 0xFFFF = Nat.iter 8 crc16_arc_step (Z.lxor 0xFFFF 0x31)
  /\ 0 <= crcu8 0x31 0xFFFF < 65536.
Proof. apply crcu8_is_crc16_arc; lia. Defined.

(** ** parseval *)

Lemma fold_digits_mono base (val : Z -> Z) (ds : list Z) : forall a,
  1 <= base -> Forall (fun c => 0 <= val c) ds -> 0 <= a ->
  a <= fold_left (fun a c => base * a + val c) ds a.
Proof.
  induction ds as [|c ds IH]; intros a Hb Hd Ha; cbn; [lia|].
  apply Forall_cons in Hd as [Hc Hd].
  etransitivity; [|apply IH; [done | done | nia]]. nia.
Qed.

Lemma parseval_dec_ok ds rest : forall a,
  Forall (fun c => is_dec_digit c = true) ds ->
  is_dec_digit (deref rest) = false ->
  0 <= a ->
  fold_left (fun a c => 10 * a + dec_val c) ds a < 2147483648 ->
  parseval_dec (ds ++ rest) a
  = (fold_left (fun a c => 10 * a + dec_val c) ds a, rest).
Proof.
  induction ds as [|c ds IH]; intros a Hd Hr Ha Hv.
  - cbn. destruct rest as [|c rest]; [reflexivity|].
    cbn in Hr. unfold is_dec_digit in Hr. cbn. by rewrite Hr.
  - apply Forall_cons in Hd as [Hc Hd]. cbn in Hv |- *.
    unfold is_dec_digit in Hc. rewrite Hc.
    apply andb_true_iff in Hc as [H1 H2].
    apply Z.leb_le in H1, H2. unfold dec_val in *.
    assert (Hm : 10 * a + (c - 48)
                 <= fold_left (fun a c => 10 * a + (c - 48)) ds
                      (10 * a + (c - 48))).
    { apply fold_digits_mono with (val := fun c => c - 48); [lia| |lia].
      eapply Forall_impl; [exact Hd|]. intros x Hx. cbn.
      unfold is_dec_digit in Hx. apply andb_true_iff in Hx as [Hx _].
      apply Z.leb_le in Hx. lia. }
    rewrite (s32_id (a * 10)) by lia.
    rewrite s32_id by lia.
    replace (a * 10 + (c - 48)) with (10 * a + (c - 48)) by lia.
    apply IH; [done | done | lia | done].
Qed.

Lemma parseval_hex_ok ds rest : forall a,
  Forall (fun c => is_hex_digit c = true) ds ->
  is_hex_digit (deref rest) = false ->
  0 <= a ->
  fold_left (fun a c => 16 * a + hex_val c) ds a < 2147483648 ->
  parseval_hex (ds ++ rest) a
  = (fold_left (fun a c => 16 * a + hex_val c) ds a, rest).
Proof.
  induction ds as [|c ds IH]; intros a Hd Hr Ha Hv.
  - cbn. destruct rest as [|c rest]; [reflexivity|].
    cbn in Hr. unfold is_hex_digit in Hr. cbn. by rewrite Hr.
  - apply Forall_cons in Hd as [Hc Hd]. cbn in Hv |- *.
    unfold is_hex_digit in Hc. rewrite Hc.
    assert (Hval : (if 9 <? c - 48 then 10 + c - 97 else c - 48) = hex_val c
                   /\ 0 <= hex_val c < 16).
    { unfold hex_val. apply orb_true_iff in Hc as [Hc|Hc];
        apply andb_true_iff in Hc as [H1 H2]; apply Z.leb_le in H1, H2.
      - replace (9 <? c - 48) with false by (symmetry; lia).
        replace (c <=? 57) with true by (symmetry; lia). lia.
      - replace (9 <? c - 48) with true by (symmetry; lia).
        replace (c <=? 57) with false by (symmetry; lia). lia. }
    destruct Hval as [-> Hrange].
    assert (Hm : 16 * a + hex_val c
                 <= fold_left (fun a c => 16 * a + hex_val c) ds
                      (16 * a + hex_val c)).
    { apply fold_digits_mono; [lia| |lia].
      eapply Forall_impl; [exact Hd|]. intros x Hx. cbn.
      unfold is_hex_digit in Hx. unfold hex_val.
      assert (48 <= x <= 57 \/ 97 <= x <= 102)
        by (apply orb_true_iff in Hx as [Hx|Hx];
            apply andb_true_iff in Hx as [Hx1 Hx2];
            apply Z.leb_le in Hx1, Hx2; lia).
      clear Hx. destruct (Z.leb_spec x 57); lia. }
    rewrite (s32_id (a * 16)) by lia.
    rewrite s32_id by lia.
    replace (a * 16 + hex_val c) with (16 * a + hex_val c) by lia.
    apply IH; [done | done | lia | done].
Qed.

Lemma digits_value_nonneg base val ds :
  1 <= base -> Forall (fun c => 0 <= val c) ds -> 0 <= digits_value base val ds.
Proof. intros Hb Hd. by apply (fold_digits_mono base val ds 0). Qed.

(** X5. [parseval] on an optional minus sign, decimal digits [ds] and a
    rest that starts with neither a digit nor [x] nor [-]: the digits
    are read in base ten, multiplied by 1024 when the rest starts with
    [K] and by 1024 * 1024 when it starts with [M], and negated after
    a minus sign.  No digits give 0. *)
Theorem parseval_decimal (neg : bool) ds rest :
  Forall (fun c => is_dec_digit c = true) ds ->
  is_dec_digit (deref rest) = false ->
  deref rest <> 120 -> deref rest <> 45 ->
  digits_value 10 dec_val ds * qualifier (deref rest) < 2147483648 ->
  parseval ((if neg then [45] else []) ++ ds ++ rest)
  = (if neg then -1 else 1) * digits_value 10 dec_val ds
    * qualifier (deref rest).
Proof.
  intros Hd Hr Hx Hm Hv.
  assert (Hnn : 0 <= digits_value 10 dec_val ds).
  { apply digits_value_nonneg; [lia|]. eapply Forall_impl; [exact Hd|].
    intros c Hc. cbn. unfold is_dec_digit in Hc. unfold dec_val.
    apply andb_true_iff in Hc as [Hc _]. apply Z.leb_le in Hc. lia. }
  assert (Hq : 1 <= qualifier (deref rest)).
  { unfold qualifier. repeat case_match; lia. }
  assert (Hsign : forall s,
    (if deref (ds ++ rest) =? 45 then (s, tl (ds ++ rest)) else (1, ds ++ rest))
    = (1, ds ++ rest)).
  { intros s. replace (deref (ds ++ rest) =? 45) with false; [done|].
    symmetry. apply Z.eqb_neq. destruct ds as [|c ds]; cbn; [done|].
    apply Forall_cons in Hd as [Hc _]. unfold is_dec_digit in Hc.
    apply andb_true_iff in Hc as [Hc _]. apply Z.leb_le in Hc. lia. }
  assert (Hhex : (deref (ds ++ rest) =? 48) && (deref (tl (ds ++ rest)) =? 120)
                 = false).
  { destruct ds as [|c [|c' ds]]; cbn.
    - destruct rest as [|r rest]; cbn; [done|].
      cbn in Hr. unfold is_dec_digit in Hr.
      destruct (Z.eqb_spec r 48) as [->|]; [done|done].
    - apply andb_false_iff. right. by apply Z.eqb_neq.
    - apply andb_false_iff. right. apply Z.eqb_neq.
      apply Forall_cons in Hd as [_ Hd]. apply Forall_cons in Hd as [Hc _].
      unfold is_dec_digit in Hc. apply andb_true_iff in Hc as [_ Hc].
      apply Z.leb_le in Hc. lia. }
  assert (Hrun : parseval_dec (ds ++ rest) 0
                 = (digits_value 10 dec_val ds, rest)).
  { apply parseval_dec_ok; try done. fold (digits_value 10 dec_val ds). nia. }
  assert (Htail : forall sg, (sg = 1 \/ sg = -1) ->
    (let '(hexmode, valstring) :=
       if (deref (ds ++ rest) =? 48) && (deref (tl (ds ++ rest)) =? 120)
       then (true, tl (tl (ds ++ rest))) else (false, ds ++ rest) in
     let '(retval, valstring) :=
       if hexmode then parseval_hex valstring 0
       else parseval_dec valstring 0 in
     let retval :=
       if deref valstring =? 75 then s32 (retval * 1024) else retval in
     let retval :=
       if deref valstring =? 77 then s32 (retval * (1024 * 1024))
       else retval in
     s32 (retval * sg))
    = sg * digits_value 10 dec_val ds * qualifier (deref rest)).
  { intros sg Hsg. rewrite Hhex, Hrun. unfold qualifier in *.
    destruct (Z.eqb_spec (deref rest) 75) as [E|E].
    - rewrite E. cbn [Z.eqb Pos.eqb].
      rewrite (s32_id (_ * 1024)) by lia. rewrite s32_id; lia.
    - destruct (Z.eqb_spec (deref rest) 77) as [E'|E'].
      + change (1024 * 1024) with 1048576.
        rewrite (s32_id (_ * 1048576)) by lia. rewrite s32_id; lia.
      + rewrite s32_id; lia. }
  unfold parseval. destruct neg.
  - cbn [app deref hd tl]. change (45 =? 45) with true. cbv iota.
    apply Htail. auto.
  - cbn [app]. rewrite Hsign. apply Htail. auto.
Qed.

Lemma parseval_decimal_witness :
  parseval [45; 49; 50; 75] = -12288.
Proof.
  apply (parseval_decimal true [49; 50] [75]).
  - repeat constructor.
  - reflexivity.
  - discriminate.
  - discriminate.
  - vm_compute. reflexivity.
Defined.

(** X6. [parseval] after [0x]: digits and the lower-case letters [a] to [f]
    are read in base sixteen, with the same sign and [K]/[M] handling;
    an upper-case letter ends the number, so [0xFF] is 0. *)
Theorem parseval_hexadecimal (neg : bool) hs rest :
  Forall (fun c => is_hex_digit c = true) hs ->
  is_hex_digit (deref rest) = false ->
  digits_value 16 hex_val hs * qualifier (deref rest) < 2147483648 ->
  parseval ((if neg then [45] else []) ++ [48; 120] ++ hs ++ rest)
  = (if neg then -1 else 1) * digits_value 16 hex_val hs
    * qualifier (deref rest).
Proof.
  intros Hd Hr Hv.
  assert (Hnn : 0 <= digits_value 16 hex_val hs).
  { apply digits_value_nonneg; [lia|]. eapply Forall_impl; [exact Hd|].
    intros c Hc. cbn. unfold is_hex_digit in Hc. unfold hex_val.
    assert (48 <= c <= 57 \/ 97 <= c <= 102)
      by (apply orb_true_iff in Hc as [Hc|Hc];
          apply andb_true_iff in Hc as [Hc1 Hc2];
          apply Z.leb_le in Hc1, Hc2; lia).
    clear Hc. destruct (Z.leb_spec c 57); lia. }
  assert (Hq : 1 <= qualifier (deref rest)).
  { unfold qualifier. repeat case_match; lia. }
  assert (Hrun : parseval_hex (hs ++ rest) 0
                 = (digits_value 16 hex_val hs, rest)).
  { apply parseval_hex_ok; try done. fold (digits_value 16 hex_val hs). nia. }
  assert (Htail : forall sg, (sg = 1 \/ sg = -1) ->
    (let '(retval, valstring) := parseval_hex (hs ++ rest) 0 in
     let retval :=
       if deref valstring =? 75 then s32 (retval * 1024) else retval in
     let retval :=
       if deref valstring =? 77 then s32 (retval * (1024 * 1024))
       else retval in
     s32 (retval * sg))
    = sg * digits_value 16 hex_val hs * qualifier (deref rest)).
  { intros sg Hsg. rewrite Hrun. unfold qualifier in *.
    destruct (Z.eqb_spec (deref rest) 75) as [E|E].
    - rewrite E. cbn [Z.eqb Pos.eqb].
      rewrite (s32_id (_ * 1024)) by lia. rewrite s32_id; lia.
    - destruct (Z.eqb_spec (deref rest) 77) as [E'|E'].
      + change (1024 * 1024) with 1048576.
        rewrite (s32_id (_ * 1048576)) by lia. rewrite s32_id; lia.
      + rewrite s32_id; lia. }
  unfold parseval. destruct neg; cbn [app deref hd tl].
  - change (45 =? 45) with true. cbv iota.
    change ((48 =? 48) && (120 =? 120)) with true. cbv iota.
    apply Htail. auto.
  - change (48 =? 45) with false. cbv iota. cbn [deref hd tl].
    change ((48 =? 48) && (120 =? 120)) with true. cbv iota.
    apply Htail. auto.
Qed.

Lemma parseval_hexadecimal_witness :
  parseval [48; 120; 51; 52; 49; 53] = 0x3415
  /\ parseval [48; 120; 70; 70] = 0.
Proof.
  split.
  - apply (parseval_hexadecimal false [51; 52; 49; 53] []).
    + repeat constructor.
    + reflexivity.
    + vm_compute. reflexivity.
  - apply (parseval_hexadecimal false [] [70; 70]).
    + constructor.
    + reflexivity.
    + vm_compute. reflexivity.
Defined.

(** ** The mutators on chains *)

(** The loop writes the [next] field of the nodes it walks and no
    other. *)
Lemma reverse_loop_frame m fuel : forall R nx p nxt,
  chain nx p R -> (length R < fuel)%nat ->
  exists nx' q,
    reverse_loop fuel p nxt (with_next nx m) = Ok (q, with_next nx' m)
    /\ forall y, y ∉ R -> nx' !! y = nx !! y.
Proof.
  induction fuel as [|f IH]; intros R nx p nxt Hp Hfuel; [lia|].
  pose proof (chain_NoDup _ _ _ Hp) as Hnd.
  destruct R as [|x R]; cbn in Hp.
  - subst p. exists nx, nxt. split; [reflexivity | done].
  - destruct Hp as (-> & tmp & Hx & Hp). cbn [reverse_loop].
    mstep. mstep. fold (with_next (<[x := nxt]> nx) m).
    apply NoDup_cons in Hnd as [HxR Hnd].
    destruct (IH R (<[x := nxt]> nx) tmp (Some x)) as (nx' & q & Hrun & Hfr).
    + by apply lseg_insert_ne.
    + cbn in Hfuel. lia.
    + exists nx', q. split; [exact Hrun|].
      intros y Hy. apply not_elem_of_cons in Hy as [Hyx Hy].
      rewrite Hfr by done. by rewrite lookup_insert_ne.
Qed.

(** The pointer and the links of a chain are determined by its nodes. *)
Lemma chain_head nx p l : chain nx p l -> p = head l.
Proof. destruct l; cbn; [done | by intros (-> & _)]. Qed.

Lemma lseg_head nx p l q : lseg nx p l q -> l <> [] -> p = head l.
Proof. destruct l; cbn; [done | by intros (-> & _)]. Qed.

Lemma chain_links nx nx' p p' l :
  chain nx p l -> chain nx' p' l -> forall y, y ∈ l -> nx !! y = nx' !! y.
Proof.
  unfold chain. revert p p'. induction l as [|x l IH]; intros p p' H1 H2 y Hy.
  - by apply elem_of_nil in Hy.
  - destruct H1 as (-> & n & Hn & H1). destruct H2 as (-> & n' & Hn' & H2).
    apply elem_of_cons in Hy as [->|Hy]; [|by eapply IH].
    rewrite Hn, Hn'. do 2 f_equal.
    by rewrite (chain_head _ _ _ H1), (chain_head _ _ _ H2).
Qed.

(** X7. [core_list_reverse] on a NULL-terminated list returns its last node
    as the new head, the chain from there is the reversed list, and
    only the [next] fields of the list's own nodes are written. *)
Theorem core_list_reverse_spec m fuel lst L :
  chain (m_next m) lst L -> (length L < fuel)%nat ->
  exists nx',
    core_list_reverse fuel lst m = Ok (last L, with_next nx' m)
    /\ chain nx' (last L) (reverse L)
    /\ forall y, y ∉ L -> nx' !! y = m_next m !! y.
Proof.
  intros Hc Hfuel.
  destruct (core_list_reverse_ok m fuel lst L Hc Hfuel) as (nx' & q & Hrun & Hc').
  destruct (reverse_loop_frame m fuel L (m_next m) lst None Hc Hfuel)
    as (nx2 & q2 & Hrun2 & Hfr).
  rewrite with_next_id in Hrun2. unfold core_list_reverse in Hrun.
  rewrite Hrun in Hrun2. injection Hrun2 as <- <-.
  assert (Hq : q = last L).
  { rewrite (chain_head _ _ _ Hc'). rewrite head_reverse. reflexivity. }
  subst q. exists nx'. auto.
Qed.

Lemma core_list_reverse_spec_witness :
  exists nx',
    core_list_reverse 5 (Some 10) mem3 = Ok (Some 12, with_next nx' mem3)
    /\ chain nx' (Some 12) [12; 11; 10]
    /\ forall y, y ∉ [10; 11; 12] -> nx' !! y = m_next mem3 !! y.
Proof.
  apply (core_list_reverse_spec mem3 5 (Some 10) [10; 11; 12]).
  - exact mem3_chain.
  - cbn. lia.
Defined.

(** X8. Reversing twice restores the list: the head returned is the
    original head and the memory is exactly the original memory. *)
Theorem core_list_reverse_involutive m fuel lst L :
  chain (m_next m) lst L -> (length L < fuel)%nat ->
  (l1 <- core_list_reverse fuel lst ;; core_list_reverse fuel l1) m
  = Ok (lst, m).
Proof.
  intros Hc Hfuel.
  destruct (core_list_reverse_ok m fuel lst L Hc Hfuel) as (nx1 & q1 & Hrun1 & Hc1).
  destruct (reverse_loop_frame m fuel L (m_next m) lst None Hc Hfuel)
    as (nx1' & q1' & Hrun1' & Hfr1).
  rewrite with_next_id in Hrun1'. unfold core_list_reverse in Hrun1.
  rewrite Hrun1 in Hrun1'. injection Hrun1' as <- <-.
  assert (Hlen : (length (reverse L) < fuel)%nat) by (by rewrite length_reverse).
  destruct (core_list_reverse_ok (with_next nx1 m) fuel q1 (reverse L) Hc1 Hlen)
    as (nx2 & q2 & Hrun2 & Hc2).
  destruct (reverse_loop_frame m fuel (reverse L) nx1 q1 None Hc1 Hlen)
    as (nx2' & q2' & Hrun2' & Hfr2).
  unfold core_list_reverse in Hrun2.
  change (with_next nx2 (with_next nx1 m)) with (with_next nx2 m) in Hrun2.
  rewrite Hrun2 in Hrun2'. injection Hrun2' as <- <-.
  rewrite reverse_involutive in Hc2.
  erewrite bind_ok by exact Hrun1. unfold core_list_reverse. rewrite Hrun2.
  assert (Hq : q2 = lst).
  { by rewrite (chain_head _ _ _ Hc2), (chain_head _ _ _ Hc). }
  assert (Hnx : nx2 = m_next m).
  { apply map_eq. intros y. destruct (decide (y ∈ L)) as [Hy|Hy].
    - eapply chain_links; eassumption.
    - rewrite Hfr2 by (by rewrite elem_of_reverse). by apply Hfr1. }
  rewrite Hq, Hnx, with_next_id. reflexivity.
Qed.

Lemma core_list_reverse_involutive_witness :
  (l1 <- core_list_reverse 5 (Some 10) ;; core_list_reverse 5 l1) mem3
  = Ok (Some 10, mem3).
Proof.
  apply (core_list_reverse_involutive mem3 5 (Some 10) [10; 11; 12]).
  - exact mem3_chain.
  - cbn. lia.
Defined.

(** X9. [core_list_insert_new] with room left: the new node is taken at the
    node cursor and linked right after [insert_point]; it owns the
    record at the record cursor, which receives a copy of [info]; both
    cursors advance by one slot; no other node or record changes. *)
Theorem core_list_insert_new_spec m lst l1 p l2 info memblock datablock
    memblock_end datablock_end :
  chain (m_next m) lst (l1 ++ p :: l2) ->
  memblock ∉ l1 ++ p :: l2 ->
  (forall x i, x ∈ l1 ++ p :: l2 -> m_info m !! x = Some i -> i <> datablock) ->
  memblock + 1 < memblock_end -> datablock + 1 < datablock_end ->
  exists m',
    core_list_insert_new (Some p) info memblock datablock
      memblock_end datablock_end m
    = Ok ((Some memblock, memblock + 1, datablock + 1), m')
    /\ chain (m_next m') lst (l1 ++ p :: memblock :: l2)
    /\ node_data m' memblock = Some info
    /\ forall x, x ∈ l1 ++ p :: l2 -> node_data m' x = node_data m x.
Proof.
  intros Hc Hfresh Hrec Hm Hd.
  pose proof (chain_NoDup _ _ _ Hc) as Hnd.
  apply lseg_app in Hc as (r & H1 & (-> & n & Hp & H2)).
  apply NoDup_app in Hnd as (Hnd1 & Hdisj & Hnd2).
  apply NoDup_cons in Hnd2 as [Hp2 Hnd2].
  rewrite not_elem_of_app, not_elem_of_cons in Hfresh.
  destruct Hfresh as (Hf1 & Hfp & Hf2).
  unfold core_list_insert_new.
  replace (memblock_end <=? memblock + 1) with false by (symmetry; lia).
  replace (datablock_end <=? datablock + 1) with false by (symmetry; lia).
  destruct m as [nx inf d16 ix rs]; cbn in *.
  unfold copy_info. repeat mstep. unfold ret.
  eexists. split; [reflexivity|]. cbn [m_next].
  split; [|split].
  - apply lseg_app. exists (Some p). split.
    + apply lseg_insert_ne; [by intros ?; eapply Hdisj; [|left]|].
      by apply lseg_insert_ne.
    + cbn. split; [done|]. exists (Some memblock).
      split; [by rewrite lookup_insert_eq|].
      split; [done|]. exists n.
      split; [by rewrite lookup_insert_ne, lookup_insert_eq|].
      apply lseg_insert_ne; [done|]. by apply lseg_insert_ne.
  - unfold node_data. cbn. rewrite !lookup_insert_eq. by destruct info.
  - intros x Hx. unfold node_data. cbn.
    assert (x <> memblock).
    { intros ->. rewrite elem_of_app, elem_of_cons in Hx. tauto. }
    rewrite lookup_insert_ne by done.
    destruct (inf !! x) as [i|] eqn:Hi; [|done].
    assert (i <> datablock) by (by eapply Hrec).
    by rewrite !lookup_insert_ne.
Qed.

Lemma core_list_insert_new_spec_witness :
  exists m',
    core_list_insert_new (Some 11) (mk_data 7 8) 13 23 20 30 mem3
    = Ok ((Some 13, 14, 24), m')
    /\ chain (m_next m') (Some 10) [10; 11; 13; 12]
    /\ node_data m' 13 = Some (mk_data 7 8)
    /\ forall x, x ∈ [10; 11; 12] -> node_data m' x = node_data mem3 x.
Proof.
  apply (core_list_insert_new_spec mem3 (Some 10) [10] 11 [12]).
  - exact mem3_chain.
  - cbn [app]. rewrite !elem_of_cons, elem_of_nil. lia.
  - intros x i. cbn [app]. rewrite !elem_of_cons, elem_of_nil.
    intros [->|[->|[->|[]]]]; vm_compute; intros [= <-]; lia.
  - lia.
  - lia.
Defined.

(** X10. [core_list_remove(item)] unlinks the successor of [item] and
    returns it, after swapping the two nodes' records: in the list it
    is the record of [item] that disappears, and the returned node,
    whose [next] is NULL, carries it. *)
Theorem core_list_remove_spec m lst l1 n s l2 :
  chain (m_next m) lst (l1 ++ n :: s :: l2) ->
  is_Some (m_info m !! n) -> is_Some (m_info m !! s) ->
  exists m',
    core_list_remove (Some n) m = Ok (Some s, m')
    /\ chain (m_next m') lst (l1 ++ n :: l2)
    /\ m_next m' !! s = Some None
    /\ node_data m' n = node_data m s
    /\ node_data m' s = node_data m n
    /\ forall x, x ∈ l1 ++ l2 -> node_data m' x = node_data m x.
Proof.
  intros Hc [i Hi] [j Hj].
  pose proof (chain_NoDup _ _ _ Hc) as Hnd.
  apply lseg_app in Hc as (r & H1 & (-> & sn & Hn & (-> & nn & Hsn & H2))).
  apply NoDup_app in Hnd as (Hnd1 & Hdisj & Hnd2).
  apply NoDup_cons in Hnd2 as [Hn2 Hnd2].
  apply NoDup_cons in Hnd2 as [Hs2 Hnd2].
  rewrite not_elem_of_cons in Hn2. destruct Hn2 as [Hns Hn2].
  destruct m as [nx inf d16 ix rs]; cbn in *.
  unfold core_list_remove. repeat mstep. unfold ret.
  eexists. split; [reflexivity|]. cbn [m_next].
  split; [|split; [|split; [|split]]].
  - apply lseg_app. exists (Some n). split.
    + apply lseg_insert_ne; [by intros ?; eapply Hdisj; [|right; left]|].
      apply lseg_insert_ne; [by intros ?; eapply Hdisj; [|left]|]. done.
    + cbn. split; [done|]. exists nn.
      split; [by rewrite lookup_insert_ne, lookup_insert_eq|].
      apply lseg_insert_ne; [done|]. by apply lseg_insert_ne.
  - by rewrite lookup_insert_eq.
  - unfold node_data. cbn.
    by rewrite lookup_insert_ne, lookup_insert_eq, Hj.
  - unfold node_data. cbn. by rewrite lookup_insert_eq, Hi.
  - intros x Hx. unfold node_data. cbn.
    assert (x <> n /\ x <> s) as [? ?].
    { apply elem_of_app in Hx as [Hx|Hx].
      - split; intros ->; eapply Hdisj; try exact Hx; [left | right; left].
      - split; intros ->; done. }
    by rewrite !lookup_insert_ne.
Qed.

Lemma core_list_remove_spec_witness :
  exists m',
    core_list_remove (Some 10) mem3 = Ok (Some 11, m')
    /\ chain (m_next m') (Some 10) [10; 12]
    /\ m_next m' !! 11 = Some None
    /\ node_data m' 10 = node_data mem3 11
    /\ node_data m' 11 = node_data mem3 10
    /\ forall x, x ∈ [12] -> node_data m' x = node_data mem3 x.
Proof.
  apply (core_list_remove_spec mem3 (Some 10) [] 10 11 [12]).
  - exact mem3_chain.
  - eexists. reflexivity.
  - eexists. reflexivity.
Defined.

(** ** cmp_idx on a NULL context *)

Lemma regen_data_table :
  all_from (Z.to_nat 65536) (-32768) (fun d =>
    (regen_data (regen_data d) =? regen_data d)
    && (Z.land (regen_data d) 255 =? Z.land (Z.shiftr d 8) 255)
    && (Z.shiftr (regen_data d) 8 =? Z.shiftr d 8)
    && (-32768 <=? regen_data d) && (regen_data d <? 32768)) = true.
Proof. vm_compute. reflexivity. Qed.

Lemma regen_data_spec d :
  -32768 <= d < 32768 ->
  regen_data (regen_data d) = regen_data d
  /\ Z.land (regen_data d) 255 = Z.land (Z.shiftr d 8) 255
  /\ Z.shiftr (regen_data d) 8 = Z.shiftr d 8
  /\ -32768 <= regen_data d < 32768.
Proof.
  intros Hd. pose proof (all_from_spec _ _ _ regen_data_table d) as T.
  rewrite Z2Nat.id in T by lia. specialize (T ltac:(lia)). cbv beta in T.
  repeat (apply andb_true_iff in T as [T ?]).
  rewrite Z.eqb_eq in *. rewrite Z.leb_le, Z.ltb_lt in *. auto.
Qed.

(** X11. [cmp_idx] with a NULL context returns the difference of the two
    ranks and rewrites the [data16] of both records with the high byte
    copied into the low byte; a second call changes nothing more and
    returns the same value. *)
Theorem cmp_idx_null_spec m a b da db ia ib :
  m_data16 m !! a = Some da -> m_data16 m !! b = Some db ->
  m_idx m !! a = Some ia -> m_idx m !! b = Some ib ->
  -32768 <= da < 32768 -> -32768 <= db < 32768 ->
  -32768 <= ia < 32768 -> -32768 <= ib < 32768 ->
  exists m',
    cmp_idx a b RES_NULL m = Ok (ia - ib, m')
    /\ m' = with_data16 (<[b := regen_data db]>
                           (<[a := regen_data da]> (m_data16 m))) m
    /\ Z.land (regen_data da) 255 = Z.land (Z.shiftr da 8) 255
    /\ Z.shiftr (regen_data da) 8 = Z.shiftr da 8
    /\ cmp_idx a b RES_NULL m' = Ok (ia - ib, m').
Proof.
  intros Ha Hb Hia Hib Rda Rdb Ria Rib.
  destruct (regen_data_spec da Rda) as (Ia & La & Sa & _).
  destruct (regen_data_spec db Rdb) as (Ib & Lb & Sb & _).
  destruct m as [nx inf d16 ix rs]; cbn in *.
  eexists. split; [|split; [reflexivity|split; [exact La|split; [exact Sa|]]]].
  - unfold cmp_idx. destruct (decide (a = b)) as [->|Hab].
    + rewrite Ha in Hb. injection Hb as <-.
      rewrite Hia in Hib. injection Hib as <-.
      repeat mstep. rewrite s32_id by lia. rewrite Ia. reflexivity.
    + repeat mstep. rewrite s32_id by lia. reflexivity.
  - unfold cmp_idx. msimpl.
    destruct (decide (a = b)) as [->|Hab].
    + rewrite Ha in Hb. injection Hb as <-.
      rewrite Hia in Hib. injection Hib as <-.
      repeat mstep. rewrite s32_id by lia. unfold ret.
      rewrite !Ia. do 3 f_equal.
      apply map_eq. intros k. destruct (decide (k = b)) as [->|];
        by rewrite ?lookup_insert_eq, ?lookup_insert_ne.
    + repeat mstep. rewrite s32_id by lia. unfold ret.
      rewrite Ia, Ib. do 3 f_equal.
      apply map_eq. intros k.
      destruct (decide (k = b)) as [->|]; [by rewrite !lookup_insert_eq|].
      rewrite !(lookup_insert_ne _ b) by done.
      destruct (decide (k = a)) as [->|];
        by rewrite ?lookup_insert_eq, ?lookup_insert_ne.
Qed.

(** ** calc_func memoises *)

Lemma bind_inv {A B} (c : M A) (k : A -> M B) m b m' :
  bind c k m = Ok (b, m') ->
  exists a m1, c m = Ok (a, m1) /\ k a m1 = Ok (b, m').
Proof.
  unfold bind. destruct (c m) as [[a m1]| |]; [eauto | done | done].
Qed.

Lemma res_only_ret {A} (a : A) : res_only (ret a).
Proof. intros m a' m' [= <- <-]. exists (m_res m). by destruct m. Qed.

Lemma res_only_bind {A B} (c : M A) (k : A -> M B) :
  res_only c -> (forall a, res_only (k a)) -> res_only (bind c k).
Proof.
  intros Hc Hk m b m'. unfold bind.
  destruct (c m) as [[a m1]| |] eqn:E; [|done..].
  intros Hka. destruct (Hc _ _ _ E) as [r1 ->].
  destruct (Hk a _ _ _ Hka) as [r2 ->]. by exists r2.
Qed.

Lemma res_only_get_res : res_only get_res.
Proof. intros m a m' [= <- <-]. exists (m_res m). by destruct m. Qed.

Lemma res_only_put_res r : res_only (put_res r).
Proof. intros m a m' [= <- <-]. by exists r. Qed.

Lemma res_only_deref_res res : res_only (deref_res res).
Proof. destruct res; [done | apply res_only_get_res]. Qed.

Lemma res_only_lift_option {A} (o : option A) : res_only (lift_option o).
Proof. destruct o; [apply res_only_ret | done]. Qed.

Lemma res_only_core_bench_state fuel blksize s1 s2 step crc :
  res_only (core_bench_state fuel blksize s1 s2 step crc).
Proof.
  unfold core_bench_state.
  apply res_only_bind; [apply res_only_get_res|]. intros r.
  apply res_only_bind; [apply res_only_lift_option|]. intros [fc tc].
  apply res_only_bind; [apply res_only_lift_option|]. intros buf.
  apply res_only_bind; [apply res_only_lift_option|]. intros [fc' tc'].
  apply res_only_bind; [apply res_only_lift_option|]. intros buf'.
  apply res_only_bind; [apply res_only_put_res|]. intros _.
  apply res_only_ret.
Qed.

Lemma res_only_core_bench_matrix big seed crc :
  res_only (core_bench_matrix big seed crc).
Proof.
  unfold core_bench_matrix.
  apply res_only_bind; [apply res_only_get_res|]. intros r.
  destruct (matrix_test _ _ _ _ _ _) as [[t C] A].
  apply res_only_bind; [apply res_only_put_res|]. intros _.
  apply res_only_ret.
Qed.

Lemma s16_mod z : s16 z mod 65536 = z mod 65536.
Proof.
  unfold s16.
  replace ((z + 32768) mod 65536 - 32768)
    with (z + (- ((z + 32768) / 65536)) * 65536)
    by (pose proof (Z.div_mod (z + 32768) 65536); lia).
  apply Z.mod_add. lia.
Qed.

Lemma s16_testbit z n : 0 <= n < 16 -> Z.testbit (s16 z) n = Z.testbit z n.
Proof.
  intros Hn.
  rewrite <- (Z.mod_pow2_bits_low (s16 z) 16 n) by lia.
  rewrite <- (Z.mod_pow2_bits_low z 16 n) by lia.
  change (2 ^ 16) with 65536. by rewrite s16_mod.
Qed.

(** What [calc_func] stores is flagged, and carries the returned value
    in its low seven bits. *)
Lemma calc_stored data retval :
  let d' := s16 (Z.lor (Z.lor (Z.land data 65280) 128) (Z.land retval 127)) in
  cached d' = true /\ Z.land d' 127 = Z.land retval 127.
Proof.
  intros d'. split.
  - unfold cached. 
    assert (Z.land (Z.shiftr d' 7) 1 = 1) as ->; [|reflexivity].
    change 1 with (Z.ones 1) at 1. rewrite Z.land_ones by lia.
    rewrite <- Z.bit0_mod, Z.shiftr_spec by lia.
    unfold d'. rewrite s16_testbit by lia. rewrite !Z.lor_spec.
    change (Z.testbit 128 (0 + 7)) with true.
    by rewrite orb_true_r.
  - apply Z.bits_inj'. intros n Hn. rewrite !Z.land_spec.
    destruct (Z.ltb_spec n 7).
    + unfold d'. rewrite s16_testbit by lia.
      rewrite !Z.lor_spec, !Z.land_spec.
      replace (Z.testbit 65280 n) with false.
      2:{ symmetry. change 65280 with (Z.shiftl 255 8).
          apply Z.shiftl_spec_low. lia. }
      replace (Z.testbit 128 n) with false.
      2:{ symmetry. change 128 with (Z.shiftl 1 7).
          apply Z.shiftl_spec_low. lia. }
      rewrite andb_false_r. cbn [orb]. by rewrite <- andb_assoc, andb_diag.
    + replace (Z.testbit 127 n) with false.
      2:{ symmetry. change 127 with (Z.ones 7). apply Z.ones_spec_high. lia. }
      by rewrite !andb_false_r.
Qed.

Ltac solve_res_only :=
  repeat first
    [ apply res_only_ret | apply res_only_put_res | apply res_only_get_res
    | apply res_only_deref_res | apply res_only_lift_option
    | apply res_only_core_bench_state | apply res_only_core_bench_matrix
    | apply res_only_bind; [|intros]
    | case_match ].

Section Memo.
Variable matrix_big : Z -> Z.
Variable fuel : nat.

Local Abbreviation calc := (calc_func matrix_big fuel).

(** A flagged record is answered from its low seven bits. *)
Lemma calc_func_cached pdata res m d :
  m_data16 m !! pdata = Some d -> cached d = true ->
  calc pdata res m = Ok (Z.land d 127, m).
Proof.
  intros Hd Hc. unfold calc_func. mstep. unfold cached in Hc.
  rewrite Hc. reflexivity.
Qed.

Lemma calc_func_first pdata res m v m' :
  calc pdata res m = Ok (v, m') ->
  exists d' r,
    m' = with_data16 (<[pdata := d']> (m_data16 m)) (with_res r m)
    /\ m_data16 m' !! pdata = Some d'
    /\ cached d' = true /\ Z.land d' 127 = v.
Proof.
  unfold calc_func. intros Hrun.
  apply bind_inv in Hrun as (data & m0 & Hload & Hrun).
  assert (Hd : m_data16 m !! pdata = Some data /\ m0 = m) .
  { unfold load_data16 in Hload. destruct (m_data16 m !! pdata); [|done].
    by injection Hload as -> ->. }
  destruct Hd as [Hd ->]. clear Hload.
  destruct (negb (u8 (Z.land (Z.shiftr data 7) 1) =? 0)) eqn:Hc.
  - injection Hrun as <- <-. exists data, (m_res m).
    split; [|split; [exact Hd | split; [exact Hc | reflexivity]]].
    rewrite insert_id by done. by destruct m.
  - apply bind_inv in Hrun as (retval & m1 & E & Hrun).
    match type of E with
    | ?c m = _ => assert (Hro : res_only c)
    end.
    { solve_res_only. }
    destruct (Hro _ _ _ E) as [r1 ->].
    destruct res.
    { discriminate Hrun. }
    cbn in Hrun. injection Hrun as <- <-.
    pose proof (calc_stored data retval) as [Hc' Hv].
    eexists _, _. split; [reflexivity|].
    split; [cbn; by rewrite lookup_insert_eq|]. split; [exact Hc' | exact Hv].
Qed.

(** X12. [calc_func] memoises: whatever the first call on a record did, it
    leaves the record flagged with the value it returned, a value in
    [0, 128); it wrote that record's [data16] and the context only; and
    any later call returns the same value and changes nothing. *)
Theorem calc_func_memoises pdata res m v m' :
  calc_func matrix_big fuel pdata res m = Ok (v, m') ->
  0 <= v < 128
  /\ calc_func matrix_big fuel pdata res m' = Ok (v, m')
  /\ m_next m' = m_next m /\ m_info m' = m_info m /\ m_idx m' = m_idx m
  /\ forall a, a <> pdata -> m_data16 m' !! a = m_data16 m !! a.
Proof.
  intros Hrun.
  destruct (calc_func_first _ _ _ _ _ Hrun) as (d' & r & Hm & Hd & Hc & Hv).
  split.
  { rewrite <- Hv. change 127 with (Z.ones 7). rewrite Z.land_ones by lia.
    apply Z.mod_pos_bound. lia. }
  split.
  { rewrite <- Hv. by apply calc_func_cached. }
  subst m'. cbn. repeat split; try done.
  intros a Ha. by rewrite lookup_insert_ne.
Qed.

(** X13. Once [cmp_complex] has compared two records, comparing them again
    gives the same result and changes nothing. *)
Theorem cmp_complex_repeatable a b res m v m' :
  cmp_complex matrix_big fuel a b res m = Ok (v, m') ->
  cmp_complex matrix_big fuel a b res m' = Ok (v, m')
  /\ -127 <= v <= 127.
Proof.
  unfold cmp_complex. intros Hrun.
  apply bind_inv in Hrun as (v1 & m1 & E1 & Hrun).
  apply bind_inv in Hrun as (v2 & m2 & E2 & Hrun).
  injection Hrun as <- <-.
  destruct (calc_func_first _ _ _ _ _ E1) as (da & ra & Hma & Hda & Hca & Hva).
  destruct (calc_func_first _ _ _ _ _ E2) as (db & rb & Hmb & Hdb & Hcb & Hvb).
  assert (R1 : 0 <= v1 < 128).
  { rewrite <- Hva. change 127 with (Z.ones 7). rewrite Z.land_ones by lia.
    apply Z.mod_pos_bound. lia. }
  assert (R2 : 0 <= v2 < 128).
  { rewrite <- Hvb. change 127 with (Z.ones 7). rewrite Z.land_ones by lia.
    apply Z.mod_pos_bound. lia. }
  assert (M2 : calc b res m2 = Ok (v2, m2)).
  { rewrite <- Hvb. by apply calc_func_cached. }
  assert (Hfr : forall x, x <> b -> m_data16 m2 !! x = m_data16 m1 !! x).
  { intros x Hx. rewrite Hmb. cbn. by rewrite lookup_insert_ne. }
  split; [|rewrite s32_id; lia].
  assert (Ea : calc a res m2 = Ok (v1, m2)).
  { destruct (decide (a = b)) as [->|Hab].
    - assert (E2' : calc b res m1 = Ok (v1, m1)).
      { rewrite <- Hva. by apply calc_func_cached. }
      rewrite E2 in E2'. injection E2' as -> ->. exact M2.
    - rewrite <- Hva. apply calc_func_cached; [|exact Hca].
      by rewrite Hfr. }
  erewrite bind_ok by exact Ea. erewrite bind_ok by exact M2. reflexivity.
Qed.
End Memo.

(** ** The matrix kernels *)

Lemma for_range_ind {St : Type} (P : Z -> St -> Prop) (body : Z -> St -> St) :
  forall n i s,
  P i s ->
  (forall k s, i <= k < i + Z.of_nat n -> P k s -> P (k + 1) (body k s)) ->
  P (i + Z.of_nat n) (for_range n i body s).
Proof.
  induction n as [|n IH]; intros i s H0 Hstep.
  - cbn. by rewrite Z.add_0_r.
  - cbn [for_range]. replace (i + Z.of_nat (S n)) with (i + 1 + Z.of_nat n) by lia.
    apply IH.
    + apply Hstep; [lia | done].
    + intros k s' Hk. apply Hstep. lia.
Qed.

Lemma for_range_ext {St : Type} (b1 b2 : Z -> St -> St) :
  forall n i s,
  (forall k s, i <= k < i + Z.of_nat n -> b1 k s = b2 k s) ->
  for_range n i b1 s = for_range n i b2 s.
Proof.
  induction n as [|n IH]; intros i s H; [reflexivity|].
  cbn [for_range]. rewrite H by lia. apply IH. intros k s' Hk. apply H. lia.
Qed.

(** Two nested loops over [i, j < N] that each write cell [i * N + j]
    from its own previous content touch every cell below [N * N] once
    and no other. *)
Lemma nested_for_pointwise (N : Z) (g : Z -> Z -> Z -> Z) (M0 : gmap Z Z) :
  0 <= N ->
  let M' :=
    for_range (Z.to_nat N) 0 (fun i M =>
      for_range (Z.to_nat N) 0 (fun j M =>
        <[i * N + j := g i j (M !!! (i * N + j))]> M) M) M0 in
  (forall i j, 0 <= i < N -> 0 <= j < N ->
     M' !!! (i * N + j) = g i j (M0 !!! (i * N + j)))
  /\ (forall k, ~ (0 <= k < N * N) -> M' !!! k = M0 !!! k).
Proof.
  intros HN M'.
  set (Inv := fun (f : Z) (M : gmap Z Z) =>
    (forall i j, 0 <= i -> 0 <= j < N -> i * N + j < f ->
       M !!! (i * N + j) = g i j (M0 !!! (i * N + j)))
    /\ (forall k, ~ (0 <= k < f) -> M !!! k = M0 !!! k)).
  assert (H : Inv (N * N) M').
  { subst M'.
    pose proof (for_range_ind (fun i M => Inv (i * N) M)
      (fun i M => for_range (Z.to_nat N) 0 (fun j M =>
         <[i * N + j := g i j (M !!! (i * N + j))]> M) M)
      (Z.to_nat N) 0 M0) as Hout.
    cbn beta in Hout. rewrite Z2Nat.id in Hout by lia.
    replace ((0 + N) * N) with (N * N) in Hout by lia.
    apply Hout.
    - split; [|done]. intros i j ? ? ?.
      assert (0 <= i * N) by (apply Z.mul_nonneg_nonneg; lia). exfalso. lia.
    - intros i M Hi HM.
      pose proof (for_range_ind (fun j M => Inv (i * N + j) M)
        (fun j M => <[i * N + j := g i j (M !!! (i * N + j))]> M)
        (Z.to_nat N) 0 M) as Hin.
      cbn beta in Hin. rewrite Z2Nat.id in Hin by lia.
      replace (i * N + (0 + N)) with ((i + 1) * N) in Hin by lia.
      apply Hin.
      + by rewrite Z.add_0_r.
      + intros j M1 Hj [H1 H2]. split.
        * intros i' j' Hi' Hj' Hlt.
          destruct (decide (i' * N + j' = i * N + j)) as [E|E].
          -- assert (i' = i) as ->.
             { destruct (Z.lt_trichotomy i' i) as [Hlt'|[Heq|Hgt]];
                 [exfalso; nia | done | exfalso; nia]. }
             assert (j' = j) as -> by lia.
             rewrite lookup_total_insert_eq. f_equal.
             apply H2. lia.
          -- rewrite lookup_total_insert_ne by done. apply H1; [done..|lia].
        * intros k Hk. rewrite lookup_total_insert_ne by nia. apply H2. nia. }
  destruct H as [H1 H2]. split; [|exact H2].
  intros i j Hi Hj. apply H1; [lia | lia | nia].
Qed.

Lemma s16_add_neg a v :
  -32768 <= a < 32768 -> s16 (s16 (a + v) + s16 (- v)) = a.
Proof.
  intros Ha. unfold s16.
  pose proof (Z.div_mod (a + v + 32768) 65536 ltac:(lia)).
  pose proof (Z.mod_pos_bound (a + v + 32768) 65536 ltac:(lia)).
  pose proof (Z.div_mod (- v + 32768) 65536 ltac:(lia)).
  pose proof (Z.mod_pos_bound (- v + 32768) 65536 ltac:(lia)).
  set (q1 := (a + v + 32768) / 65536) in *.
  set (q2 := (- v + 32768) / 65536) in *.
  replace ((a + v + 32768) mod 65536 - 32768 + ((- v + 32768) mod 65536 - 32768)
           + 32768)
    with (a + 32768 + (- q1 - q2) * 65536) by lia.
  rewrite Z.mod_add by lia. rewrite Z.mod_small; lia.
Qed.

Section MatrixFacts.
Variable matrix_clip : Z -> Z -> Z.
Variable matrix_big : Z -> Z.

(** [matrix_add_const] adds [val] to each of the [N * N] cells, in
    ee_s16 arithmetic, and leaves the rest of the array alone. *)
Lemma matrix_add_const_spec N A val :
  0 <= N ->
  (forall k, 0 <= k < N * N ->
     matrix_add_const N A val !!! k = s16 (A !!! k + val))
  /\ (forall k, ~ (0 <= k < N * N) -> matrix_add_const N A val !!! k = A !!! k).
Proof.
  intros HN.
  destruct (nested_for_pointwise N (fun _ _ x => s16 (x + val)) A HN)
    as [H1 H2].
  split; [|exact H2]. intros k Hk.
  destruct (Z.eq_dec N 0) as [->|HN0]; [lia|].
  pose proof (Z.div_mod k N HN0). pose proof (Z.mod_pos_bound k N ltac:(lia)).
  assert (Hq : 0 <= k / N < N).
  { split; [apply Z.div_pos; lia | apply Z.div_lt_upper_bound; lia]. }
  replace k with (k / N * N + k mod N) at 1 2 by lia.
  apply (H1 (k / N) (k mod N)); lia.
Qed.

Lemma s32_add_l a b : s32 (s32 a + b) = s32 (a + b).
Proof.
  unfold s32.
  replace ((a + 2147483648) mod 4294967296 - 2147483648 + b + 2147483648)
    with ((a + 2147483648) mod 4294967296 + b) by lia.
  replace (a + b + 2147483648) with (a + 2147483648 + b) by lia.
  f_equal. rewrite Z.add_mod_idemp_l by lia. reflexivity.
Qed.

Lemma s32_add_r a b : s32 (a + s32 b) = s32 (a + b).
Proof. rewrite Z.add_comm, s32_add_l. f_equal. lia. Qed.

(** An accumulation loop into one cell is one store of the wrapped
    sum. *)
Lemma accumulate_cell (key : Z) (t : Z -> Z) (C : gmap Z Z) (n : nat) :
  for_range n 0 (fun k C => <[key := s32 (C !!! key + s32 (t k))]> C)
    (<[key := 0]> C)
  = <[key := s32 (sum_to n t)]> C.
Proof.
  pose proof (for_range_ind
    (fun k C' => C' = <[key := s32 (sum_to (Z.to_nat k) t)]> C)
    (fun k C => <[key := s32 (C !!! key + s32 (t k))]> C)
    n 0 (<[key := 0]> C)) as H.
  cbn beta in H. rewrite Z.add_0_l, Nat2Z.id in H. apply H.
  - reflexivity.
  - intros k C' Hk ->. rewrite lookup_total_insert_eq, insert_insert_eq.
    f_equal. rewrite s32_add_l, s32_add_r.
    replace (Z.to_nat (k + 1)) with (S (Z.to_nat k)) by lia.
    cbn [sum_to]. rewrite Z2Nat.id by lia. reflexivity.
Qed.

Lemma for_range_id {St : Type} (n : nat) (i : Z) (s : St) :
  for_range n i (fun _ s => s) s = s.
Proof. revert i. induction n as [|n IH]; intros i; [done | apply IH]. Qed.

(** One loop over [i < N] writing cell [i]. *)
Lemma for_pointwise (N : Z) (g : Z -> Z -> Z) (M0 : gmap Z Z) :
  0 <= N ->
  let M' := for_range (Z.to_nat N) 0 (fun i M => <[i := g i (M !!! i)]> M) M0 in
  (forall i, 0 <= i < N -> M' !!! i = g i (M0 !!! i))
  /\ (forall k, ~ (0 <= k < N) -> M' !!! k = M0 !!! k).
Proof.
  intros HN M'.
  pose proof (for_range_ind
    (fun f M => (forall i, 0 <= i < f -> M !!! i = g i (M0 !!! i))
                /\ (forall k, ~ (0 <= k < f) -> M !!! k = M0 !!! k))
    (fun i M => <[i := g i (M !!! i)]> M) (Z.to_nat N) 0 M0) as H.
  cbn beta in H. rewrite Z.add_0_l, Z2Nat.id in H by lia. apply H.
  - split; [intros; lia | done].
  - intros i M Hi [H1 H2]. split.
    + intros i' Hi'. destruct (decide (i' = i)) as [->|].
      * rewrite lookup_total_insert_eq. f_equal. apply H2. lia.
      * rewrite lookup_total_insert_ne by done. apply H1. lia.
    + intros k Hk. rewrite lookup_total_insert_ne by lia. apply H2. lia.
Qed.

Lemma cell_split N k :
  0 < N -> 0 <= k < N * N ->
  k = k / N * N + k mod N /\ 0 <= k / N < N /\ 0 <= k mod N < N.
Proof.
  intros HN Hk.
  pose proof (Z.div_mod k N ltac:(lia)).
  pose proof (Z.mod_pos_bound k N ltac:(lia)).
  split; [lia|]. split; [|lia].
  split; [apply Z.div_pos; lia | apply Z.div_lt_upper_bound; lia].
Qed.

(** [matrix_mul_const] stores [A[k] * val] in each of the [N * N] cells
    of C. *)
Lemma matrix_mul_const_spec N C A val :
  0 <= N ->
  (forall k, 0 <= k < N * N ->
     matrix_mul_const N C A val !!! k = s32 (A !!! k * val))
  /\ (forall k, ~ (0 <= k < N * N) -> matrix_mul_const N C A val !!! k = C !!! k).
Proof.
  intros HN.
  destruct (nested_for_pointwise N
              (fun i j _ => s32 (A !!! (i * N + j) * val)) C HN) as [H1 H2].
  split; [|exact H2]. intros k Hk.
  destruct (cell_split N k ltac:(nia) Hk) as (E & Hq & Hr).
  replace k with (k / N * N + k mod N) at 1 2 by lia.
  by apply (H1 (k / N) (k mod N)).
Qed.

Lemma matrix_mul_vect_cells N C A B :
  0 <= N ->
  (forall i, 0 <= i < N ->
     matrix_mul_vect N C A B !!! i
     = s32 (sum_to (Z.to_nat N) (fun j => A !!! (i * N + j) * B !!! j)))
  /\ (forall k, ~ (0 <= k < N) -> matrix_mul_vect N C A B !!! k = C !!! k).
Proof.
  intros HN. unfold matrix_mul_vect.
  rewrite (for_range_ext _
    (fun i C => <[i := (fun i _ =>
       s32 (sum_to (Z.to_nat N) (fun j => A !!! (i * N + j) * B !!! j)))
       i (C !!! i)]> C)).
  - apply (for_pointwise N (fun i _ =>
      s32 (sum_to (Z.to_nat N) (fun j => A !!! (i * N + j) * B !!! j))) C HN).
  - intros i C' Hi. cbn beta.
    apply (accumulate_cell i (fun j => A !!! (i * N + j) * B !!! j)).
Qed.

Lemma matrix_mul_matrix_cells N C A B :
  0 <= N ->
  (forall i j, 0 <= i < N -> 0 <= j < N ->
     matrix_mul_matrix N C A B !!! (i * N + j)
     = s32 (sum_to (Z.to_nat N)
              (fun k => A !!! (i * N + k) * B !!! (k * N + j))))
  /\ (forall k, ~ (0 <= k < N * N) -> matrix_mul_matrix N C A B !!! k = C !!! k).
Proof.
  intros HN. unfold matrix_mul_matrix.
  rewrite (for_range_ext _
    (fun i C => for_range (Z.to_nat N) 0 (fun j C =>
       <[i * N + j := (fun i j _ =>
          s32 (sum_to (Z.to_nat N)
                 (fun k => A !!! (i * N + k) * B !!! (k * N + j))))
          i j (C !!! (i * N + j))]> C) C)).
  - apply (nested_for_pointwise N (fun i j _ =>
      s32 (sum_to (Z.to_nat N)
             (fun k => A !!! (i * N + k) * B !!! (k * N + j)))) C HN).
  - intros i C' Hi. apply for_range_ext. intros j C'' Hj. cbn beta.
    apply (accumulate_cell (i * N + j)
             (fun k => A !!! (i * N + k) * B !!! (k * N + j))).
Qed.

Lemma matrix_mul_matrix_bitextract_cells N C A B :
  0 <= N ->
  (forall k, 0 <= k < N * N ->
     matrix_mul_matrix_bitextract N C A B !!! k = 0)
  /\ (forall k, ~ (0 <= k < N * N) ->
        matrix_mul_matrix_bitextract N C A B !!! k = C !!! k).
Proof.
  intros HN. unfold matrix_mul_matrix_bitextract.
  rewrite (for_range_ext _
    (fun i C => for_range (Z.to_nat N) 0 (fun j C =>
       <[i * N + j := (fun _ _ _ => 0) i j (C !!! (i * N + j))]> C) C)).
  - destruct (nested_for_pointwise N (fun _ _ _ => 0) C HN) as [H1 H2].
    split; [|exact H2]. intros k Hk.
    destruct (cell_split N k ltac:(nia) Hk) as (E & Hq & Hr).
    rewrite E. by apply H1.
  - intros i C' Hi. apply for_range_ext. intros j C'' Hj. cbn beta zeta.
    apply for_range_id.
Qed.

Lemma matrix_add_const_undo N A val :
  0 <= N ->
  (forall k, 0 <= k < N * N -> -32768 <= A !!! k < 32768) ->
  forall k,
    matrix_add_const N (matrix_add_const N A val) (s16 (- val)) !!! k
    = A !!! k.
Proof.
  intros HN HA k.
  destruct (matrix_add_const_spec N A val HN) as [H1 H2].
  destruct (matrix_add_const_spec N (matrix_add_const N A val) (s16 (- val)) HN)
    as [H3 H4].
  destruct (decide (0 <= k < N * N)) as [Hk|Hk].
  - rewrite H3, H1 by done. rewrite Z.add_comm.
    rewrite <- (s16_add_neg (A !!! k) val) at 2 by (by apply HA).
    f_equal. lia.
  - by rewrite H4, H2.
Qed.

(** X14. [matrix_test] gives matrix A back with its original contents, as
    its comment promises: the second [matrix_add_const] undoes the
    first, whatever [val] is. *)
Theorem matrix_test_restores_A N C A B val :
  0 <= N ->
  (forall k, 0 <= k < N * N -> -32768 <= A !!! k < 32768) ->
  forall k, snd (matrix_test matrix_big N C A B val) !!! k = A !!! k.
Proof.
  intros HN HA k. unfold matrix_test. cbn [snd].
  by apply matrix_add_const_undo.
Qed.
End MatrixFacts.

(** X15. [matrix_mul_vect] stores in [C[i]], for [i < N], the product of row
    [i] of A with the first [N] cells of B, modulo 2^32; the other
    cells of C keep their content. *)
Theorem matrix_mul_vect_spec N C A B :
  0 <= N ->
  (forall i, 0 <= i < N ->
     matrix_mul_vect N C A B !!! i
     = s32 (sum_to (Z.to_nat N) (fun j => A !!! (i * N + j) * B !!! j)))
  /\ (forall k, ~ (0 <= k < N) -> matrix_mul_vect N C A B !!! k = C !!! k).
Proof. apply matrix_mul_vect_cells. Qed.

(** X16. [matrix_mul_matrix] stores in cell [(i, j)] of C the scalar product
    of row [i] of A and column [j] of B, modulo 2^32. *)
Theorem matrix_mul_matrix_spec N C A B :
  0 <= N ->
  (forall i j, 0 <= i < N -> 0 <= j < N ->
     matrix_mul_matrix N C A B !!! (i * N + j)
     = s32 (sum_to (Z.to_nat N)
              (fun k => A !!! (i * N + k) * B !!! (k * N + j))))
  /\ (forall k, ~ (0 <= k < N * N) -> matrix_mul_matrix N C A B !!! k = C !!! k).
Proof. apply matrix_mul_matrix_cells. Qed.

(** X17. With the accumulation commented out, [matrix_mul_matrix_bitextract]
    only clears the [N * N] cells of C, whatever A and B hold. *)
Theorem matrix_mul_matrix_bitextract_clears N C A B :
  0 <= N ->
  (forall k, 0 <= k < N * N ->
     matrix_mul_matrix_bitextract N C A B !!! k = 0)
  /\ (forall k, ~ (0 <= k < N * N) ->
        matrix_mul_matrix_bitextract N C A B !!! k = C !!! k).
Proof. apply matrix_mul_matrix_bitextract_cells. Qed.

Lemma matrix_sum_agree N C1 C2 clipval :
  0 <= N ->
  (forall k, 0 <= k < N * N -> C1 !!! k = C2 !!! k) ->
  matrix_sum N C1 clipval = matrix_sum N C2 clipval.
Proof.
  intros HN H. unfold matrix_sum.
  rewrite (for_range_ext _
    (fun i st => for_range (Z.to_nat N) 0 (fun j st =>
       let '(tmp, prev, r) := st in
       let cur := C2 !!! (i * N + j) in
       let tmp := s32 (tmp + cur) in
       if clipval <? tmp then (0, cur, s16 (r + 10))
       else (tmp, cur, s16 (r + (if prev <? cur then 1 else 0)))) st));
    [reflexivity|].
  intros i st Hi. apply for_range_ext. intros j [[tmp prev] r] Hj.
  rewrite H by nia. reflexivity.
Qed.

Section MatrixRepeat.
Variable matrix_big : Z -> Z.

(** The checksum of [matrix_test] is a function of the contents of A
    and B: it does not depend on what C held. *)
Lemma matrix_test_crc_ext N C1 C2 A1 A2 B1 B2 val :
  0 <= N ->
  (forall k, A1 !!! k = A2 !!! k) -> (forall k, B1 !!! k = B2 !!! k) ->
  fst (fst (matrix_test matrix_big N C1 A1 B1 val))
  = fst (fst (matrix_test matrix_big N C2 A2 B2 val)).
Proof.
  intros HN HA HB. unfold matrix_test. cbn [fst].
  set (A1' := matrix_add_const N A1 val).
  set (A2' := matrix_add_const N A2 val).
  assert (HA' : forall k, A1' !!! k = A2' !!! k).
  { intros k. subst A1' A2'.
    destruct (matrix_add_const_spec N A1 val HN) as [H1 H2].
    destruct (matrix_add_const_spec N A2 val HN) as [H3 H4].
    destruct (decide (0 <= k < N * N)).
    - by rewrite H1, H3, HA.
    - by rewrite H2, H4. }
  set (Ca1 := matrix_mul_const N C1 A1' val).
  set (Ca2 := matrix_mul_const N C2 A2' val).
  assert (Ha : forall k, 0 <= k < N * N -> Ca1 !!! k = Ca2 !!! k).
  { intros k Hk. subst Ca1 Ca2.
    destruct (matrix_mul_const_spec N C1 A1' val HN) as [H1 _].
    destruct (matrix_mul_const_spec N C2 A2' val HN) as [H3 _].
    by rewrite H1, H3, HA'. }
  set (Cb1 := matrix_mul_vect N Ca1 A1' B1).
  set (Cb2 := matrix_mul_vect N Ca2 A2' B2).
  assert (Hb : forall k, 0 <= k < N * N -> Cb1 !!! k = Cb2 !!! k).
  { intros k Hk. subst Cb1 Cb2.
    destruct (matrix_mul_vect_cells N Ca1 A1' B1 HN) as [H1 H2].
    destruct (matrix_mul_vect_cells N Ca2 A2' B2 HN) as [H3 H4].
    destruct (decide (0 <= k < N)).
    - rewrite H1, H3 by done. f_equal.
      clear -HA' HB. induction (Z.to_nat N) as [|n IH]; [done|].
      cbn [sum_to]. by rewrite IH, HA', HB.
    - rewrite H2, H4 by done. by apply Ha. }
  set (Cc1 := matrix_mul_matrix N Cb1 A1' B1).
  set (Cc2 := matrix_mul_matrix N Cb2 A2' B2).
  assert (Hc : forall k, 0 <= k < N * N -> Cc1 !!! k = Cc2 !!! k).
  { intros k Hk. subst Cc1 Cc2.
    destruct (matrix_mul_matrix_cells N Cb1 A1' B1 HN) as [H1 _].
    destruct (matrix_mul_matrix_cells N Cb2 A2' B2 HN) as [H3 _].
    destruct (cell_split N k ltac:(nia) Hk) as (E & Hq & Hr).
    rewrite E. rewrite H1, H3 by done. f_equal.
    clear -HA' HB. induction (Z.to_nat N) as [|n IH]; [done|].
    cbn [sum_to]. by rewrite IH, HA', HB. }
  set (Cd1 := matrix_mul_matrix_bitextract N Cc1 A1' B1).
  set (Cd2 := matrix_mul_matrix_bitextract N Cc2 A2' B2).
  assert (Hd : forall k, 0 <= k < N * N -> Cd1 !!! k = Cd2 !!! k).
  { intros k Hk. subst Cd1 Cd2.
    destruct (matrix_mul_matrix_bitextract_cells N Cc1 A1' B1 HN) as [H1 _].
    destruct (matrix_mul_matrix_bitextract_cells N Cc2 A2' B2 HN) as [H3 _].
    by rewrite H1, H3. }
  rewrite (matrix_sum_agree N Ca1 Ca2 _ HN Ha).
  rewrite (matrix_sum_agree N Cb1 Cb2 _ HN Hb).
  rewrite (matrix_sum_agree N Cc1 Cc2 _ HN Hc).
  rewrite (matrix_sum_agree N Cd1 Cd2 _ HN Hd).
  reflexivity.
Qed.

(** X18. [core_bench_matrix] is repeatable: a second call with the same seed
    and crc returns the same value, because the first one gave A back
    and what C holds does not matter. *)
Theorem core_bench_matrix_repeatable seed crc m v m' :
  0 <= mat_N (m_res m) ->
  (forall k, 0 <= k < mat_N (m_res m) * mat_N (m_res m) ->
     -32768 <= mat_A (m_res m) !!! k < 32768) ->
  core_bench_matrix matrix_big seed crc m = Ok (v, m') ->
  exists m'', core_bench_matrix matrix_big seed crc m' = Ok (v, m'').
Proof.
  intros HN HA Hrun. unfold core_bench_matrix in *.
  apply bind_inv in Hrun as (r & m0 & [= <- <-] & Hrun).
  destruct (matrix_test matrix_big (mat_N (m_res m)) (mat_C (m_res m))
              (mat_A (m_res m)) (mat_B (m_res m)) seed)
    as [[t C'] A'] eqn:E1.
  injection Hrun as <- <-.
  unfold bind at 1. unfold get_res at 1.
  cbn [m_res with_res res_with_mat mat_N mat_A mat_B mat_C].
  destruct (matrix_test matrix_big (mat_N (m_res m)) C' A'
              (mat_B (m_res m)) seed) as [[t2 C''] A''] eqn:E2.
  eexists. unfold bind, put_res, ret. do 3 f_equal.
  pose proof (matrix_test_crc_ext (mat_N (m_res m)) C' (mat_C (m_res m))
                A' (mat_A (m_res m)) (mat_B (m_res m)) (mat_B (m_res m))
                seed HN) as Hext.
  rewrite E1, E2 in Hext. cbn [fst] in Hext. apply Hext; [|done].
  intros k.
  pose proof (matrix_add_const_undo (mat_N (m_res m)) (mat_A (m_res m)) seed
                HN HA k) as Hr.
  unfold matrix_test in E1. injection E1 as _ _ <-. exact Hr.
Qed.
End MatrixRepeat.

Lemma s16_range z : -32768 <= s16 z < 32768.
Proof. unfold s16. pose proof (Z.mod_pos_bound (z + 32768) 65536). lia. Qed.

Lemma matrix_dim_loop_spec blksize K : forall fuel i,
  0 < blksize -> blksize <= 8 * K * K -> K <= 23170 ->
  0 <= i <= K -> K - i < Z.of_nat fuel ->
  (i = 0 \/ 8 * (i - 1) * (i - 1) < blksize) ->
  let r := matrix_dim_loop fuel blksize i (8 * i * i) in
  1 <= r <= K /\ 8 * (r - 1) * (r - 1) < blksize <= 8 * r * r.
Proof.
  induction fuel as [|fuel IH]; intros i Hb HK HK2 Hi Hf Hinv; [lia|].
  cbn [matrix_dim_loop]. destruct (Z.ltb_spec (8 * i * i) blksize) as [Hlt|Hge].
  - assert (i < K) by nia.
    assert (E1 : u32 (i + 1) = i + 1) by (unfold u32; apply Z.mod_small; lia).
    rewrite E1.
    assert (E2 : u32 ((i + 1) * (i + 1) * 2 * 4) = 8 * (i + 1) * (i + 1)).
    { unfold u32. rewrite Z.mod_small; [lia|]. nia. }
    rewrite E2. apply IH; lia.
  - cbv zeta. destruct Hinv as [->|Hinv]; [lia|]. split; [|lia].
    destruct (Z.eq_dec i 0) as [->|]; lia.
Qed.

Section MatrixInit.
Variable matrix_clip : Z -> Z -> Z.

(** X19. [core_init_matrix] picks the dimension [N] with
    [8 * N^2 < blksize <= 8 * (N + 1)^2], so that A and B (two bytes a
    cell) and C (four bytes a cell) fit in the block, and every cell of
    A and B holds an ee_s16 value. *)
Theorem core_init_matrix_dim fuel blksize seed K :
  0 < blksize -> blksize <= 8 * K * K -> 0 <= K <= 23170 ->
  K < Z.of_nat fuel ->
  let '(N, A, B) := core_init_matrix matrix_clip fuel blksize seed in
  0 <= N /\ 8 * N * N < blksize <= 8 * (N + 1) * (N + 1)
  /\ (forall k, -32768 <= A !!! k < 32768)
  /\ (forall k, -32768 <= B !!! k < 32768).
Proof.
  intros Hb HK HK2 Hf. unfold core_init_matrix.
  pose proof (matrix_dim_loop_spec blksize K fuel 0 Hb HK ltac:(lia)
                ltac:(lia) ltac:(lia) ltac:(auto)) as Hdim.
  change (8 * 0 * 0) with 0 in Hdim. cbv zeta in Hdim.
  set (i := matrix_dim_loop fuel blksize 0 0) in *.
  assert (EN : u32 (i - 1) = i - 1) by (unfold u32; apply Z.mod_small; lia).
  rewrite EN.
  set (body := fun (i0 : Z) (st : Z * Z * gmap Z Z * gmap Z Z) => _).
  set (st0 := (_, 1, (∅ : gmap Z Z), (∅ : gmap Z Z))).
  set (Inv := fun (st : Z * Z * gmap Z Z * gmap Z Z) =>
    let '(_, _, A, B) := st in
    (forall k, -32768 <= A !!! k < 32768)
    /\ (forall k, -32768 <= B !!! k < 32768)).
  assert (H1 : Inv (for_range (Z.to_nat (i - 1)) 0 body st0)).
  { apply (for_range_ind (fun _ st => Inv st)).
    - subst st0. cbn. split; intros k; rewrite lookup_total_empty; cbn; lia.
    - intros i0 st Hi0 Hst. subst body. cbn beta.
      apply (for_range_ind (fun _ st => Inv st)); [exact Hst|].
      intros j [[[sd order] A] B] Hj [HA HB]. cbn. split; intros k.
      + destruct (decide (k = i0 * (i - 1) + j)) as [->|].
        * rewrite lookup_total_insert_eq. apply s16_range.
        * by rewrite lookup_total_insert_ne.
      + destruct (decide (k = i0 * (i - 1) + j)) as [->|].
        * rewrite lookup_total_insert_eq. apply s16_range.
        * by rewrite lookup_total_insert_ne. }
  destruct (for_range (Z.to_nat (i - 1)) 0 body st0) as [[[sd order] A] B].
  destruct H1 as [HA HB].
  split; [lia|]. split; [|done].
  replace (i - 1 + 1) with i by lia. lia.
Qed.
End MatrixInit.

(** ** The state machine on one token *)

Lemma holds_cons buf p c w :
  holds buf p (c :: w) <-> buf !!! p = c /\ holds buf (p + 1) w.
Proof.
  unfold holds. split.
  - intros H. split.
    + specialize (H 0%nat c eq_refl). by rewrite Z.add_0_r in H.
    + intros i c' Hi. specialize (H (S i) c' Hi).
      by replace (p + 1 + Z.of_nat i) with (p + Z.of_nat (S i)) by lia.
  - intros [H0 H] [|i] c' Hi.
    + injection Hi as <-. by rewrite Z.add_0_r.
    + replace (p + Z.of_nat (S i)) with (p + 1 + Z.of_nat i) by lia.
      by apply H.
Qed.

Lemma holds_app buf p w1 w2 :
  holds buf p (w1 ++ w2)
  <-> holds buf p w1 /\ holds buf (p + Z.of_nat (length w1)) w2.
Proof.
  revert p. induction w1 as [|c w1 IH]; intros p.
  - cbn. rewrite Z.add_0_r. split; [intros H; split; [by intros ? ? ?|done] | by intros [_ H]].
  - cbn [app length]. rewrite !holds_cons, IH.
    replace (p + 1 + Z.of_nat (length w1)) with (p + Z.of_nat (S (length w1)))
      by lia.
    tauto.
Qed.

(** The scan of one token stops at the latest at the terminating NUL,
    and consumes at least one byte unless it starts on the NUL. *)
Lemma core_state_transition_loop_bounded buf z : forall fuel str state tc,
  nul_at buf str z -> z - str < Z.of_nat fuel ->
  exists st str' tc',
    core_state_transition_loop fuel buf str state tc = Some (st, str', tc')
    /\ str <= str' <= z
    /\ (str < z -> state <> CORE_INVALID -> str < str').
Proof.
  induction fuel as [|fuel IH]; intros str state tc (Hle & Hz & Hnz) Hf; [lia|].
  cbn [core_state_transition_loop].
  destruct (Z.eqb_spec (buf !!! str) 0) as [E0|E0].
  - cbn [orb]. assert (str = z) as ->.
    { destruct (Z.eq_dec str z); [done|]. exfalso. apply (Hnz str); [lia|done]. }
    eexists _, _, _. split; [reflexivity|]. split; [lia | intros; lia].
  - cbn [orb]. assert (Hlt : str < z).
    { destruct (Z.eq_dec str z) as [->|]; [done|lia]. }
    destruct (is_invalid state) eqn:Hinv.
    { eexists _, _, _. split; [reflexivity|]. split; [lia|].
      intros _ Hs. by destruct state. }
    destruct (buf !!! str =? 44).
    { eexists _, _, _. split; [reflexivity|]. split; [lia | intros; lia]. }
    destruct (transition_step state (buf !!! str) tc) as [state' tc'].
    destruct (IH (str + 1) state' tc') as (st & str' & tc2 & Hrun & Hb & _).
    + split; [lia|]. split; [done|]. intros k Hk. apply Hnz. lia.
    + lia.
    + eexists _, _, _. split; [exact Hrun|]. split; [lia | intros; lia].
Qed.

(** X20. [core_state_transition] never moves the input pointer past the
    NUL that ends the input, and always moves it forward when the
    input is not exhausted. *)
Theorem core_state_transition_bounded fuel buf instr z tc :
  nul_at buf instr z -> z - instr < Z.of_nat fuel ->
  exists st instr' tc',
    core_state_transition fuel buf instr tc = Some (st, instr', tc')
    /\ instr <= instr' <= z
    /\ (instr < z -> instr < instr').
Proof.
  intros Hn Hf.
  destruct (core_state_transition_loop_bounded buf z fuel instr CORE_START tc
              Hn Hf) as (st & str' & tc' & Hrun & Hb & Hp).
  exists st, str', tc'. split; [exact Hrun|]. split; [done|].
  intros H. by apply Hp.
Qed.

Lemma state_scan_loop_some buf z : forall fuel p fc tc,
  nul_at buf p z -> z - p < Z.of_nat fuel ->
  is_Some (state_scan_loop fuel buf p fc tc).
Proof.
  induction fuel as [|fuel IH]; intros p fc tc (Hle & Hz & Hnz) Hf; [lia|].
  cbn [state_scan_loop].
  destruct (Z.eqb_spec (buf !!! p) 0) as [E0|E0]; [by eexists|].
  assert (Hlt : p < z) by (destruct (Z.eq_dec p z) as [->|]; [done|lia]).
  destruct (core_state_transition_loop_bounded buf z (S fuel) p CORE_START tc)
    as (st & p' & tc' & Hrun & Hb & Hp); [done | lia |].
  unfold core_state_transition. rewrite Hrun. apply IH.
  - split; [lia|]. split; [done|]. intros k Hk. apply Hnz. lia.
  - specialize (Hp Hlt ltac:(done)). lia.
Qed.

(** X21. The scanning loop of [core_bench_state] terminates on every
    NUL-terminated input, whatever the bytes before the NUL are. *)
Theorem state_scan_loop_terminates buf z fuel p fc tc :
  nul_at buf p z -> z - p < Z.of_nat fuel ->
  is_Some (state_scan_loop fuel buf p fc tc).
Proof. apply state_scan_loop_some. Qed.

(** *** Tokens *)

Lemma loop_step buf str state tc fuel c :
  buf !!! str = c -> c <> 0 -> c <> 44 -> state <> CORE_INVALID ->
  core_state_transition_loop (S fuel) buf str state tc
  = core_state_transition_loop fuel buf (str + 1)
      (fst (transition_step state c tc)) (snd (transition_step state c tc)).
Proof.
  intros E H0 H44 Hs. subst c. cbn [core_state_transition_loop].
  replace (buf !!! str =? 0) with false by (symmetry; by apply Z.eqb_neq).
  replace (is_invalid state) with false by (by destruct state).
  replace (buf !!! str =? 44) with false by (symmetry; by apply Z.eqb_neq).
  cbn [orb]. by destruct (transition_step state (buf !!! str) tc).
Qed.

Lemma loop_comma buf str state tc fuel :
  buf !!! str = 44 -> state <> CORE_INVALID ->
  core_state_transition_loop (S fuel) buf str state tc
  = Some (state, str + 1, tc).
Proof.
  intros E Hs. cbn [core_state_transition_loop]. rewrite E.
  replace (is_invalid state) with false by (by destruct state). reflexivity.
Qed.

Lemma loop_invalid buf str tc fuel :
  core_state_transition_loop (S fuel) buf str CORE_INVALID tc
  = Some (CORE_INVALID, str, tc).
Proof.
  cbn [core_state_transition_loop is_invalid]. by rewrite orb_true_r.
Qed.

Lemma digit_char c : ee_isdigit c = true -> c <> 0 /\ c <> 44 /\ c <> 46.
Proof.
  unfold ee_isdigit. intros H. apply andb_true_iff in H as [H1 H2].
  apply Z.leb_le in H1, H2. lia.
Qed.

(** Digits keep the machine in INT, FLOAT and SCIENTIFIC, and are not
    counted. *)
Lemma loop_digits buf state tc ds : forall fuel str,
  state = CORE_INT \/ state = CORE_FLOAT \/ state = CORE_SCIENTIFIC ->
  Forall (fun c => ee_isdigit c = true) ds -> holds buf str ds ->
  core_state_transition_loop (length ds + fuel) buf str state tc
  = core_state_transition_loop fuel buf (str + Z.of_nat (length ds)) state tc.
Proof.
  induction ds as [|c ds IH]; intros fuel str Hs Hd Hh.
  - cbn. by rewrite Z.add_0_r.
  - apply Forall_cons in Hd as [Hc Hd]. apply holds_cons in Hh as [Hc0 Hh].
    destruct (digit_char c Hc) as (H0 & H44 & H46).
    cbn [length Nat.add].
    rewrite (loop_step buf str state tc _ c) by (try done; by destruct Hs as [-> | [-> | ->]]).
    assert (E : transition_step state c tc = (state, tc)).
    { destruct Hs as [-> | [-> | ->]]; cbn; rewrite ?Hc; cbn;
        repeat (match goal with
                | |- context [?x =? ?y] =>
                  replace (x =? y) with false
                    by (symmetry; apply Z.eqb_neq;
                        unfold ee_isdigit in Hc;
                        apply andb_true_iff in Hc as [Hc1 Hc2];
                        apply Z.leb_le in Hc1, Hc2; lia)
                end); reflexivity. }
    rewrite E. cbn [fst snd]. rewrite IH by done.
    f_equal. lia.
Qed.

(** X22. An optional sign followed by at least one digit and a comma is an
    integer: the machine ends in CORE_INT with the pointer after the
    comma, having counted one transition out of START and, after a
    sign, one out of S1. *)
Theorem state_int_token buf instr tc (sign : option Z) d ds fuel :
  (sign = None \/ sign = Some 43 \/ sign = Some 45) ->
  Forall (fun c => ee_isdigit c = true) (d :: ds) ->
  holds buf instr (option_list sign ++ d :: ds ++ [44]) ->
  (length (option_list sign ++ d :: ds) < fuel)%nat ->
  core_state_transition fuel buf instr tc
  = Some (CORE_INT,
          instr + Z.of_nat (length (option_list sign ++ d :: ds)) + 1,
          match sign with
          | None => count_incr tc CORE_START
          | Some _ => count_incr (count_incr tc CORE_START) CORE_S1
          end).
Proof.
  intros Hsign Hd Hh Hf. unfold core_state_transition.
  apply Forall_cons in Hd as [Hc Hd].
  destruct (digit_char d Hc) as (H0 & H44 & H46).
  assert (Hrest : forall fuel' p tc',
    holds buf p (ds ++ [44]) -> (length ds < fuel')%nat ->
    core_state_transition_loop fuel' buf p CORE_INT tc'
    = Some (CORE_INT, p + Z.of_nat (length ds) + 1, tc')).
  { intros fuel' p tc' Hh' Hf'. apply holds_app in Hh' as [Hh1 Hh2].
    apply holds_cons in Hh2 as [Hcomma _].
    replace fuel' with (length ds + S (fuel' - length ds - 1))%nat by lia.
    rewrite loop_digits by auto. by rewrite loop_comma. }
  destruct Hsign as [->|Hsign].
  - cbn [option_list option_rect app length] in *. apply holds_cons in Hh as [Hd0 Hh].
    destruct fuel as [|fuel]; [lia|].
    rewrite (loop_step buf instr CORE_START tc fuel d) by done.
    cbn [transition_step]. rewrite Hc. cbn [fst snd].
    rewrite Hrest by (done || lia). do 3 f_equal. lia.
  - assert (exists s, sign = Some s /\ (s = 43 \/ s = 45)) as (s & -> & Hs)
      by (destruct Hsign as [->| ->]; eauto).
    cbn [option_list option_rect app length] in *.
    apply holds_cons in Hh as [Hs0 Hh]. apply holds_cons in Hh as [Hd0 Hh].
    destruct fuel as [|[|fuel]]; [lia..|].
    rewrite (loop_step buf instr CORE_START tc _ s) by (done || lia).
    assert (E1 : transition_step CORE_START s tc
                 = (CORE_S1, count_incr tc CORE_START)).
    { cbn. destruct Hs as [-> | ->]; reflexivity. }
    rewrite E1. cbn [fst snd].
    rewrite (loop_step buf (instr + 1) CORE_S1 _ fuel d) by done.
    cbn [transition_step]. rewrite Hc. cbn [fst snd].
    rewrite Hrest by (done || lia). do 3 f_equal. lia.
Qed.

Lemma reaches_trans buf n1 n2 a b c :
  reaches buf n1 a b -> reaches buf n2 b c -> reaches buf (n1 + n2) a c.
Proof.
  intros H1 H2 fuel. rewrite <- Nat.add_assoc, H1. apply H2.
Qed.

Lemma reaches_char buf str state tc c :
  buf !!! str = c -> c <> 0 -> c <> 44 -> state <> CORE_INVALID ->
  reaches buf 1 (str, state, tc)
    (str + 1, fst (transition_step state c tc),
     snd (transition_step state c tc)).
Proof. intros ? ? ? ? fuel. by apply loop_step. Qed.

Lemma reaches_digits buf str state tc ds :
  state = CORE_INT \/ state = CORE_FLOAT \/ state = CORE_SCIENTIFIC ->
  Forall (fun c => ee_isdigit c = true) ds -> holds buf str ds ->
  reaches buf (length ds) (str, state, tc)
    (str + Z.of_nat (length ds), state, tc).
Proof. intros ? ? ? fuel. by apply loop_digits. Qed.

Lemma reaches_comma buf n str0 state0 tc0 str state tc fuel :
  reaches buf n (str0, state0, tc0) (str, state, tc) ->
  buf !!! str = 44 -> state <> CORE_INVALID -> (n < fuel)%nat ->
  core_state_transition_loop fuel buf str0 state0 tc0
  = Some (state, str + 1, tc).
Proof.
  intros H Hc Hs Hf.
  replace fuel with (n + S (fuel - n - 1))%nat by lia.
  rewrite (H _). by apply loop_comma.
Qed.

(** Sign, digits and decimal point take the machine to FLOAT. *)
Lemma reaches_mantissa buf instr tc (sign : option Z) ds1 :
  (sign = None \/ sign = Some 43 \/ sign = Some 45) ->
  Forall (fun c => ee_isdigit c = true) ds1 ->
  holds buf instr (option_list sign ++ ds1 ++ [46]) ->
  exists tc',
    reaches buf (length (option_list sign ++ ds1 ++ [46]))
      (instr, CORE_START, tc)
      (instr + Z.of_nat (length (option_list sign ++ ds1 ++ [46])),
       CORE_FLOAT, tc').
Proof.
  intros Hsign Hd Hh.
  (* from INT or from the state before the first digit *)
  assert (Hbody : forall p st tc0,
    (st = CORE_START \/ st = CORE_S1) ->
    holds buf p (ds1 ++ [46]) ->
    exists tc',
      reaches buf (length (ds1 ++ [46])) (p, st, tc0)
        (p + Z.of_nat (length (ds1 ++ [46])), CORE_FLOAT, tc')).
  { intros p st tc0 Hst Hp. destruct ds1 as [|d ds].
    - cbn [app length] in *. apply holds_cons in Hp as [Hdot _].
      eexists. intros fuel.
      rewrite (reaches_char buf p st tc0 46 Hdot) by
        (try done; by destruct Hst as [-> | ->]).
      cbn [fst snd]. destruct Hst as [-> | ->]; reflexivity.
    - apply Forall_cons in Hd as [Hc Hd].
      destruct (digit_char d Hc) as (H0 & H44 & H46).
      cbn [app] in Hp. apply holds_cons in Hp as [Hd0 Hp].
      apply holds_app in Hp as [Hds Hdot].
      apply holds_cons in Hdot as [Hdot _].
      eexists.
      replace (length ((d :: ds) ++ [46])) with (1 + (length ds + 1))%nat
        by (cbn; rewrite length_app; cbn; lia).
      eapply reaches_trans.
      { apply (reaches_char buf p st tc0 d); try done.
        by destruct Hst as [-> | ->]. }
      assert (E : fst (transition_step st d tc0) = CORE_INT)
        by (destruct Hst as [-> | ->]; cbn; by rewrite Hc).
      rewrite E. eapply reaches_trans.
      { apply reaches_digits; [by left | exact Hd | exact Hds]. }
      intros fuel.
      rewrite (reaches_char buf _ CORE_INT _ 46 Hdot) by done.
      cbn [fst snd transition_step]. change (46 =? 46) with true. cbv iota.
      cbn [fst snd]. f_equal. lia. }
  destruct Hsign as [->|Hsign].
  - cbn [option_list option_rect app] in *. apply Hbody; auto.
  - assert (exists s, sign = Some s /\ (s = 43 \/ s = 45)) as (s & -> & Hs)
      by (destruct Hsign as [->| ->]; eauto).
    cbn [option_list option_rect app] in *.
    apply holds_cons in Hh as [Hs0 Hh].
    destruct (Hbody (instr + 1) CORE_S1 (count_incr tc CORE_START))
      as (tc' & Hr); [auto | done |].
    exists tc'.
    replace (length (s :: ds1 ++ [46]))
      with (1 + length (ds1 ++ [46%Z]))%nat by reflexivity.
    eapply reaches_trans.
    { apply (reaches_char buf instr CORE_START tc s); (done || lia). }
    assert (E : transition_step CORE_START s tc
                = (CORE_S1, count_incr tc CORE_START))
      by (cbn; destruct Hs as [-> | ->]; reflexivity).
    rewrite E. cbn [fst snd].
    intros fuel. rewrite Hr. cbn [fst snd]. f_equal. lia.
Qed.

(** X23. An optional sign, digits, a decimal point and more digits (each
    group possibly empty), then a comma, are a floating-point number:
    the machine ends in CORE_FLOAT with the pointer after the comma. *)
Theorem state_float_token buf instr tc (sign : option Z) ds1 ds2 fuel :
  (sign = None \/ sign = Some 43 \/ sign = Some 45) ->
  Forall (fun c => ee_isdigit c = true) (ds1 ++ ds2) ->
  holds buf instr (option_list sign ++ ds1 ++ [46] ++ ds2 ++ [44]) ->
  (length (option_list sign ++ ds1 ++ [46%Z] ++ ds2) < fuel)%nat ->
  exists tc',
    core_state_transition fuel buf instr tc
    = Some (CORE_FLOAT,
            instr + Z.of_nat (length (option_list sign ++ ds1 ++ [46] ++ ds2))
            + 1, tc').
Proof.
  intros Hsign Hd Hh Hf. apply Forall_app in Hd as [Hd1 Hd2].
  replace (option_list sign ++ ds1 ++ [46] ++ ds2 ++ [44])
    with ((option_list sign ++ ds1 ++ [46]) ++ ds2 ++ [44]) in Hh
    by (by rewrite <- !app_assoc).
  replace (option_list sign ++ ds1 ++ [46] ++ ds2)
    with ((option_list sign ++ ds1 ++ [46]) ++ ds2) in *
    by (by rewrite <- !app_assoc).
  apply holds_app in Hh as [Hh Hrest]. apply holds_app in Hrest as [Hds2 Hcomma].
  apply holds_cons in Hcomma as [Hcomma _].
  destruct (reaches_mantissa buf instr tc sign ds1 Hsign Hd1 Hh) as (tc' & Hr).
  exists tc'. unfold core_state_transition.
  pose proof (reaches_trans _ _ _ _ _ _ Hr
    (reaches_digits buf _ CORE_FLOAT tc' ds2 ltac:(auto) Hd2 Hds2)) as Hr2.
  rewrite (reaches_comma buf _ _ _ _ _ _ _ fuel Hr2); [|done|done|].
  - do 3 f_equal. rewrite (length_app _ ds2). lia.
  - by rewrite <- length_app.
Qed.

(** X24. A floating-point mantissa followed by [e] or [E], a sign, at least
    one digit and a comma is a number in scientific notation: the
    machine ends in CORE_SCIENTIFIC with the pointer after the comma.
    The sign of the exponent is not optional. *)
Theorem state_scientific_token buf instr tc (sign : option Z) ds1 ds2
    e s2 d ds3 fuel :
  (sign = None \/ sign = Some 43 \/ sign = Some 45) ->
  Forall (fun c => ee_isdigit c = true) (ds1 ++ ds2 ++ d :: ds3) ->
  (e = 69 \/ e = 101) -> (s2 = 43 \/ s2 = 45) ->
  holds buf instr
    ((option_list sign ++ ds1 ++ [46]) ++ ds2 ++ [e; s2; d] ++ ds3 ++ [44]) ->
  (length ((option_list sign ++ ds1 ++ [46%Z]) ++ ds2 ++ [e; s2; d] ++ ds3)
   < fuel)%nat ->
  exists tc',
    core_state_transition fuel buf instr tc
    = Some (CORE_SCIENTIFIC,
            instr
            + Z.of_nat (length ((option_list sign ++ ds1 ++ [46])
                                ++ ds2 ++ [e; s2; d] ++ ds3))
            + 1, tc').
Proof.
  intros Hsign Hd He Hs2 Hh Hf.
  apply Forall_app in Hd as [Hd1 Hd]. apply Forall_app in Hd as [Hd2 Hd].
  apply Forall_cons in Hd as [Hc Hd3].
  destruct (digit_char d Hc) as (H0 & H44 & H46).
  apply holds_app in Hh as [Hh Hrest]. apply holds_app in Hrest as [Hds2 Hrest].
  apply holds_cons in Hrest as [He0 Hrest].
  apply holds_cons in Hrest as [Hs0 Hrest].
  apply holds_cons in Hrest as [Hd0 Hrest].
  apply holds_app in Hrest as [Hds3 Hcomma].
  apply holds_cons in Hcomma as [Hcomma _].
  destruct (reaches_mantissa buf instr tc sign ds1 Hsign Hd1 Hh) as (tc1 & Hr).
  set (p1 := instr + Z.of_nat (length (option_list sign ++ ds1 ++ [46]))) in *.
  set (p2 := p1 + Z.of_nat (length ds2)) in *.
  pose proof (reaches_digits buf p1 CORE_FLOAT tc1 ds2 ltac:(auto) Hd2 Hds2)
    as Hr2. fold p2 in Hr2.
  pose proof (reaches_char buf p2 CORE_FLOAT tc1 e He0 ltac:(lia) ltac:(lia)
                ltac:(done)) as Hr3.
  assert (E3 : transition_step CORE_FLOAT e tc1
               = (CORE_S2, count_incr tc1 CORE_FLOAT))
    by (cbn; destruct He as [-> | ->]; reflexivity).
  rewrite E3 in Hr3. cbn [fst snd] in Hr3.
  pose proof (reaches_char buf (p2 + 1) CORE_S2 (count_incr tc1 CORE_FLOAT)
                s2 Hs0 ltac:(lia) ltac:(lia) ltac:(done)) as Hr4.
  assert (E4 : forall t, transition_step CORE_S2 s2 t
               = (CORE_EXPONENT, count_incr t CORE_S2))
    by (intros t; cbn; destruct Hs2 as [-> | ->]; reflexivity).
  rewrite E4 in Hr4. cbn [fst snd] in Hr4.
  pose proof (reaches_char buf (p2 + 1 + 1) CORE_EXPONENT
                (count_incr (count_incr tc1 CORE_FLOAT) CORE_S2) d Hd0 H0 H44
                ltac:(done)) as Hr5.
  cbn [transition_step] in Hr5. rewrite Hc in Hr5. cbn [fst snd] in Hr5.
  pose proof (reaches_digits buf (p2 + 1 + 1 + 1) CORE_SCIENTIFIC
                (count_incr (count_incr (count_incr tc1 CORE_FLOAT) CORE_S2)
                   CORE_EXPONENT) ds3
                ltac:(auto) Hd3 Hds3) as Hr6.
  pose proof (reaches_trans _ _ _ _ _ _ Hr
               (reaches_trans _ _ _ _ _ _ Hr2
                 (reaches_trans _ _ _ _ _ _ Hr3
                   (reaches_trans _ _ _ _ _ _ Hr4
                     (reaches_trans _ _ _ _ _ _ Hr5 Hr6))))) as Hall.
  eexists. unfold core_state_transition.
  rewrite (reaches_comma buf _ _ _ _ _ _ _ fuel Hall); [|done|done|].
  - do 3 f_equal. subst p2 p1.
    rewrite ?length_app; cbn [length]; rewrite ?length_app; cbn [length]; lia.
  - revert Hf.
    rewrite ?length_app; cbn [length]; rewrite ?length_app; cbn [length]; lia.
Qed.

(** X25. An exponent needs a decimal point before it: digits followed
    directly by a character that is neither a digit, a point, a comma
    nor NUL (such as [e]) make the token invalid at that character, and
    the pointer is left just after it, not after the next comma. *)
Theorem state_int_then_other buf instr tc (sign : option Z) d ds c fuel :
  (sign = None \/ sign = Some 43 \/ sign = Some 45) ->
  Forall (fun c => ee_isdigit c = true) (d :: ds) ->
  ee_isdigit c = false -> c <> 46 -> c <> 44 -> c <> 0 ->
  holds buf instr (option_list sign ++ d :: ds ++ [c]) ->
  (length (option_list sign ++ d :: ds ++ [c]) < fuel)%nat ->
  exists tc',
    core_state_transition fuel buf instr tc
    = Some (CORE_INVALID,
            instr + Z.of_nat (length (option_list sign ++ d :: ds ++ [c])),
            tc').
Proof.
  intros Hsign Hd Hc H46 H44 H0 Hh Hf.
  apply Forall_cons in Hd as [Hdc Hd].
  destruct (digit_char d Hdc) as (Hd0 & Hd44 & Hd46).
  assert (Hbody : forall p st tc0 fuel',
    (st = CORE_START \/ st = CORE_S1) ->
    holds buf p (d :: ds ++ [c]) -> (length (d :: ds ++ [c]) < fuel')%nat ->
    exists tc',
      core_state_transition_loop fuel' buf p st tc0
      = Some (CORE_INVALID, p + Z.of_nat (length (d :: ds ++ [c])), tc')).
  { intros p st tc0 fuel' Hst Hp Hf'.
    apply holds_cons in Hp as [Hp0 Hp]. apply holds_app in Hp as [Hds Hpc].
    apply holds_cons in Hpc as [Hpc _].
    pose proof (reaches_char buf p st tc0 d Hp0 Hd0 Hd44
                  ltac:(by destruct Hst as [-> | ->])) as Hr1.
    assert (E : fst (transition_step st d tc0) = CORE_INT)
      by (destruct Hst as [-> | ->]; cbn; by rewrite Hdc).
    rewrite E in Hr1.
    pose proof (reaches_digits buf (p + 1) CORE_INT
                  (snd (transition_step st d tc0)) ds ltac:(auto) Hd Hds)
      as Hr2.
    pose proof (reaches_char buf _ CORE_INT (snd (transition_step st d tc0))
                  c Hpc H0 H44 ltac:(done)) as Hr3.
    cbn [transition_step] in Hr3.
    replace (c =? 46) with false in Hr3 by (symmetry; by apply Z.eqb_neq).
    rewrite Hc in Hr3. cbn [negb fst snd] in Hr3.
    pose proof (reaches_trans _ _ _ _ _ _ Hr1
                  (reaches_trans _ _ _ _ _ _ Hr2 Hr3)) as Hall.
    eexists.
    replace fuel' with ((1 + (length ds + 1)) + S (fuel' - length ds - 3))%nat
      by (cbn [length] in Hf'; rewrite length_app in Hf'; cbn in Hf'; lia).
    rewrite (Hall _). cbn [fst snd]. rewrite loop_invalid. do 3 f_equal.
    cbn [length]. rewrite length_app. cbn. lia. }
  destruct Hsign as [->|Hsign].
  - cbn [option_list option_rect app] in *. apply Hbody; auto.
  - assert (exists s, sign = Some s /\ (s = 43 \/ s = 45)) as (s & -> & Hs)
      by (destruct Hsign as [->| ->]; eauto).
    cbn [option_list option_rect app] in *.
    apply holds_cons in Hh as [Hs0 Hh].
    destruct fuel as [|fuel]; [cbn in Hf; lia|].
    destruct (Hbody (instr + 1) CORE_S1 (count_incr tc CORE_START) fuel)
      as (tc' & Hr); [auto | done | cbn [length] in *; lia |].
    exists tc'. unfold core_state_transition.
    rewrite (loop_step buf instr CORE_START tc fuel s) by (done || lia).
    assert (E : transition_step CORE_START s tc
                = (CORE_S1, count_incr tc CORE_START))
      by (cbn; destruct Hs as [-> | ->]; reflexivity).
    rewrite E. cbn [fst snd]. rewrite Hr. do 3 f_equal. cbn [length]. lia.
Qed.

(** ** Corrupting twice *)

Lemma visited_by_step p step blksize k :
  0 < step ->
  visited_by p step blksize k
  <-> (k = p /\ p < blksize) \/ visited_by (p + step) step blksize k.
Proof.
  intros Hs. unfold visited_by. split.
  - intros (n & Hn & -> & Hlt). destruct (Z.eq_dec n 0) as [->|].
    + left. lia.
    + right. exists (n - 1). lia.
  - intros [[-> Hlt]|(n & Hn & -> & Hlt)].
    + exists 0. lia.
    + exists (n + 1). lia.
Qed.

Lemma state_corrupt_loop_spec blksize seed step : forall fuel buf p,
  0 < step -> blksize - p < Z.of_nat fuel -> (0 < fuel)%nat ->
  exists buf',
    state_corrupt_loop fuel buf p blksize seed step = Some buf'
    /\ (forall k, visited_by p step blksize k ->
          buf' !!! k = corrupt seed (buf !!! k))
    /\ (forall k, ~ visited_by p step blksize k -> buf' !!! k = buf !!! k).
Proof.
  induction fuel as [|fuel IH]; intros buf p Hs Hf Hpos; [lia|].
  - cbn [state_corrupt_loop]. destruct (Z.ltb_spec p blksize) as [Hlt|Hge].
    + set (buf1 := if buf !!! p =? 44 then buf
                   else <[p := Z.lxor (buf !!! p) (u8 seed)]> buf).
      assert (H1 : forall k, buf1 !!! k
                   = if decide (k = p) then corrupt seed (buf !!! p)
                     else buf !!! k).
      { intros k. subst buf1. unfold corrupt.
        destruct (buf !!! p =? 44) eqn:E.
        - destruct (decide (k = p)) as [->|]; reflexivity.
        - destruct (decide (k = p)) as [->|].
          + by rewrite lookup_total_insert_eq.
          + by rewrite lookup_total_insert_ne. }
      destruct (IH buf1 (p + step) Hs ltac:(lia) ltac:(lia))
        as (buf' & Hrun & Hv & Hn).
      exists buf'. split; [exact Hrun|]. split.
      * intros k Hk. apply (visited_by_step _ _ _ _ Hs) in Hk as [[-> _]|Hk].
        -- rewrite Hn, H1.
           ++ by destruct (decide (p = p)).
           ++ intros (n & Hn0 & E & _). nia.
        -- rewrite (Hv k Hk), H1. destruct (decide (k = p)) as [->|]; [|done].
           destruct Hk as (n & Hn0 & E & _). nia.
      * intros k Hk. rewrite Hn, H1.
        -- destruct (decide (k = p)) as [->|]; [|done].
           exfalso. apply Hk. exists 0. lia.
        -- intros Hk'. apply Hk. apply visited_by_step; auto.
    + exists buf. split; [reflexivity|]. split; [|done].
      intros k (n & Hn & -> & Hlt). nia.
Qed.

(** X26. The second corruption pass of [core_bench_state] undoes the first
    one when the two seeds have the same low byte, except at the bytes
    that the first pass turned into a comma: those stay commas. *)
Theorem state_corruption_round_trip fuel buf blksize seed1 seed2 step :
  0 < step -> blksize < Z.of_nat fuel -> (0 < fuel)%nat ->
  u8 seed1 = u8 seed2 ->
  exists buf1 buf2,
    state_corrupt_loop fuel buf 0 blksize seed1 step = Some buf1
    /\ state_corrupt_loop fuel buf1 0 blksize seed2 step = Some buf2
    /\ forall k,
         buf2 !!! k
         = if bool_decide (buf1 !!! k = 44 /\ buf !!! k <> 44) then 44
           else buf !!! k.
Proof.
  intros Hs Hf Hpos Hseed.
  destruct (state_corrupt_loop_spec blksize seed1 step fuel buf 0 Hs
              ltac:(lia) Hpos) as (buf1 & Hrun1 & Hv1 & Hn1).
  destruct (state_corrupt_loop_spec blksize seed2 step fuel buf1 0 Hs
              ltac:(lia) Hpos) as (buf2 & Hrun2 & Hv2 & Hn2).
  exists buf1, buf2. split; [exact Hrun1|]. split; [exact Hrun2|].
  intros k.
  assert (Hdec : visited_by 0 step blksize k \/ ~ visited_by 0 step blksize k).
  { destruct (decide (0 <= k < blksize /\ k mod step = 0)) as [[Hk Hm]|Hk].
    - left. exists (k / step). split; [apply Z.div_pos; lia|].
      pose proof (Z.div_mod k step ltac:(lia)). lia.
    - right. intros (n & Hn & -> & Hlt). apply Hk. split; [nia|].
      rewrite Z.add_0_l. apply Z.mod_mul. lia. }
  destruct Hdec as [Hk|Hk].
  - rewrite (Hv2 k Hk). rewrite (Hv1 k Hk). unfold corrupt. rewrite <- Hseed.
    destruct (Z.eqb_spec (buf !!! k) 44) as [E|E].
    + rewrite E. cbn. rewrite bool_decide_eq_false_2; [done|]. by intros [_ ?].
    + destruct (Z.eqb_spec (Z.lxor (buf !!! k) (u8 seed1)) 44) as [E'|E'].
      * rewrite bool_decide_eq_true_2; done.
      * rewrite bool_decide_eq_false_2 by (by intros [? _]).
        by rewrite Z.lxor_assoc, Z.lxor_nilpotent, Z.lxor_0_r.
  - rewrite (Hn2 k Hk), (Hn1 k Hk).
    rewrite bool_decide_eq_false_2; [done|]. by intros [? ?].
Qed.

(** ** core_init_state *)

Lemma pattern_ok (k : nat) :
  (k < 4)%nat ->
  (length (intpat !!! k) = 4%nat /\ Forall (fun c => c <> 0) (intpat !!! k))
  /\ (length (floatpat !!! k) = 8%nat
      /\ Forall (fun c => c <> 0) (floatpat !!! k))
  /\ (length (scipat !!! k) = 8%nat /\ Forall (fun c => c <> 0) (scipat !!! k))
  /\ (length (errpat !!! k) = 8%nat /\ Forall (fun c => c <> 0) (errpat !!! k)).
Proof.
  intros Hk. destruct k as [|[|[|[|k]]]]; [..|lia];
    repeat split; try reflexivity; cbn; repeat constructor; discriminate.
Qed.

(** The copy loop [for (i = 0; i < next; i++) p[total + i] = buf[i]]. *)
Lemma copy_pattern (p : gmap Z Z) (total : Z) (buf : list Z) :
  let p' := for_range (length buf) 0
              (fun i p => <[total + i := buf !!! Z.to_nat i]> p) p in
  (forall k, total <= k < total + Z.of_nat (length buf) ->
     p' !!! k = buf !!! Z.to_nat (k - total))
  /\ (forall k, ~ (total <= k < total + Z.of_nat (length buf)) ->
        p' !!! k = p !!! k).
Proof.
  intros p'.
  pose proof (for_range_ind
    (fun f q => (forall k, total <= k < total + f ->
                   q !!! k = buf !!! Z.to_nat (k - total))
                /\ (forall k, ~ (total <= k < total + f) -> q !!! k = p !!! k))
    (fun i p => <[total + i := buf !!! Z.to_nat i]> p)
    (length buf) 0 p) as H.
  cbn beta in H. rewrite Z.add_0_l in H. apply H.
  - split; [intros; lia | done].
  - intros i q Hi [H1 H2]. split.
    + intros k Hk. destruct (decide (k = total + i)) as [->|].
      * rewrite lookup_total_insert_eq. f_equal. lia.
      * rewrite lookup_total_insert_ne by done. apply H1. lia.
    + intros k Hk. rewrite lookup_total_insert_ne by lia. apply H2. lia.
Qed.

Lemma init_state_loop_spec size : forall fuel seed p total next buf,
  0 <= size <= 4294967280 ->
  0 <= total <= size ->
  next = Z.of_nat (length buf) -> next <= 8 ->
  Forall (fun c => c <> 0) buf ->
  (forall k, 0 <= k < total -> p !!! k <> 0) ->
  size - total + (if next =? 0 then 1 else 0) < Z.of_nat fuel ->
  exists p' total',
    init_state_loop fuel size seed p total next buf = Some (p', total')
    /\ 0 <= total' <= size /\ (total' = total \/ total' < size)
    /\ (forall k, 0 <= k < total' -> p' !!! k <> 0).
Proof.
  induction fuel as [|fuel IH];
    intros seed p total next buf Hsize Ht Hnext Hn8 Hbuf Hp Hf;
    [destruct (next =? 0); lia|].
  cbn [init_state_loop].
  assert (E : u32 (total + next + 1) = total + next + 1)
    by (unfold u32; apply Z.mod_small; lia).
  setoid_rewrite E.
  destruct (Z.ltb_spec (total + next + 1) size) as [Hlt|Hge].
  2:{ exists p, total. auto. }
  set (pt := if 0 <? next then _ else (p, total)).
  assert (Hpt : 0 <= pt.2 <= size
                /\ (forall k, 0 <= k < pt.2 -> pt.1 !!! k <> 0)
                /\ size - pt.2 < Z.of_nat fuel
                /\ (pt.2 = total \/ pt.2 < size)).
  { subst pt. destruct (Z.ltb_spec 0 next) as [Hpos|Hz].
    - cbn [fst snd]. rewrite E.
      replace (next =? 0) with false in Hf by (symmetry; lia).
      split; [lia|]. split; [|lia].
      intros k Hk. subst next. rewrite Nat2Z.id.
      destruct (copy_pattern p total buf) as [H1 H2]. cbv zeta in H1, H2.
      destruct (decide (k = total + Z.of_nat (length buf))) as [->|Hne].
      + by rewrite lookup_total_insert_eq.
      + rewrite lookup_total_insert_ne by done.
        destruct (decide (total <= k)) as [Hk'|Hk'].
        * rewrite H1 by lia. apply Forall_lookup_total_1; [done|]. lia.
        * rewrite H2 by lia. apply Hp. lia.
    - cbn [fst snd]. replace (next =? 0) with true in Hf by (symmetry; lia).
      split; [lia|]. split; [done | lia]. }
  destruct pt as [p1 total1]. cbn [fst snd] in Hpt.
  destruct Hpt as (Ht1 & Hp1 & Hf1 & Hstrict).
  assert (Hwrap : forall r : option (gmap Z Z * Z),
    (exists p' total', r = Some (p', total')
       /\ 0 <= total' <= size /\ (total' = total1 \/ total' < size)
       /\ (forall k, 0 <= k < total' -> p' !!! k <> 0)) ->
    exists p' total', r = Some (p', total')
       /\ 0 <= total' <= size /\ (total' = total \/ total' < size)
       /\ (forall k, 0 <= k < total' -> p' !!! k <> 0)).
  { intros r (p' & total' & -> & Hr1 & Hr2 & Hr3).
    exists p', total'. repeat split; try done; try lia. }
  set (seed' := s16 (seed + 1)).
  set (k := Z.to_nat (Z.land (Z.shiftr seed' 3) 3)).
  assert (Hk : (k < 4)%nat).
  { subst k. change 3 with (Z.ones 2) at 2. rewrite Z.land_ones by lia.
    pose proof (Z.mod_pos_bound (Z.shiftr seed' 3) (2 ^ 2) ltac:(lia)).
    change (2 ^ 2) with 4 in *. lia. }
  destruct (pattern_ok k Hk) as ((Li & Fi) & (Lf & Ff) & (Ls & Fs) & (Le & Fe)).
  set (sel := Z.land seed' 7).
  destruct (sel <=? 2); [|destruct (sel <=? 4); [|destruct (sel <=? 6)]];
    (apply Hwrap, IH;
     [done | lia | by rewrite ?Li, ?Lf, ?Ls, ?Le | lia | done | done
     | cbn; lia]).
Qed.

Lemma core_init_state_ok fuel size seed :
  1 <= size <= 4294967280 -> size < Z.of_nat fuel ->
  exists buf total,
    core_init_state fuel size seed = Some buf
    /\ 0 <= total < size /\ (2 <= size -> total <= size - 2)
    /\ (forall k, 0 <= k < total -> buf !!! k <> 0)
    /\ (forall k, total <= k < size -> buf !!! k = 0).
Proof.
  intros Hsize Hf. unfold core_init_state.
  assert (E1 : u32 (size - 1) = size - 1)
    by (unfold u32; apply Z.mod_small; lia).
  rewrite E1.
  destruct (init_state_loop_spec (size - 1) fuel seed ∅ 0 0 [])
    as (p & total & Hrun & Ht & Hstrict & Hp);
    [lia | lia | done | lia | constructor | intros; lia | cbn; lia |].
  rewrite Hrun. exists (for_range (Z.to_nat (u32 (size - 1 + 1) - total)) total
                          (fun i p => <[i := 0]> p) p), total.
  split; [reflexivity|]. split; [lia|]. split; [lia|].
  assert (E2 : u32 (size - 1 + 1) = size)
    by (unfold u32; rewrite Z.mod_small; lia).
  rewrite E2.
  pose proof (for_range_ind
    (fun f q => (forall k, total <= k < f -> q !!! k = 0)
                /\ (forall k, ~ (total <= k < f) -> q !!! k = p !!! k))
    (fun i p => <[i := 0]> p) (Z.to_nat (size - total)) total p) as H.
  cbn beta in H. rewrite Z2Nat.id in H by lia.
  replace (total + (size - total)) with size in H by lia.
  destruct H as [H1 H2].
  - split; [intros; lia | done].
  - intros i q Hi [H1 H2]. split.
    + intros k Hk. destruct (decide (k = i)) as [->|].
      * by rewrite lookup_total_insert_eq.
      * rewrite lookup_total_insert_ne by done. apply H1. lia.
    + intros k Hk. rewrite lookup_total_insert_ne by lia. apply H2. lia.
  - split; [|exact H1]. intros k Hk. rewrite H2 by lia. by apply Hp.
Qed.

(** X27. [core_init_state] writes a NUL-terminated string into the block:
    patterns with their commas up to some [total] below [size], without
    a NUL among them, and NUL from there to the last byte of the block
    (the last two bytes at least, when the block has two). *)
Theorem core_init_state_nul_terminated fuel size seed :
  1 <= size <= 4294967280 -> size < Z.of_nat fuel ->
  exists buf total,
    core_init_state fuel size seed = Some buf
    /\ 0 <= total < size /\ (2 <= size -> total <= size - 2)
    /\ (forall k, 0 <= k < total -> buf !!! k <> 0)
    /\ (forall k, total <= k < size -> buf !!! k = 0).
Proof. apply core_init_state_ok. Qed.

(** ** The sentinels of core_list_init *)

Lemma StronglySorted_implies {A} (R R' : relation A) (l : list A) :
  (forall x y, R x y -> R' x y) -> StronglySorted R l -> StronglySorted R' l.
Proof.
  intros H. induction 1 as [|x l Hs IH Hall]; constructor; [done|].
  eapply Forall_impl; [exact Hall|]. intros y. apply H.
Qed.

Lemma init_rank_nonneg size seed i :
  0 <= i -> size / 5 <= 32768 -> 0 <= init_rank size seed i.
Proof.
  intros Hi Hs. unfold init_rank. destruct (Z.ltb_spec i (size / 5)).
  - rewrite s16_id; lia.
  - pose proof (land_16383_range
      (Z.lor (Z.shiftl (Z.land (i + 1) 7) 8) (u16 (Z.lxor i seed)))). lia.
Qed.

(** X28. [core_list_init] returns the block's first node as list head: the
    head sentinel (idx 0) stays first and the tail sentinel (idx
    0x7fff) stays last through the final sort by idx, and the list in
    between is sorted by idx.  (For lists of at most 163839 slots, so
    that no rank wraps around in an ee_s16.) *)
Theorem core_list_init_sentinels sz blksize b seed fuel m :
  let size := blksize / (16 + sz) - 2 in
  0 <= sz -> 16 + sz < 4294967296 -> 0 <= blksize < 4294967296 ->
  3 <= size -> size / 5 <= 32768 -> (Z.to_nat size <= fuel)%nat ->
  exists m' L,
    core_list_init fuel sz blksize b seed m = Ok (Some b, m')
    /\ chain (m_next m') (Some b) L
    /\ head L = Some b /\ last L = Some (b + 1)
    /\ L ≡ₚ b :: interior b (Z.to_nat (size - 3)) ++ [b + 1]
    /\ StronglySorted
         (fun x y => d_idx (node_rec m' x) <= d_idx (node_rec m' y)) L
    /\ d_idx (node_rec m' b) = 0 /\ d_idx (node_rec m' (b + 1)) = 32767.
Proof.
  intros n Hsz Hsz2 Hblk Hn Hn5 Hfuel.
  destruct (core_list_init_fill_ok sz blksize b seed fuel m)
    as (m1 & Hrun & Hf); [done..|].
  fold n in Hrun, Hf.
  assert (Hn2 : n < 268435456).
  { subst n. pose proof (Z.mul_div_le blksize (16 + sz) ltac:(lia)).
    assert (0 <= blksize / (16 + sz)) by (apply Z.div_pos; lia). nia. }
  clearbody n.
  set (L0 := b :: interior b (Z.to_nat (n - 3)) ++ [b + 1]).
  assert (HlenL0 : Z.of_nat (length L0) = n - 1).
  { subst L0. cbn. rewrite length_app, length_interior. cbn. lia. }
  assert (Hnorm : normalized m1 L0)
    by (eapply filled_normalized; [lia | exact Hf]).
  destruct (mergesort_by_idx fuel m1 (Some b) L0)
    as (nx' & lst' & L' & Hsort & Hc' & Hperm & Hsorted & Hstable).
  { exact Hnorm. }
  { eapply filled_chain; [lia | exact Hf]. }
  { done. }
  { lia. }
  { lia. }
  (* the ranks *)
  set (idx := fun x => d_idx (node_rec m1 x)).
  assert (Hidx : forall x, x ∈ L0 ->
    0 <= idx x <= 32767 /\ (x = b -> idx x = 0) /\ (x = b + 1 -> idx x = 32767)).
  { intros x Hx. apply elem_of_filled_chain in Hx; [|lia].
    subst idx. cbn beta. unfold node_rec.
    replace x with (b + (x - b)) by lia.
    erewrite filled_node_data by (done || lia).
    cbn [default from_option id d_idx].
    destruct (Z.eqb_spec (x - b) 0) as [E0|E0]; [lia|].
    destruct (Z.eqb_spec (x - b) 1) as [E1|E1]; [lia|].
    unfold walked. replace (1 <? x - b) with true by (symmetry; lia).
    pose proof (init_rank_range n seed (n - 3 + 2 - (x - b))).
    pose proof (init_rank_nonneg n seed (n - 3 + 2 - (x - b))
                  ltac:(lia) Hn5).
    lia. }
  assert (Hb0 : b ∈ L0) by (subst L0; left).
  assert (Ht0 : b + 1 ∈ L0).
  { subst L0. right. apply elem_of_app. right. by left. }
  assert (Heqv : forall x y, eqv (cmp_le (idx_cmp m1)) x y <-> idx x = idx y).
  { intros x y. unfold eqv, cmp_le, idx_cmp, idx. lia. }
  (* the head stays first *)
  assert (Hhead : head L' = Some b).
  { destruct L' as [|x rest].
    { apply Permutation_nil_l in Hperm. done. }
    cbn. f_equal.
    apply StronglySorted_cons in Hsorted as [Hall _].
    assert (Hx : x ∈ L0) by (rewrite <- Hperm; left).
    assert (Hxb : idx x = idx b).
    { destruct (Hidx x Hx) as (Rx & _). destruct (Hidx b Hb0) as (_ & Z0 & _).
      rewrite Z0 by done.
      assert (Hb' : b ∈ x :: rest) by (by rewrite Hperm).
      apply elem_of_cons in Hb' as [->|Hb']; [by apply Z0|].
      rewrite Forall_forall in Hall. specialize (Hall b Hb').
      unfold cmp_le, idx_cmp in Hall. fold (idx x) (idx b) in Hall.
      rewrite Z0 in Hall by done. lia. }
    specialize (Hstable b). subst L0.
    rewrite (filter_cons_True _ x rest) in Hstable by (by apply Heqv).
    rewrite (filter_cons_True _ b) in Hstable by (by apply Heqv).
    by injection Hstable. }
  (* the tail stays last *)
  assert (Hlast : last L' = Some (b + 1)).
  { destruct (last L') as [y|] eqn:Ely.
    2:{ apply last_None in Ely. subst L'.
        apply Permutation_nil_l in Hperm. done. }
    apply last_Some in Ely as [init ->]. f_equal.
    assert (Hy : y ∈ L0) by (rewrite <- Hperm; apply elem_of_app; right; left).
    assert (Hyt : idx (b + 1) = idx y).
    { destruct (Hidx y Hy) as (Ry & _).
      destruct (Hidx (b + 1) Ht0) as (_ & _ & Z1).
      rewrite Z1 by done.
      assert (Ht' : b + 1 ∈ init ++ [y]) by (by rewrite Hperm).
      apply elem_of_app in Ht' as [Ht'|Ht'].
      - pose proof (StronglySorted_app_1_elem_of _ _ _ (b + 1) y Hsorted Ht'
                      ltac:(left)) as Hle.
        unfold cmp_le, idx_cmp in Hle. fold (idx (b + 1)) (idx y) in Hle.
        rewrite Z1 in Hle by done. lia.
      - apply list_elem_of_singleton in Ht'. subst y. by rewrite Z1. }
    specialize (Hstable (b + 1)). subst L0.
    rewrite app_comm_cons in Hstable. rewrite !filter_app in Hstable.
    rewrite (filter_cons_True _ y []) in Hstable by (by apply Heqv).
    rewrite (filter_cons_True _ (b + 1) []) in Hstable by (by apply Heqv).
    rewrite !filter_nil in Hstable.
    apply (f_equal last) in Hstable. rewrite !last_snoc in Hstable.
    by injection Hstable. }
  assert (Hlst : lst' = Some b).
  { by rewrite (chain_head _ _ _ Hc'). }
  subst lst'.
  exists (with_next nx' m1), L'. split.
  { unfold core_list_init. erewrite bind_ok by exact Hrun. exact Hsort. }
  split; [exact Hc'|]. split; [exact Hhead|]. split; [exact Hlast|].
  split; [exact Hperm|]. split.
  { eapply StronglySorted_implies; [|exact Hsorted].
    intros x y. unfold cmp_le, idx_cmp, node_rec, node_data. cbn. lia. }
  destruct (Hidx b Hb0) as (_ & Z0 & _).
  destruct (Hidx (b + 1) Ht0) as (_ & _ & Z1).
  split; [by apply Z0 | by apply Z1].
Qed.

(** ** core_bench_state on an initialised block *)

Lemma first_nul buf : forall (n : nat) p,
  buf !!! (p + Z.of_nat n) = 0 ->
  exists z, p <= z <= p + Z.of_nat n /\ nul_at buf p z.
Proof.
  induction n as [|n IH]; intros p Hz.
  - exists p. rewrite Z.add_0_r in Hz. split; [lia|].
    split; [lia|]. split; [done | intros; lia].
  - destruct (Z.eq_dec (buf !!! p) 0) as [E|E].
    + exists p. split; [lia|]. split; [lia|]. split; [done | intros; lia].
    + destruct (IH (p + 1)) as (z & Hz1 & (Hle & Hz0 & Hnz)).
      { by replace (p + 1 + Z.of_nat n) with (p + Z.of_nat (S n)) by lia. }
      exists z. split; [lia|]. split; [lia|]. split; [done|].
      intros k Hk. destruct (Z.eq_dec k p) as [->|]; [done|]. apply Hnz. lia.
Qed.

(** X29. [core_bench_state] on a block set up by [core_init_state] returns:
    both scans stop at a NUL inside the block.  The block ends with two
    NULs at least, and a corruption pass with a step of 2 or more
    cannot overwrite both. *)
Theorem core_bench_state_returns fuel size seed seed1 seed2 step crc m buf :
  2 <= size <= 4294967280 -> size < Z.of_nat fuel -> 2 <= step ->
  core_init_state fuel size seed = Some buf ->
  memblock3 (m_res m) = buf ->
  exists v buf',
    core_bench_state fuel size seed1 seed2 step crc m
    = Ok (v, with_res (res_with_memblock3 buf' (m_res m)) m).
Proof.
  intros Hsize Hf Hstep Hinit Hbuf.
  destruct (core_init_state_ok fuel size seed ltac:(lia) Hf)
    as (buf0 & total & Hrun & Ht & Ht2 & Hnz & Hz).
  rewrite Hinit in Hrun. injection Hrun as <-.
  specialize (Ht2 ltac:(lia)).
  unfold core_bench_state.
  rewrite (bind_ok get_res _ m (m_res m) m) by reflexivity.
  rewrite Hbuf.
  (* first scan *)
  destruct (state_scan_loop_some buf total fuel 0
              (replicate NUM_CORE_STATES 0) (replicate NUM_CORE_STATES 0))
    as [[fc1 tc1] Hs1].
  { split; [lia|]. split; [apply Hz; lia | exact Hnz]. }
  { lia. }
  rewrite Hs1. cbn [lift_option]. rewrite bind_ret. cbv beta iota.
  (* first corruption *)
  destruct (state_corrupt_loop_spec size seed1 step fuel buf 0 ltac:(lia)
              ltac:(lia) ltac:(lia)) as (buf1 & Hc1 & Hv1 & Hn1).
  rewrite Hc1. cbn [lift_option]. rewrite bind_ret.
  (* a NUL survives at [size - 2] or [size - 1] *)
  assert (Hnul : exists z, 0 <= z < size /\ buf1 !!! z = 0).
  { destruct (decide ((size - 2) mod step = 0)) as [Hv|Hv].
    - exists (size - 1). split; [lia|]. rewrite Hn1; [apply Hz; lia|].
      intros (n' & Hn' & E & _).
      pose proof (Z.div_mod (size - 2) step ltac:(lia)) as Hdm.
      rewrite Hv in Hdm.
      assert (Hone : step * (n' - (size - 2) / step) = 1) by lia.
      destruct (Z.le_gt_cases (n' - (size - 2) / step) 0); nia.
    - exists (size - 2). split; [lia|]. rewrite Hn1; [apply Hz; lia|].
      intros (n' & Hn' & E & _). apply Hv.
      rewrite E, Z.add_0_l. apply Z.mod_mul. lia. }
  destruct Hnul as (z & Hz1 & Hz0).
  destruct (first_nul buf1 (Z.to_nat z) 0) as (z0 & Hz01 & Hnul0).
  { by rewrite Z2Nat.id by lia. }
  (* second scan *)
  destruct (state_scan_loop_some buf1 z0 fuel 0 fc1 tc1 Hnul0
              ltac:(lia)) as [[fc2 tc2] Hs2].
  rewrite Hs2. cbn [lift_option]. rewrite bind_ret. cbv beta iota.
  destruct (state_corrupt_loop_spec size seed2 step fuel buf1 0 ltac:(lia)
              ltac:(lia) ltac:(lia)) as (buf2 & Hc2 & _).
  rewrite Hc2. cbn [lift_option]. rewrite bind_ret.
  eexists _, buf2. reflexivity.
Qed.

(** ** The run parameters are only read *)

Section Keeps.
Variable p : Z * Z * Z * Z * Z * gmap Z Z * ptr.
Variable ix : gmap Z Z.

Lemma keeps_ret {A} (a : A) : keeps p ix (ret a).
Proof. intros m a' m' Hp Hi [= <- <-]. auto. Qed.

Lemma keeps_bind {A B} (c : M A) (k : A -> M B) :
  keeps p ix c -> (forall a, keeps p ix (k a)) -> keeps p ix (bind c k).
Proof.
  intros Hc Hk m b m' Hp Hi H. unfold bind in H.
  destruct (c m) as [[a m1]| |] eqn:E; try discriminate.
  destruct (Hc _ _ _ Hp Hi E) as [Hp1 Hi1].
  exact (Hk a _ _ _ Hp1 Hi1 H).
Qed.

Lemma keeps_get_res_bind {B} (k : core_results -> M B) :
  (forall r, run_params r = p -> keeps p ix (k r)) ->
  keeps p ix (bind get_res k).
Proof. intros Hk m b m' Hp Hi H. exact (Hk _ Hp _ _ _ Hp Hi H). Qed.

Lemma keeps_deref_res_bind {B} res (k : core_results -> M B) :
  (forall r, run_params r = p -> keeps p ix (k r)) ->
  keeps p ix (bind (deref_res res) k).
Proof.
  destruct res; [intros _ m b m' _ _ H; discriminate H|].
  apply keeps_get_res_bind.
Qed.

Lemma keeps_put_res r : run_params r = p -> keeps p ix (put_res r).
Proof. intros Hr m a m' Hp Hi [= <- <-]. auto. Qed.

Lemma keeps_fault {A} : keeps p ix (@fault A).
Proof. intros m a m' _ _ H. discriminate H. Qed.

Lemma keeps_timeout {A} : keeps p ix (@timeout A).
Proof. intros m a m' _ _ H. discriminate H. Qed.

Lemma keeps_lift_option {A} (o : option A) : keeps p ix (lift_option o).
Proof. destruct o; [apply keeps_ret | apply keeps_timeout]. Qed.

Lemma keeps_load_next q : keeps p ix (load_next q).
Proof.
  intros m a m' Hp Hi H. unfold load_next in H.
  destruct q; [|discriminate]. destruct (m_next m !! _); [|discriminate].
  injection H as <- <-. auto.
Qed.

Lemma keeps_load_info q : keeps p ix (load_info q).
Proof.
  intros m a m' Hp Hi H. unfold load_info in H.
  destruct q; [|discriminate]. destruct (m_info m !! _); [|discriminate].
  injection H as <- <-. auto.
Qed.

Lemma keeps_load_data16 a : keeps p ix (load_data16 a).
Proof.
  intros m v m' Hp Hi H. unfold load_data16 in H.
  destruct (m_data16 m !! _); [|discriminate]. injection H as <- <-. auto.
Qed.

Lemma keeps_load_idx a : keeps p ix (load_idx a).
Proof.
  intros m v m' Hp Hi H. unfold load_idx in H.
  destruct (m_idx m !! _); [|discriminate]. injection H as <- <-. auto.
Qed.

Lemma keeps_store_next q v : keeps p ix (store_next q v).
Proof.
  intros m a m' Hp Hi H. unfold store_next in H.
  destruct q; [|discriminate]. injection H as <- <-. auto.
Qed.

Lemma keeps_store_info q v : keeps p ix (store_info q v).
Proof.
  intros m a m' Hp Hi H. unfold store_info in H.
  destruct q; [|discriminate]. injection H as <- <-. auto.
Qed.

Lemma keeps_store_data16 a v : keeps p ix (store_data16 a v).
Proof. intros m u m' Hp Hi [= <- <-]. auto. Qed.

Create HintDb keeps.
#[local] Hint Resolve keeps_ret keeps_fault keeps_timeout keeps_lift_option
  keeps_load_next keeps_load_info keeps_load_data16 keeps_load_idx
  keeps_store_next keeps_store_info keeps_store_data16 : keeps.

(** One syntax-directed step. *)
Ltac keeps_step :=
  lazymatch goal with
  | |- keeps _ _ (bind get_res _) =>
    apply keeps_get_res_bind; intros ? ?
  | |- keeps _ _ (bind (deref_res _) _) =>
    apply keeps_deref_res_bind; intros ? ?
  | |- keeps _ _ (bind _ _) => apply keeps_bind; [|intros ?]
  | |- keeps _ _ (put_res _) => apply keeps_put_res; assumption
  | |- keeps _ _ (if ?b then _ else _) => destruct b
  | |- keeps _ _ (match ?x with _ => _ end) => destruct x
  | |- keeps _ _ _ => solve [auto with keeps]
  end.

Lemma keeps_find_idx_loop key : forall fuel lst seen,
  keeps p ix (find_idx_loop fuel lst key seen).
Proof.
  induction fuel as [|f IH]; intros; cbn [find_idx_loop];
    repeat keeps_step.
Qed.

Lemma keeps_find_data_loop key : forall fuel lst seen,
  keeps p ix (find_data_loop fuel lst key seen).
Proof.
  induction fuel as [|f IH]; intros; cbn [find_data_loop];
    repeat keeps_step.
Qed.

Lemma keeps_core_list_find fuel lst info :
  keeps p ix (core_list_find fuel lst info).
Proof.
  unfold core_list_find, core_list_find_trace.
  apply keeps_bind; [|intros; apply keeps_ret].
  destruct (0 <=? d_idx info);
    [apply keeps_find_idx_loop | apply keeps_find_data_loop].
Qed.

Lemma keeps_reverse_loop : forall fuel lst nx,
  keeps p ix (reverse_loop fuel lst nx).
Proof.
  induction fuel as [|f IH]; intros; cbn [reverse_loop];
    repeat keeps_step.
Qed.

Lemma keeps_core_list_remove item : keeps p ix (core_list_remove item).
Proof. unfold core_list_remove. repeat keeps_step. Qed.

Lemma keeps_core_list_undo_remove a b :
  keeps p ix (core_list_undo_remove a b).
Proof. unfold core_list_undo_remove. repeat keeps_step. Qed.

Lemma keeps_cmp_idx a b res : keeps p ix (cmp_idx a b res).
Proof. unfold cmp_idx. repeat keeps_step. Qed.

Section Sort.
Variable cmp : list_cmp.
Variable res : res_ptr.
Hypothesis keeps_cmp : forall a b, keeps p ix (cmp a b res).

Lemma keeps_step_q : forall n q psize, keeps p ix (step_q n q psize).
Proof.
  induction n as [|n IH]; intros; cbn [step_q]; repeat keeps_step.
Qed.

Lemma keeps_merge_loop : forall fuel s, keeps p ix (merge_loop fuel cmp res s).
Proof.
  induction fuel as [|f IH]; intros s; cbn [merge_loop];
    [apply keeps_timeout|].
  destruct s as [sp sq psize qsize lst tail].
  destruct (_ || _); [|apply keeps_ret].
  apply keeps_bind.
  - destruct (psize =? 0); [repeat keeps_step|].
    destruct (_ || _); [repeat keeps_step|].
    apply keeps_bind; [auto with keeps|intros pi].
    apply keeps_bind; [auto with keeps|intros qi].
    apply keeps_bind; [apply keeps_cmp|intros c].
    repeat keeps_step.
  - intros [e [sp' sq' psize' qsize' lst' tail']].
    apply keeps_bind; [repeat keeps_step|]. intros l. apply IH.
Qed.

Lemma keeps_pass_loop n : forall fuel insize q lst tail nmerges,
  keeps p ix (pass_loop fuel n cmp res insize q lst tail nmerges).
Proof.
  induction fuel as [|f IH]; intros; cbn [pass_loop];
    [apply keeps_timeout|].
  destruct q; [|apply keeps_ret].
  apply keeps_bind; [apply keeps_step_q|]. intros [q' psize].
  apply keeps_bind; [apply keeps_merge_loop|]. intros s. apply IH.
Qed.

Lemma keeps_mergesort_loop n : forall fuel insize lst,
  keeps p ix (mergesort_loop fuel n cmp res insize lst).
Proof.
  induction fuel as [|f IH]; intros; cbn [mergesort_loop];
    [apply keeps_timeout|].
  apply keeps_bind.
  - unfold mergesort_pass. apply keeps_bind; [apply keeps_pass_loop|].
    intros [[l t] nm]. repeat keeps_step.
  - intros [l nm]. destruct (nm <=? 1); [apply keeps_ret | apply IH].
Qed.

Lemma keeps_core_list_mergesort fuel lst :
  keeps p ix (core_list_mergesort fuel lst cmp res).
Proof. apply keeps_mergesort_loop. Qed.
End Sort.

Lemma keeps_core_bench_state fuel blksize s1 s2 step crc :
  keeps p ix (core_bench_state fuel blksize s1 s2 step crc).
Proof. unfold core_bench_state. repeat keeps_step. Qed.

Lemma keeps_core_bench_matrix big seed crc :
  keeps p ix (core_bench_matrix big seed crc).
Proof. unfold core_bench_matrix. repeat keeps_step. Qed.

Lemma keeps_calc_func big fuel pdata res :
  keeps p ix (calc_func big fuel pdata res).
Proof.
  unfold calc_func. cbv zeta.
  apply keeps_bind; [auto with keeps|intros data].
  destruct (negb _); [apply keeps_ret|].
  apply keeps_bind.
  - destruct (_ =? 0).
    + keeps_step. apply keeps_bind; [apply keeps_core_bench_state|].
      intros v. repeat keeps_step.
    + destruct (_ =? 1); [|apply keeps_ret].
      keeps_step. apply keeps_bind; [apply keeps_core_bench_matrix|].
      intros v. repeat keeps_step.
  - intros retval. repeat keeps_step.
Qed.

Lemma keeps_cmp_complex big fuel a b res :
  keeps p ix (cmp_complex big fuel a b res).
Proof.
  unfold cmp_complex.
  apply keeps_bind; [apply keeps_calc_func|intros v1].
  apply keeps_bind; [apply keeps_calc_func|intros v2]. apply keeps_ret.
Qed.

Lemma keeps_node_data16 q : keeps p ix (node_data16 q).
Proof. unfold node_data16. repeat keeps_step. Qed.

Lemma keeps_crc_scan : forall fuel lst finder retval,
  keeps p ix (crc_scan fuel lst finder retval).
Proof.
  induction fuel as [|f IH]; intros; cbn [crc_scan];
    [apply keeps_timeout|].
  destruct finder; [|apply keeps_ret].
  apply keeps_bind; [apply keeps_node_data16|intros d].
  apply keeps_bind; [auto with keeps|intros nx]. apply IH.
Qed.

Lemma keeps_bench_find_loop fuel : forall n i lst info_idx retval found missed,
  keeps p ix (bench_find_loop fuel n i lst info_idx retval found missed).
Proof.
  induction n as [|n IH]; intros; cbn [bench_find_loop];
    [apply keeps_ret|]. cbv zeta.
  apply keeps_bind; [apply keeps_core_list_find|intros this_find].
  apply keeps_bind; [apply keeps_reverse_loop|intros l].
  apply keeps_bind.
  - destruct this_find as [t|].
    + apply keeps_bind; [apply keeps_node_data16|intros d].
      apply keeps_bind.
      * destruct (negb _); [|apply keeps_ret].
        apply keeps_bind; [apply keeps_node_data16|intros d'].
        apply keeps_ret.
      * intros rv. apply keeps_bind; [auto with keeps|intros tn].
        apply keeps_bind; [|intros; apply keeps_ret].
        destruct tn; repeat keeps_step.
    + apply keeps_bind; [auto with keeps|intros nx].
      apply keeps_bind; [apply keeps_node_data16|intros d].
      apply keeps_ret.
  - intros [[rv fd] ms]. apply IH.
Qed.

Lemma keeps_core_bench_list big fuel res finder_idx :
  keeps p ix (core_bench_list big fuel res finder_idx).
Proof.
  unfold core_bench_list. keeps_step. cbv zeta.
  apply keeps_bind; [apply keeps_bench_find_loop|].
  intros [[[[l info_idx] rv] fd] ms].
  apply keeps_bind.
  { destruct (0 <? finder_idx); [|apply keeps_ret].
    apply keeps_core_list_mergesort. intros a b. apply keeps_cmp_complex. }
  intros l1. apply keeps_bind; [auto with keeps|intros ln].
  apply keeps_bind; [apply keeps_core_list_remove|intros remover].
  apply keeps_bind; [apply keeps_core_list_find|intros finder].
  apply keeps_bind; [destruct finder; auto with keeps|intros finder'].
  apply keeps_bind; [apply keeps_crc_scan|intros rv'].
  apply keeps_bind; [auto with keeps|intros ln'].
  apply keeps_bind; [apply keeps_core_list_undo_remove|intros remover'].
  apply keeps_bind.
  { apply keeps_core_list_mergesort. intros a b. apply keeps_cmp_idx. }
  intros l2. apply keeps_bind; [auto with keeps|intros finder''].
  apply keeps_bind; [apply keeps_crc_scan|intros rv'']. apply keeps_ret.
Qed.

Lemma keeps_iterate_loop big fuel : forall n i,
  keeps p ix (iterate_loop big fuel n i).
Proof.
  induction n as [|n IH]; intros; cbn [iterate_loop]; [apply keeps_ret|].
  apply keeps_bind; [apply keeps_core_bench_list|intros c].
  keeps_step. apply keeps_bind; [keeps_step|intros _].
  apply keeps_bind; [apply keeps_core_bench_list|intros c'].
  keeps_step. apply keeps_bind; [keeps_step|intros _].
  apply keeps_bind; [|intros _; apply IH].
  destruct (i =? 0); repeat keeps_step.
Qed.

Lemma keeps_iterate big fuel iterations :
  keeps p ix (iterate big fuel iterations).
Proof.
  unfold iterate. keeps_step.
  apply keeps_bind; [keeps_step|intros _]. apply keeps_iterate_loop.
Qed.
End Keeps.

(** X30. [iterate] resets the four checksums and runs [core_bench_list]
    twice per iteration; whatever the number of iterations, the run
    parameters of the context (the three seeds, the size, the matrix
    dimension, matrix B and the list head) and the rank of every record
    are afterwards what they were before. *)
Theorem iterate_keeps_parameters big fuel iterations m m' :
  iterate big fuel iterations m = Ok (tt, m') ->
  run_params (m_res m') = run_params (m_res m) /\ m_idx m' = m_idx m.
Proof.
  intros H. exact (keeps_iterate _ _ big fuel iterations m tt m'
                     eq_refl eq_refl H).
Qed.

Lemma iterate_keeps_parameters_witness :
  exists m',
    iterate matrix_big_int 300 2 mem_run = Ok (tt, m')
    /\ run_params (m_res m') = run_params (m_res mem_run)
    /\ m_idx m' = m_idx mem_run.
Proof.
  destruct (iterate matrix_big_int 300 2 mem_run) as [[[] m']| |] eqn:E.
  - exists m'. split; [reflexivity|].
    apply (iterate_keeps_parameters matrix_big_int 300 2 mem_run m' E).
  - vm_compute in E. discriminate E.
  - vm_compute in E. discriminate E.
Defined.

(** ** Concrete instances of the kernels *)

Ltac solve_holds :=
  let i := fresh "i" in let c := fresh "c" in let H := fresh "H" in
  intros i c H;
  repeat (destruct i as [|i]; [injection H as <-; reflexivity|]);
  discriminate H.

Lemma tokens_nul : nul_at tokens 0 13.
Proof.
  split; [lia|]. split; [vm_compute; reflexivity|]. intros k Hk.
  assert (Hc : k = 0 \/ k = 1 \/ k = 2 \/ k = 3 \/ k = 4 \/ k = 5 \/ k = 6
               \/ k = 7 \/ k = 8 \/ k = 9 \/ k = 10 \/ k = 11 \/ k = 12) by lia.
  repeat (destruct Hc as [->|Hc]; [vm_compute; discriminate|]).
  subst k. vm_compute. discriminate.
Defined.

Lemma core_state_transition_bounded_witness :
  exists st instr' tc',
    core_state_transition 20 tokens 0 (replicate 8 0) = Some (st, instr', tc')
    /\ 0 <= instr' <= 13 /\ (0 < 13 -> 0 < instr').
Proof.
  apply (core_state_transition_bounded 20 tokens 0 13).
  - exact tokens_nul.
  - cbn. lia.
Defined.

Lemma state_scan_loop_terminates_witness :
  is_Some (state_scan_loop 20 tokens 0 (replicate 8 0) (replicate 8 0)).
Proof.
  apply (state_scan_loop_terminates tokens 13).
  - exact tokens_nul.
  - cbn. lia.
Defined.

Lemma state_int_token_witness :
  core_state_transition 20 tokens 0 (replicate 8 0)
  = Some (CORE_INT, 3, count_incr (replicate 8 0) CORE_START).
Proof.
  apply (state_int_token tokens 0 (replicate 8 0) None 49 [50] 20).
  - by left.
  - repeat constructor.
  - solve_holds.
  - cbn. lia.
Defined.

Lemma state_float_token_witness :
  exists tc',
    core_state_transition 20 (<[7 := 44]> tokens) 3 (replicate 8 0)
    = Some (CORE_FLOAT, 8, tc').
Proof.
  apply (state_float_token (<[7 := 44]> tokens) 3 (replicate 8 0)
           (Some 45) [51] [53] 20).
  - auto.
  - repeat constructor.
  - solve_holds.
  - cbn. lia.
Defined.

Lemma state_scientific_token_witness :
  exists tc',
    core_state_transition 20 tokens 3 (replicate 8 0)
    = Some (CORE_SCIENTIFIC, 11, tc').
Proof.
  apply (state_scientific_token tokens 3 (replicate 8 0)
           (Some 45) [51] [53] 101 43 55 [] 20).
  - auto.
  - repeat constructor.
  - auto.
  - auto.
  - solve_holds.
  - cbn. lia.
Defined.

Lemma state_int_then_other_witness :
  exists tc',
    core_state_transition 20 tokens 11 (replicate 8 0)
    = Some (CORE_INVALID, 13, tc').
Proof.
  apply (state_int_then_other tokens 11 (replicate 8 0) None 57 [] 120 20).
  - by left.
  - repeat constructor.
  - reflexivity.
  - discriminate.
  - discriminate.
  - discriminate.
  - solve_holds.
  - cbn. lia.
Defined.

Lemma state_corruption_round_trip_witness :
  exists buf1 buf2,
    state_corrupt_loop 20 tokens 0 13 29 2 = Some buf1
    /\ state_corrupt_loop 20 buf1 0 13 29 2 = Some buf2
    /\ forall k,
         buf2 !!! k
         = if bool_decide (buf1 !!! k = 44 /\ tokens !!! k <> 44) then 44
           else tokens !!! k.
Proof.
  apply (state_corruption_round_trip 20 tokens 13 29 29 2).
  - lia.
  - cbn. lia.
  - lia.
  - reflexivity.
Defined.

Lemma core_init_state_nul_terminated_witness :
  exists buf total,
    core_init_state 60 50 0 = Some buf
    /\ 0 <= total < 50 /\ (2 <= 50 -> total <= 50 - 2)
    /\ (forall k, 0 <= k < total -> buf !!! k <> 0)
    /\ (forall k, total <= k < 50 -> buf !!! k = 0).
Proof. apply (core_init_state_nul_terminated 60 50 0); [lia | cbn; lia]. Defined.

Lemma core_bench_state_returns_witness :
  exists v buf',
    core_bench_state 60 50 7 7 34 0 mem_state
    = Ok (v, with_res (res_with_memblock3 buf' (m_res mem_state)) mem_state).
Proof.
  apply (core_bench_state_returns 60 50 0 7 7 34 0 mem_state state_block).
  - lia.
  - cbn. lia.
  - lia.
  - vm_compute. reflexivity.
  - reflexivity.
Defined.

Lemma cmp_idx_null_spec_witness :
  exists m',
    cmp_idx 20 21 RES_NULL mem3 = Ok (4 - 5, m')
    /\ m' = with_data16 (<[21 := regen_data 514]>
                           (<[20 := regen_data 257]> (m_data16 mem3))) mem3
    /\ Z.land (regen_data 257) 255 = Z.land (Z.shiftr 257 8) 255
    /\ Z.shiftr (regen_data 257) 8 = Z.shiftr 257 8
    /\ cmp_idx 20 21 RES_NULL m' = Ok (4 - 5, m').
Proof.
  apply (cmp_idx_null_spec mem3 20 21 257 514 4 5); (reflexivity || lia).
Defined.

Lemma calc_func_memoises_witness :
  exists v m',
    calc_func matrix_big_int 5 20 RES_CTX mem_mat = Ok (v, m')
    /\ 0 <= v < 128
    /\ calc_func matrix_big_int 5 20 RES_CTX m' = Ok (v, m')
    /\ m_next m' = m_next mem_mat /\ m_info m' = m_info mem_mat
    /\ m_idx m' = m_idx mem_mat
    /\ forall a, a <> 20 -> m_data16 m' !! a = m_data16 mem_mat !! a.
Proof.
  eexists _, _. split; [vm_compute; reflexivity|].
  apply (calc_func_memoises matrix_big_int 5 20 RES_CTX mem_mat).
  vm_compute. reflexivity.
Defined.

Lemma cmp_complex_repeatable_witness :
  exists v m',
    cmp_complex matrix_big_int 5 20 21 RES_CTX mem_mat = Ok (v, m')
    /\ cmp_complex matrix_big_int 5 20 21 RES_CTX m' = Ok (v, m')
    /\ -127 <= v <= 127.
Proof.
  eexists _, _. split; [vm_compute; reflexivity|].
  apply (cmp_complex_repeatable matrix_big_int 5 20 21 RES_CTX mem_mat).
  vm_compute. reflexivity.
Defined.

Lemma mat_A_range k :
  0 <= k < 2 * 2 -> -32768 <= mat_A (m_res mem_mat) !!! k < 32768.
Proof.
  intros Hk.
  assert (Hc : k = 0 \/ k = 1 \/ k = 2 \/ k = 3) by lia.
  destruct Hc as [-> | [-> | [-> | ->]]]; vm_compute; (split; [discriminate | reflexivity]).
Defined.

Lemma matrix_test_restores_A_witness :
  snd (matrix_test matrix_big_int 2 ∅ (mat_A (m_res mem_mat))
         (mat_B (m_res mem_mat)) 9) !!! 3
  = mat_A (m_res mem_mat) !!! 3.
Proof.
  apply (matrix_test_restores_A matrix_big_int 2 ∅ (mat_A (m_res mem_mat))
           (mat_B (m_res mem_mat)) 9); [lia | exact mat_A_range].
Defined.

Lemma matrix_mul_vect_spec_witness :
  (forall i, 0 <= i < 2 ->
     matrix_mul_vect 2 ∅ (mat_A (m_res mem_mat)) (mat_B (m_res mem_mat)) !!! i
     = s32 (sum_to (Z.to_nat 2)
              (fun j => mat_A (m_res mem_mat) !!! (i * 2 + j)
                        * mat_B (m_res mem_mat) !!! j)))
  /\ (forall k, ~ (0 <= k < 2) ->
        matrix_mul_vect 2 ∅ (mat_A (m_res mem_mat)) (mat_B (m_res mem_mat))
          !!! k = (∅ : gmap Z Z) !!! k).
Proof. apply (matrix_mul_vect_spec 2 ∅). lia. Defined.

Lemma matrix_mul_matrix_spec_witness :
  (forall i j, 0 <= i < 2 -> 0 <= j < 2 ->
     matrix_mul_matrix 2 ∅ (mat_A (m_res mem_mat)) (mat_B (m_res mem_mat))
       !!! (i * 2 + j)
     = s32 (sum_to (Z.to_nat 2)
              (fun k => mat_A (m_res mem_mat) !!! (i * 2 + k)
                        * mat_B (m_res mem_mat) !!! (k * 2 + j))))
  /\ (forall k, ~ (0 <= k < 2 * 2) ->
        matrix_mul_matrix 2 ∅ (mat_A (m_res mem_mat)) (mat_B (m_res mem_mat))
          !!! k = (∅ : gmap Z Z) !!! k).
Proof. apply (matrix_mul_matrix_spec 2 ∅). lia. Defined.

Lemma matrix_mul_matrix_bitextract_clears_witness :
  (forall k, 0 <= k < 2 * 2 ->
     matrix_mul_matrix_bitextract 2 (mat_A (m_res mem_mat))
       (mat_A (m_res mem_mat)) (mat_B (m_res mem_mat)) !!! k = 0)
  /\ (forall k, ~ (0 <= k < 2 * 2) ->
        matrix_mul_matrix_bitextract 2 (mat_A (m_res mem_mat))
          (mat_A (m_res mem_mat)) (mat_B (m_res mem_mat)) !!! k
        = mat_A (m_res mem_mat) !!! k).
Proof. apply (matrix_mul_matrix_bitextract_clears 2). lia. Defined.

Lemma core_bench_matrix_repeatable_witness :
  exists v m',
    core_bench_matrix matrix_big_int 9 0 mem_mat = Ok (v, m')
    /\ exists m'', core_bench_matrix matrix_big_int 9 0 m' = Ok (v, m'').
Proof.
  eexists _, _. split; [vm_compute; reflexivity|].
  apply (core_bench_matrix_repeatable matrix_big_int 9 0 mem_mat).
  - cbn. lia.
  - exact mat_A_range.
  - vm_compute. reflexivity.
Defined.

Lemma core_init_matrix_dim_witness :
  let '(N, A, B) := core_init_matrix matrix_clip_int 20 2000 1 in
  0 <= N /\ 8 * N * N < 2000 <= 8 * (N + 1) * (N + 1)
  /\ (forall k, -32768 <= A !!! k < 32768)
  /\ (forall k, -32768 <= B !!! k < 32768).
Proof.
  apply (core_init_matrix_dim matrix_clip_int 20 2000 1 16); (lia || (cbn; lia)).
Defined.

Lemma core_list_init_sentinels_witness :
  exists m' L,
    core_list_init 200 4 2000 0 0 empty_mem = Ok (Some 0, m')
    /\ chain (m_next m') (Some 0) L
    /\ head L = Some 0 /\ last L = Some (0 + 1).
Proof.
  destruct (core_list_init_sentinels 4 2000 0 0 200 empty_mem)
    as (m' & L & Hrun & Hc & Hh & Hl & _).
  - lia.
  - lia.
  - lia.
  - vm_compute. discriminate.
  - vm_compute. discriminate.
  - vm_compute. lia.
  - exists m', L. auto.
Defined.
